(** * Interview sessions: the answer-submission state machine

    A shallow embedding of the use cases of the interview-coach backend
    ([create-session], [get-current-prompt], [submit-answer],
    [get-session-result], the timing helper and the in-memory repository),
    followed by the properties of the session state machine.

    Conventions of the embedding:
    - a JavaScript [number] that holds a measurement (a delay, an average)
      is a binary64 float, with the kernel's IEEE 754 arithmetic;
      a [number] that counts (an index, a length, a question count) is a
      [nat] or a [Z];
    - a [string] is the sequence of bytes of its UTF-8 encoding, as the
      string literals of this file are read;
    - [string | null] and [T | undefined] are [option];
    - a thrown exception is the left injection of a sum, an [await]ed call
      is a call: requests are handled one after the other;
    - the external services (speech to text, the interview coach) and the
      host's base64 decoder are fields of an environment record, chosen
      anew at every request. *)

From Stdlib Require Import QArith Qabs.
From Stdlib Require Import ZArith List Bool Lia Strings.Ascii Strings.String Strings.Byte.
From Stdlib Require Import Floats.PrimFloat Floats.SpecFloat Floats.FloatOps.
From stdpp Require Import base option list gmap strings.

Set Warnings "-inexact-float".
Local Open Scope string_scope.
Local Open Scope list_scope.
Local Open Scope nat_scope.
Local Open Scope stdpp_scope.

(** ** JavaScript numbers *)

Module Number.

(** [Number.isFinite(x)] *)
Definition isFinite (x : float) : bool :=
  match Prim2SF x with
  | S754_zero _ | S754_finite _ _ _ => true
  | S754_infinity _ | S754_nan => false
  end.

(** The conversion of an array length to a [number]. *)
Definition ofNat (n : nat) : float :=
  SF2Prim (binary_normalize prec emax (Z.of_nat n) 0 false).

(** [x.toFixed(2)], step 8 of the ECMAScript algorithm: the integer [n]
    for which [n / 100 - x] is as close to zero as possible, the larger
    one when there are two, for [x = m * 2 ^ e]. *)
Definition nearestHundredths (m : positive) (e : Z) : Z :=
  if (0 <=? e)%Z then (100 * Z.pos m * 2 ^ e)%Z
  else ((2 * (100 * Z.pos m) + 2 ^ (- e)) / (2 * 2 ^ (- e)))%Z.

(** The exponent [e] of the binade of [n / 100], for which
    [2 ^ 52 <= n / (100 * 2 ^ e) < 2 ^ 53], for [n] from 1; it is -59 at
    least, and the quotient is taken with both terms scaled by [2 ^ 60]. *)
Definition binade (n : Z) : Z :=
  let k := (Z.log2 n - 59)%Z in
  if (n * 2 ^ 60 / (100 * 2 ^ (k + 60)) <? 2 ^ 53)%Z then k else (k + 1)%Z.

(** The mantissa and the exponent of the binary64 value nearest to
    [n / 100], the one of even mantissa when there are two, for [n] from 1:
    [n / (100 * 2 ^ e)] rounded to an integer, in the next binade when that
    integer is [2 ^ 53]. *)
Definition nearestBinary64 (n : Z) : Z * Z :=
  let e := binade n in
  let denominator := (100 * 2 ^ (e + 60))%Z in
  let quotient := (n * 2 ^ 60 / denominator)%Z in
  let remainder := (n * 2 ^ 60 mod denominator)%Z in
  let m :=
    if (2 * remainder <? denominator)%Z then quotient
    else if (denominator <? 2 * remainder)%Z then (quotient + 1)%Z
    else if Z.even quotient then quotient else (quotient + 1)%Z in
  if (m =? 2 ^ 53)%Z then (2 ^ 52, e + 1)%Z else (m, e).

(** [Number(s)] for the decimal numeral [s] of [n / 100] with sign [sign]:
    the binary64 value nearest to it, a zero of that sign for [n = 0]. The
    numerals that [toFixed2] reads back are below [1e21], far from the
    largest binary64 value. *)
Definition ofHundredths (sign : bool) (n : Z) : float :=
  match nearestBinary64 n with
  | (Z.pos m, e) =>
      if (0 <? n)%Z then SF2Prim (S754_finite sign m e) else SF2Prim (S754_zero sign)
  | _ => SF2Prim (S754_zero sign)
  end.

(** [Number(x.toFixed(2))]. [toFixed] prints a non-finite [x], and an [x]
    of magnitude [1e21] or more, as [String(x)], which [Number] reads
    back as [x]; zero prints as ["0.00"] whatever its sign. *)
Definition toFixed2 (x : float) : float :=
  match Prim2SF x with
  | S754_finite sign m e =>
      if (1e21 <=? abs x)%float then x
      else ofHundredths sign (nearestHundredths m e)
  | S754_zero _ => 0%float
  | S754_infinity _ | S754_nan => x
  end.

End Number.

(** ** JavaScript strings

    A string is the sequence of bytes of its UTF-8 encoding (with a lone
    surrogate encoded like any other code point), so that two strings are
    equal when their code units are. The white space that [trim] removes is
    the [WhiteSpace] and the [LineTerminator] of ECMAScript: U+0009 to
    U+000D, U+0020, U+00A0, U+1680, U+2000 to U+200A, U+2028, U+2029,
    U+202F, U+205F, U+3000 and U+FEFF. *)

Module Str.

(** The white space of one byte: U+0009 to U+000D and U+0020. *)
Definition isWhiteSpace1 (a : ascii) : bool :=
  let n := nat_of_ascii a in
  ((9 <=? n) && (n <=? 13)) || (n =? 32).

(** Of two bytes: U+00A0, [C2 A0]. *)
Definition isWhiteSpace2 (a b : ascii) : bool :=
  (nat_of_ascii a =? 194) && (nat_of_ascii b =? 160).

(** Of three bytes: U+1680, [E1 9A 80]; U+2000 to U+200A, [E2 80 80] to
    [E2 80 8A]; U+2028 and U+2029, [E2 80 A8] and [E2 80 A9]; U+202F,
    [E2 80 AF]; U+205F, [E2 81 9F]; U+3000, [E3 80 80]; U+FEFF,
    [EF BB BF]. *)
Definition isWhiteSpace3 (a b c : ascii) : bool :=
  let x := nat_of_ascii a in
  let y := nat_of_ascii b in
  let z := nat_of_ascii c in
  ((x =? 225) && (y =? 154) && (z =? 128))
  || ((x =? 226) && (y =? 128)
      && (((128 <=? z) && (z <=? 138)) || (z =? 168) || (z =? 169) || (z =? 175)))
  || ((x =? 226) && (y =? 129) && (z =? 159))
  || ((x =? 227) && (y =? 128) && (z =? 128))
  || ((x =? 239) && (y =? 187) && (z =? 191)).

(** [s] is one white space and nothing more. *)
Definition isWhiteSpace (s : string) : bool :=
  match s with
  | String a EmptyString => isWhiteSpace1 a
  | String a (String b EmptyString) => isWhiteSpace2 a b
  | String a (String b (String c EmptyString)) => isWhiteSpace3 a b c
  | _ => false
  end.

(** [s] begins with a white space. *)
Definition startsWithWhiteSpace (s : string) : bool :=
  match s with
  | String a rest1 =>
      isWhiteSpace1 a
      || match rest1 with
         | String b rest2 =>
             isWhiteSpace2 a b
             || match rest2 with
                | String c _ => isWhiteSpace3 a b c
                | EmptyString => false
                end
         | EmptyString => false
         end
  | EmptyString => false
  end.

(** From the left: the white space at the head is dropped, one after the
    other. *)
Fixpoint trimStart (s : string) : string :=
  match s with
  | String a rest1 =>
      if isWhiteSpace1 a then trimStart rest1
      else
        match rest1 with
        | String b rest2 =>
            if isWhiteSpace2 a b then trimStart rest2
            else
              match rest2 with
              | String c rest3 => if isWhiteSpace3 a b c then trimStart rest3 else s
              | EmptyString => s
              end
        | EmptyString => s
        end
  | EmptyString => EmptyString
  end.

(** From the right: what is kept of the rest, with [a] before it, unless
    that is one white space and nothing more. *)
Fixpoint trimEnd (s : string) : string :=
  match s with
  | String a rest =>
      let kept := String a (trimEnd rest) in
      if isWhiteSpace kept then EmptyString else kept
  | EmptyString => EmptyString
  end.

(** [s.trim()] *)
Definition trim (s : string) : string := trimEnd (trimStart s).

(** The truthiness of a string: [""] is falsy. *)
Definition nonEmpty (s : string) : bool :=
  match s with EmptyString => false | String _ _ => true end.

(** The truthiness of a [string | null | undefined]. *)
Definition truthy (s : option string) : bool :=
  match s with Some s => nonEmpty s | None => false end.

End Str.

(** ** Domain entities ([domain/entities/session.ts]) *)

Inductive SessionStatus := in_progress | completed.

Record TimingSummary := {
  avgResponseDelaySec : float;
  longPausesCount : nat;
  totalTurns : nat
}.

Record CorrectionItem := {
  original : string;
  corrected : string;
  reason : string
}.

Record ImprovedBestAnswer := {
  improvedQuestion : string;
  improvedAnswer : string
}.

Record InterviewFeedback := {
  timingSummary : TimingSummary;
  corrections : list CorrectionItem;
  improvedBestAnswer : ImprovedBestAnswer;
  interviewTips : list string
}.

Record SessionTurn := {
  question : string;
  answer : string;
  followUpQuestion : option string;
  followUpAnswer : option string;
  mainResponseDelaySec : float;
  followUpResponseDelaySec : option float
}.

Record InterviewSession := {
  id : string;
  createdAt : string;
  status : SessionStatus;
  allowFollowUps : bool;
  questions : list string;
  questionIndex : nat;
  awaitingFollowUp : bool;
  pendingFollowUpQuestion : option string;
  turns : list SessionTurn;
  result : option InterviewFeedback
}.

Definition isCompleted (st : SessionStatus) : bool :=
  match st with completed => true | in_progress => false end.

(** Field assignments on a session object. *)
Definition set_status (v : SessionStatus) (s : InterviewSession) : InterviewSession :=
  {| id := id s; createdAt := createdAt s; status := v;
     allowFollowUps := allowFollowUps s; questions := questions s;
     questionIndex := questionIndex s; awaitingFollowUp := awaitingFollowUp s;
     pendingFollowUpQuestion := pendingFollowUpQuestion s; turns := turns s;
     result := result s |}.

Definition set_questionIndex (v : nat) (s : InterviewSession) : InterviewSession :=
  {| id := id s; createdAt := createdAt s; status := status s;
     allowFollowUps := allowFollowUps s; questions := questions s;
     questionIndex := v; awaitingFollowUp := awaitingFollowUp s;
     pendingFollowUpQuestion := pendingFollowUpQuestion s; turns := turns s;
     result := result s |}.

Definition set_awaitingFollowUp (v : bool) (s : InterviewSession) : InterviewSession :=
  {| id := id s; createdAt := createdAt s; status := status s;
     allowFollowUps := allowFollowUps s; questions := questions s;
     questionIndex := questionIndex s; awaitingFollowUp := v;
     pendingFollowUpQuestion := pendingFollowUpQuestion s; turns := turns s;
     result := result s |}.

Definition set_pendingFollowUpQuestion (v : option string) (s : InterviewSession)
  : InterviewSession :=
  {| id := id s; createdAt := createdAt s; status := status s;
     allowFollowUps := allowFollowUps s; questions := questions s;
     questionIndex := questionIndex s; awaitingFollowUp := awaitingFollowUp s;
     pendingFollowUpQuestion := v; turns := turns s;
     result := result s |}.

Definition set_turns (v : list SessionTurn) (s : InterviewSession) : InterviewSession :=
  {| id := id s; createdAt := createdAt s; status := status s;
     allowFollowUps := allowFollowUps s; questions := questions s;
     questionIndex := questionIndex s; awaitingFollowUp := awaitingFollowUp s;
     pendingFollowUpQuestion := pendingFollowUpQuestion s; turns := v;
     result := result s |}.

Definition set_result (v : option InterviewFeedback) (s : InterviewSession)
  : InterviewSession :=
  {| id := id s; createdAt := createdAt s; status := status s;
     allowFollowUps := allowFollowUps s; questions := questions s;
     questionIndex := questionIndex s; awaitingFollowUp := awaitingFollowUp s;
     pendingFollowUpQuestion := pendingFollowUpQuestion s; turns := turns s;
     result := v |}.

(** ** The question catalog ([domain/entities/question-bank.ts]) *)

Definition QUESTION_BANK : list string := [
  "Tell me about yourself and your current backend focus.";
  "Describe a challenging production incident you handled. What did you do?";
  "How would you design a URL shortener service?";
  "How do you ensure reliability in a distributed system?";
  "Explain the difference between horizontal and vertical scaling.";
  "How do you diagnose slow database queries in production?";
  "Describe a time you disagreed with a teammate and how you resolved it.";
  "What tradeoffs would you consider when introducing caching?";
  "How would you make an API backward compatible over time?";
  "Why are you interested in this role and what value would you bring?"
].

(** JavaScript's [l.slice(start, end)] for integer arguments: a negative
    index counts from the end, and both are clipped to the array. *)
Definition slice {A} (l : list A) (start end_ : Z) : list A :=
  let len := Z.of_nat (length l) in
  let clip (k : Z) := if (k <? 0)%Z then Z.max (len + k) 0 else Z.min k len in
  take (Z.to_nat (clip end_ - clip start)) (drop (Z.to_nat (clip start)) l).

(** ** Errors ([application/errors]) *)

(** Modelled from the spec: the error classes of [application/errors],
    which the use cases import and throw with a message. [NotFoundError]
    and [ValidationError] are the two classes of the application;
    [ServiceError] stands for whatever an external service throws, which no
    use case catches. *)
Inductive error :=
  | NotFoundError (message : string)
  | ValidationError (message : string)
  | ServiceError (message : string).

(** ** The session store ([infrastructure/repositories])

    A use case runs against the repository's map and either returns or
    throws; [M] threads the map and the outcome. *)

Abbreviation Store := (gmap string InterviewSession).

Definition M (A : Type) : Type := Store → Store * (error + A).

#[global] Instance M_ret : MRet M := λ A a st, (st, inr a).

#[global] Instance M_bind : MBind M := λ A B f m st,
  match m st with
  | (st', inr a) => f a st'
  | (st', inl e) => (st', inl e)
  end.

Definition throw {A} (e : error) : M A := λ st, (st, inl e).

(** The result of an [await]ed external call: the service's value, or the
    error it threw. *)
Definition call {A} (r : string + A) : M A := λ st,
  match r with
  | inr a => (st, inr a)
  | inl message => (st, inl (ServiceError message))
  end.

(** A synchronous helper that may throw. *)
Definition lift {A} (r : error + A) : M A := λ st, (st, r).

(** [structuredClone(value)]: a deep copy. The embedding has values and no
    references, so the copy of a value is that value; what the copies
    ensure is that the repository neither hands out nor keeps the object
    that a use case goes on to change. *)
Definition clone {T} (value : T) : T := value.

(** [InMemorySessionRepository]: every operation goes through [clone], so
    what a use case holds is a copy of the stored record, and the map
    changes only in [create] and [save]. *)
Module InMemorySessionRepository.

Definition create (session : InterviewSession) : M unit := λ st,
  (<[id session := clone session]> st, inr ()).

Definition findById (sessionId : string) : M (option InterviewSession) := λ st,
  (st, inr match st !! sessionId with
           | Some session => Some (clone session)
           | None => None
           end).

Definition save (session : InterviewSession) : M unit := λ st,
  (<[id session := clone session]> st, inr ()).

End InMemorySessionRepository.

(** ** External services ([domain/services]) *)

Record InterviewerReply := {
  replyText : string;
  replyFollowUpQuestion : option string
}.

Record TranscriptTurn := {
  questionNumber : nat;
  transcriptQuestion : string;
  transcriptAnswer : string;
  transcriptFollowUpQuestion : option string;
  transcriptFollowUpAnswer : option string
}.

(** What a request finds around it: [Buffer.from(_, 'base64')], the
    speech-to-text service and the interview coach. A service call returns
    [inr] of its value or [inl] of the message of the error it throws. *)
Record Env := {
  base64Decode : string → list byte;
  transcribe : list byte → string → string + string;
  generateInterviewerReply : string → string → string + InterviewerReply;
  generateFollowUpClose : string → string → string → string → string + string;
  generateFeedback : TimingSummary → list TranscriptTurn → string + InterviewFeedback
}.

(** ** The timing helper ([application/use-cases/helpers.ts]) *)

Definition computeTimingSummary (turns : list SessionTurn) : TimingSummary :=
  let delays :=
    flat_map (λ turn,
      let items := [mainResponseDelaySec turn] in
      match followUpResponseDelaySec turn with
      | Some delay => items ++ [delay]
      | None => items
      end) turns in
  let avgResponseDelaySec :=
    if length delays =? 0 then 0%float
    else Number.toFixed2
           (fold_left PrimFloat.add delays 0%float / Number.ofNat (length delays))%float in
  let longPausesCount := length (List.filter (λ delay, (4 <? delay)%float) delays) in
  {| avgResponseDelaySec := avgResponseDelaySec;
     longPausesCount := longPausesCount;
     totalTurns := length delays |}.

(** ** Creating a session ([application/use-cases/create-session.ts]) *)

Module CreateSessionInput.
Record t := {
  questionCount : option Z;
  allowFollowUps : option bool
}.
End CreateSessionInput.

Module CreateSessionUseCase.

(** [uuid] is the value of [randomUUID()] and [now] that of
    [new Date().toISOString()]. The question count is an integer (the
    route's schema admits nothing else). *)
Definition execute (uuid now : string) (input : CreateSessionInput.t)
  : M InterviewSession :=
  let requestedCount := default 3%Z (CreateSessionInput.questionCount input) in
  let questionCount :=
    Z.max 1 (Z.min requestedCount (Z.of_nat (length QUESTION_BANK))) in
  let allowFollowUps := default true (CreateSessionInput.allowFollowUps input) in
  let session :=
    {| id := uuid;
       createdAt := now;
       status := in_progress;
       allowFollowUps := allowFollowUps;
       questions := slice QUESTION_BANK 0 questionCount;
       questionIndex := 0;
       awaitingFollowUp := false;
       pendingFollowUpQuestion := None;
       turns := [];
       result := None |} in
  _ ← InMemorySessionRepository.create session;
  mret session.

End CreateSessionUseCase.

(** ** The current prompt ([application/use-cases/get-current-prompt.ts]) *)

Module PromptType.
Inductive t := question | follow_up | completed.
End PromptType.

Module CurrentPromptResult.
Record t := {
  sessionId : string;
  status : SessionStatus;
  prompt : option string;
  promptType : PromptType.t;
  questionNumber : nat;
  totalQuestions : nat
}.
End CurrentPromptResult.

Module GetCurrentPromptUseCase.

Definition execute (sessionId : string) : M CurrentPromptResult.t :=
  found ← InMemorySessionRepository.findById sessionId;
  match found with
  | None => throw (NotFoundError "Session not found.")
  | Some session =>
      if isCompleted (status session) then
        mret {| CurrentPromptResult.sessionId := id session;
                CurrentPromptResult.status := status session;
                CurrentPromptResult.prompt := None;
                CurrentPromptResult.promptType := PromptType.completed;
                CurrentPromptResult.questionNumber := length (questions session);
                CurrentPromptResult.totalQuestions := length (questions session) |}
      else if awaitingFollowUp session
              && Str.truthy (pendingFollowUpQuestion session) then
        mret {| CurrentPromptResult.sessionId := id session;
                CurrentPromptResult.status := status session;
                CurrentPromptResult.prompt := pendingFollowUpQuestion session;
                CurrentPromptResult.promptType := PromptType.follow_up;
                CurrentPromptResult.questionNumber := questionIndex session + 1;
                CurrentPromptResult.totalQuestions := length (questions session) |}
      else
        mret {| CurrentPromptResult.sessionId := id session;
                CurrentPromptResult.status := status session;
                CurrentPromptResult.prompt := questions session !! questionIndex session;
                CurrentPromptResult.promptType := PromptType.question;
                CurrentPromptResult.questionNumber := questionIndex session + 1;
                CurrentPromptResult.totalQuestions := length (questions session) |}
  end.

End GetCurrentPromptUseCase.

(** ** The session result ([application/use-cases/get-session-result.ts]) *)

Module SessionResultView.
Record t := {
  sessionId : string;
  status : SessionStatus;
  result : option InterviewFeedback
}.
End SessionResultView.

Module GetSessionResultUseCase.

Definition execute (sessionId : string) : M SessionResultView.t :=
  found ← InMemorySessionRepository.findById sessionId;
  match found with
  | None => throw (NotFoundError "Session not found.")
  | Some session =>
      mret {| SessionResultView.sessionId := id session;
              SessionResultView.status := status session;
              SessionResultView.result := result session |}
  end.

End GetSessionResultUseCase.

(** ** Submitting an answer ([application/use-cases/submit-answer.ts]) *)

Module SubmitAnswerInput.
Record t := {
  sessionId : string;
  answerText : option string;
  audioBase64 : option string;
  mimeType : option string;
  responseDelaySec : option float
}.
End SubmitAnswerInput.

Module SubmitAnswerResult.
Record t := {
  sessionId : string;
  status : SessionStatus;
  usedTranscript : string;
  interviewerMessage : string;
  nextPrompt : option string;
  promptType : PromptType.t;
  result : option InterviewFeedback
}.
End SubmitAnswerResult.

Module SubmitAnswerUseCase.

Definition normalizeDelay (value : option float) : error + float :=
  match value with
  | None => inr 0%float
  | Some value =>
      if negb (Number.isFinite value) || (value <? 0)%float then
        inl (ValidationError "responseDelaySec must be a non-negative number.")
      else inr (Number.toFixed2 value)
  end.

(** The second half of [resolveTranscript], reached when [answerText] is
    missing or blank. [Buffer.from] does not throw on a string, so the
    [catch] around it is never entered. *)
Definition transcribeAudio (env : Env) (input : SubmitAnswerInput.t) : M string :=
  match SubmitAnswerInput.audioBase64 input with
  | Some audioBase64 =>
      if Str.nonEmpty audioBase64 then
        let mimeType :=
          match SubmitAnswerInput.mimeType input with
          | Some given =>
              if Str.nonEmpty (Str.trim given) then Str.trim given else "audio/wav"
          | None => "audio/wav"
          end in
        let audio := base64Decode env audioBase64 in
        if length audio =? 0 then
          throw (ValidationError "Decoded audio payload is empty.")
        else
          transcript ← call (transcribe env audio mimeType);
          if negb (Str.nonEmpty (Str.trim transcript)) then
            throw (ValidationError "Transcription returned empty text.")
          else mret (Str.trim transcript)
      else throw (ValidationError "Provide either answerText or audioBase64.")
  | None => throw (ValidationError "Provide either answerText or audioBase64.")
  end.

Definition resolveTranscript (env : Env) (input : SubmitAnswerInput.t) : M string :=
  match SubmitAnswerInput.answerText input with
  | Some answerText =>
      if Str.nonEmpty answerText && Str.nonEmpty (Str.trim answerText) then
        mret (Str.trim answerText)
      else transcribeAudio env input
  | None => transcribeAudio env input
  end.

(** [completeIfFinished] works on the session object it is given: it
    returns the session as it leaves it, with the value it returns. *)
Definition completeIfFinished (env : Env) (session : InterviewSession)
  : M (InterviewSession * option InterviewFeedback) :=
  if questionIndex session <? length (questions session) then
    mret (session, None)
  else
    let timingSummary := computeTimingSummary (turns session) in
    let transcript :=
      imap (λ index turn,
        {| questionNumber := index + 1;
           transcriptQuestion := question turn;
           transcriptAnswer := answer turn;
           transcriptFollowUpQuestion := followUpQuestion turn;
           transcriptFollowUpAnswer := followUpAnswer turn |}) (turns session) in
    feedback ← call (generateFeedback env timingSummary transcript);
    let session :=
      set_result (Some {| timingSummary := timingSummary;
                          corrections := corrections feedback;
                          improvedBestAnswer := improvedBestAnswer feedback;
                          interviewTips := interviewTips feedback |}) session in
    let session := set_status completed session in
    mret (session, result session).

Definition submitMainAnswer (env : Env) (session : InterviewSession)
    (transcript : string) (responseDelaySec : float) : M SubmitAnswerResult.t :=
  match questions session !! questionIndex session with
  | Some question =>
      if Str.nonEmpty question then
        interviewerReply ← call (generateInterviewerReply env question transcript);
        let followUpQuestion :=
          if allowFollowUps session then replyFollowUpQuestion interviewerReply
          else None in
        let session :=
          set_turns (turns session ++ [
            {| question := question;
               answer := transcript;
               followUpQuestion := followUpQuestion;
               followUpAnswer := None;
               mainResponseDelaySec := responseDelaySec;
               followUpResponseDelaySec := None |}]) session in
        if Str.truthy followUpQuestion then
          let session := set_awaitingFollowUp true session in
          let session := set_pendingFollowUpQuestion followUpQuestion session in
          _ ← InMemorySessionRepository.save session;
          mret {| SubmitAnswerResult.sessionId := id session;
                  SubmitAnswerResult.status := status session;
                  SubmitAnswerResult.usedTranscript := transcript;
                  SubmitAnswerResult.interviewerMessage := replyText interviewerReply;
                  SubmitAnswerResult.nextPrompt := followUpQuestion;
                  SubmitAnswerResult.promptType := PromptType.follow_up;
                  SubmitAnswerResult.result := None |}
        else
          let session := set_questionIndex (questionIndex session + 1) session in
          '(session, completion) ← completeIfFinished env session;
          _ ← InMemorySessionRepository.save session;
          mret {| SubmitAnswerResult.sessionId := id session;
                  SubmitAnswerResult.status := status session;
                  SubmitAnswerResult.usedTranscript := transcript;
                  SubmitAnswerResult.interviewerMessage := replyText interviewerReply;
                  SubmitAnswerResult.nextPrompt :=
                    if isCompleted (status session) then None
                    else questions session !! questionIndex session;
                  SubmitAnswerResult.promptType :=
                    if isCompleted (status session) then PromptType.completed
                    else PromptType.question;
                  SubmitAnswerResult.result := completion |}
      else throw (ValidationError "No active question found for this session.")
  | None => throw (ValidationError "No active question found for this session.")
  end.

Definition submitFollowUpAnswer (env : Env) (session : InterviewSession)
    (transcript : string) (responseDelaySec : float) : M SubmitAnswerResult.t :=
  match last (turns session) with
  | Some activeTurn =>
      match followUpQuestion activeTurn with
      | Some activeFollowUp =>
          if Str.nonEmpty activeFollowUp then
            let activeTurn :=
              {| question := question activeTurn;
                 answer := answer activeTurn;
                 followUpQuestion := followUpQuestion activeTurn;
                 followUpAnswer := Some transcript;
                 mainResponseDelaySec := mainResponseDelaySec activeTurn;
                 followUpResponseDelaySec := Some responseDelaySec |} in
            let session :=
              set_turns (<[length (turns session) - 1 := activeTurn]> (turns session))
                        session in
            closeText ← call (generateFollowUpClose env (question activeTurn)
                                (answer activeTurn) activeFollowUp transcript);
            let session := set_awaitingFollowUp false session in
            let session := set_pendingFollowUpQuestion None session in
            let session := set_questionIndex (questionIndex session + 1) session in
            '(session, completion) ← completeIfFinished env session;
            _ ← InMemorySessionRepository.save session;
            mret {| SubmitAnswerResult.sessionId := id session;
                    SubmitAnswerResult.status := status session;
                    SubmitAnswerResult.usedTranscript := transcript;
                    SubmitAnswerResult.interviewerMessage := closeText;
                    SubmitAnswerResult.nextPrompt :=
                      if isCompleted (status session) then None
                      else questions session !! questionIndex session;
                    SubmitAnswerResult.promptType :=
                      if isCompleted (status session) then PromptType.completed
                      else PromptType.question;
                    SubmitAnswerResult.result := completion |}
          else throw (ValidationError
                        "Follow-up is not available for this session state.")
      | None => throw (ValidationError
                         "Follow-up is not available for this session state.")
      end
  | None => throw (ValidationError
                     "Follow-up is not available for this session state.")
  end.

Definition execute (env : Env) (input : SubmitAnswerInput.t) : M SubmitAnswerResult.t :=
  found ← InMemorySessionRepository.findById (SubmitAnswerInput.sessionId input);
  match found with
  | None => throw (NotFoundError "Session not found.")
  | Some session =>
      if isCompleted (status session) then
        throw (ValidationError "Session is already completed.")
      else
        responseDelaySec ← lift (normalizeDelay (SubmitAnswerInput.responseDelaySec input));
        transcript ← resolveTranscript env input;
        if awaitingFollowUp session then
          submitFollowUpAnswer env session transcript responseDelaySec
        else
          submitMainAnswer env session transcript responseDelaySec
  end.

End SubmitAnswerUseCase.

(** ** Runs of the system

    A stored state changes by creating a session, whose identifier is fresh,
    or by submitting an answer; the two read-only use cases are steps as
    well. [reachable] collects the states the server goes through, starting
    from the empty map, whatever the requests and whatever the services
    answer. *)

Inductive step (st : Store) : Store → Prop :=
  | step_create uuid now input :
      st !! uuid = None →
      step st (CreateSessionUseCase.execute uuid now input st).1
  | step_submit env input :
      step st (SubmitAnswerUseCase.execute env input st).1
  | step_prompt sessionId :
      step st (GetCurrentPromptUseCase.execute sessionId st).1
  | step_result sessionId :
      step st (GetSessionResultUseCase.execute sessionId st).1.

Inductive reachable : Store → Prop :=
  | reachable_init : reachable ∅
  | reachable_step st st' : reachable st → step st st' → reachable st'.

(** ** What one accepted submission does to a session

    [transition s s' c] lists the three ways [SubmitAnswerUseCase.execute]
    rewrites an in-progress session [s] into the session [s'] it saves,
    [c] being the feedback it returns: the main answer opens a follow-up,
    the main answer moves on to the next question, or the follow-up answer
    does. [completes] is the effect of [completeIfFinished]. *)

Definition mainTurn (q t : string) (fu : option string) (d : float) : SessionTurn :=
  {| question := q; answer := t; followUpQuestion := fu; followUpAnswer := None;
     mainResponseDelaySec := d; followUpResponseDelaySec := None |}.

Definition closedTurn (turn : SessionTurn) (t : string) (d : float) : SessionTurn :=
  {| question := question turn; answer := answer turn;
     followUpQuestion := followUpQuestion turn; followUpAnswer := Some t;
     mainResponseDelaySec := mainResponseDelaySec turn;
     followUpResponseDelaySec := Some d |}.

Inductive completes (s : InterviewSession)
  : InterviewSession → option InterviewFeedback → Prop :=
  | completes_not_yet :
      questionIndex s < length (questions s) →
      completes s s None
  | completes_now fb :
      length (questions s) ≤ questionIndex s →
      timingSummary fb = computeTimingSummary (turns s) →
      completes s (set_status completed (set_result (Some fb) s)) (Some fb).

Inductive transition (s : InterviewSession)
  : InterviewSession → option InterviewFeedback → Prop :=
  | transition_ask q t d fq :
      awaitingFollowUp s = false →
      questions s !! questionIndex s = Some q →
      allowFollowUps s = true →
      Str.nonEmpty fq = true →
      transition s
        (set_pendingFollowUpQuestion (Some fq)
           (set_awaitingFollowUp true
              (set_turns (turns s ++ [mainTurn q t (Some fq) d]) s))) None
  | transition_next q t d fu s' c :
      awaitingFollowUp s = false →
      questions s !! questionIndex s = Some q →
      Str.truthy fu = false →
      (allowFollowUps s = false → fu = None) →
      completes (set_questionIndex (questionIndex s + 1)
                   (set_turns (turns s ++ [mainTurn q t fu d]) s)) s' c →
      transition s s' c
  | transition_close turn fq t d s' c :
      awaitingFollowUp s = true →
      last (turns s) = Some turn →
      followUpQuestion turn = Some fq →
      Str.nonEmpty fq = true →
      completes
        (set_questionIndex (questionIndex s + 1)
           (set_pendingFollowUpQuestion None
              (set_awaitingFollowUp false
                 (set_turns (<[length (turns s) - 1 := closedTurn turn t d]> (turns s))
                            s)))) s' c →
      transition s s' c.

(** ** The invariant of stored sessions *)

Record session_ok (s : InterviewSession) : Prop := {
  ok_in_progress : status s = in_progress → questionIndex s < length (questions s);
  ok_completed : status s = completed → questionIndex s = length (questions s);
  ok_result : status s = completed ↔ result s ≠ None;
  ok_awaiting : awaitingFollowUp s = true → status s = in_progress;
  ok_pending : awaitingFollowUp s = true ↔ pendingFollowUpQuestion s ≠ None;
  ok_prompt : awaitingFollowUp s = true → Str.truthy (pendingFollowUpQuestion s) = true;
  ok_active :
    awaitingFollowUp s = true →
    ∃ turn, last (turns s) = Some turn
            ∧ followUpQuestion turn = pendingFollowUpQuestion s;
  ok_turns :
    length (turns s) = questionIndex s + (if awaitingFollowUp s then 1 else 0)
}.

Definition store_ok (st : Store) : Prop :=
  ∀ k s, st !! k = Some s → id s = k ∧ session_ok s.

(** ** The failure taxonomy *)

(** Modelled from the spec: the kinds of failure of the specification,
    which the code does not name. It sorts the failures of the use cases
    into [NotFound], [InvalidInput] (missing or blank answer content,
    malformed audio, a bad delay) and [InvalidState] (answering a completed
    session, an impossible question or follow-up state). *)
Inductive Failure := NotFound | InvalidInput | InvalidState | ServiceFailure.

(** The messages of the [ValidationError]s thrown for the state of the
    session rather than for the request. *)
Definition invalidStateMessages : list string := [
  "Session is already completed.";
  "No active question found for this session.";
  "Follow-up is not available for this session state."
].

(** Modelled from the spec: the kind of a thrown error. Both
    [InvalidInput] and [InvalidState] are thrown as [ValidationError]; the
    message tells them apart. *)
Definition failureOf (e : error) : Failure :=
  match e with
  | NotFoundError _ => NotFound
  | ValidationError message =>
      if bool_decide (message ∈ invalidStateMessages) then InvalidState
      else InvalidInput
  | ServiceError _ => ServiceFailure
  end.

(** ** The inputs of a submission, as the specification describes them *)

(** The answer text is there and is not blank. *)
Definition textGiven (input : SubmitAnswerInput.t) : Prop :=
  ∃ text, SubmitAnswerInput.answerText input = Some text ∧ Str.trim text ≠ "".

(** An audio payload is there: [audio] is its base64 text. *)
Definition audioGiven (input : SubmitAnswerInput.t) (audio : string) : Prop :=
  SubmitAnswerInput.audioBase64 input = Some audio ∧ audio ≠ "".

(** The MIME type handed to the transcription service. *)
Definition mimeTypeOf (input : SubmitAnswerInput.t) : string :=
  match SubmitAnswerInput.mimeType input with
  | Some given => if Str.nonEmpty (Str.trim given) then Str.trim given else "audio/wav"
  | None => "audio/wav"
  end.

Definition noAnswer (input : SubmitAnswerInput.t) : Prop :=
  ¬ textGiven input ∧ ∀ audio, ¬ audioGiven input audio.

Definition emptyAudio (env : Env) (input : SubmitAnswerInput.t) : Prop :=
  ¬ textGiven input ∧ ∃ audio, audioGiven input audio ∧ base64Decode env audio = [].

Definition blankTranscription (env : Env) (input : SubmitAnswerInput.t) : Prop :=
  ¬ textGiven input
  ∧ ∃ audio transcript,
      audioGiven input audio
      ∧ base64Decode env audio ≠ []
      ∧ transcribe env (base64Decode env audio) (mimeTypeOf input) = inr transcript
      ∧ Str.trim transcript = "".

Definition badDelay (input : SubmitAnswerInput.t) : Prop :=
  ∃ value, SubmitAnswerInput.responseDelaySec input = Some value
           ∧ (Number.isFinite value = false ∨ (value <? 0)%float = true).

(** ** The timing summary, as the specification words it *)

(** Every recorded delay, in order: the main delay of each turn, then its
    follow-up delay when there is one. *)
Fixpoint recordedDelays (turns : list SessionTurn) : list float :=
  match turns with
  | [] => []
  | turn :: rest =>
      mainResponseDelaySec turn ::
        match followUpResponseDelaySec turn with
        | Some delay => delay :: recordedDelays rest
        | None => recordedDelays rest
        end
  end.



Fixpoint countLongPauses (delays : list float) : nat :=
  match delays with
  | [] => 0
  | delay :: rest => (if (4 <? delay)%float then 1 else 0) + countLongPauses rest
  end.

Definition answeredFollowUps (turns : list SessionTurn) : nat :=
  length (List.filter (λ turn, bool_decide (is_Some (followUpResponseDelaySec turn))) turns).

(** [n / 100] is the hundredth nearest to [m * 2 ^ e], the larger one when
    two are as near: [n - 1/2 <= 100 * m * 2 ^ e < n + 1/2], with every term
    scaled by [2 * 2 ^ (- e)] when [e] is negative. *)
Definition withinHalfHundredth (m : positive) (e n : Z) : Prop :=
  if (0 <=? e)%Z then n = (100 * Z.pos m * 2 ^ e)%Z
  else (- 2 ^ (- e) <= 2 * (100 * Z.pos m) - 2 * n * 2 ^ (- e) < 2 ^ (- e))%Z.

(** [x] is a finite number below [1e21], printed by [toFixed(2)] as the
    two-decimal numeral of [n / 100] with sign [sign]. *)
Definition roundsTo (x : float) (sign : bool) (n : Z) : Prop :=
  ∃ m e, Prim2SF x = S754_finite sign m e ∧ withinHalfHundredth m e n.

(** [m * 2 ^ e] is the binary64 value nearest to [n / 100]: a mantissa of
    53 bits, at most half a unit in the last place away, and even when it is
    exactly half a unit away; every term is scaled by [100 * 2 ^ 60]. *)
Definition nearestTo (n : Z) (m : positive) (e : Z) : Prop :=
  (2 ^ 52 <= Z.pos m < 2 ^ 53)%Z
  ∧ (-60 < e)%Z
  ∧ (2 * Z.abs (100 * Z.pos m * 2 ^ (e + 60) - n * 2 ^ 60) <= 100 * 2 ^ (e + 60))%Z
  ∧ ((2 * Z.abs (100 * Z.pos m * 2 ^ (e + 60) - n * 2 ^ 60) = 100 * 2 ^ (e + 60))%Z →
     Z.even (Z.pos m) = true).

(** [r] is what [Number] reads from the two-decimal numeral of [n / 100]
    with sign [sign]: the binary64 value nearest to it, a zero for [n = 0]. *)
Definition readsBack (sign : bool) (n : Z) (r : float) : Prop :=
  if (n =? 0)%Z then r = SF2Prim (S754_zero sign)
  else ∃ m e, r = SF2Prim (S754_finite sign m e) ∧ nearestTo n m e.





(** The magnitude of [q] rounded to 2 decimals is [n / 100]: the hundredth
    nearest to it, the larger one when two are as near. *)
Definition roundedTo2 (q : Q) (n : Z) : Prop :=
  (inject_Z n - (1 # 2) <= Qabs q * 100)%Q ∧ (Qabs q * 100 < inject_Z n + (1 # 2))%Q.

(** ** The question count, as the specification words it

    Three when absent; raised to one when below it, capped at the length of
    the catalog when above it. *)
Definition clampedCount (requested : option Z) : Z :=
  let wanted := default 3%Z requested in
  let available := Z.of_nat (length QUESTION_BANK) in
  if (wanted <? 1)%Z then 1%Z
  else if (available <? wanted)%Z then available
  else wanted.

(** The transcript handed to the coach for the final feedback. *)
Definition transcriptOf (turns : list SessionTurn) : list TranscriptTurn :=
  imap (λ index turn,
    {| questionNumber := index + 1;
       transcriptQuestion := question turn;
       transcriptAnswer := answer turn;
       transcriptFollowUpQuestion := followUpQuestion turn;
       transcriptFollowUpAnswer := followUpAnswer turn |}) turns.

(** What a main answer does to a session that allows no follow-ups: one
    turn more, with no follow-up question, and nothing awaited. *)
Definition recordsPlainTurn (s s' : InterviewSession) : Prop :=
  awaitingFollowUp s' = false
  ∧ pendingFollowUpQuestion s' = pendingFollowUpQuestion s
  ∧ ∃ turn, turns s' = turns s ++ [turn] ∧ followUpQuestion turn = None.

(** ** Sample services, requests and states *)

Definition emptyFeedback (timing : TimingSummary) : InterviewFeedback :=
  {| timingSummary := timing;
     corrections := [];
     improvedBestAnswer := {| improvedQuestion := ""; improvedAnswer := "" |};
     interviewTips := [] |}.

(** The services of [scripts/generate-openapi.ts]: the coach never asks a
    follow-up. The decoder is a stand-in, one byte for each character. *)
Definition stubEnv : Env :=
  {| base64Decode := list_byte_of_string;
     transcribe := λ _ _, inr "stub";
     generateInterviewerReply := λ _ _,
       inr {| replyText := "stub"; replyFollowUpQuestion := None |};
     generateFollowUpClose := λ _ _ _ _, inr "stub";
     generateFeedback := λ timing _, inr (emptyFeedback timing) |}.

(** A coach that asks a follow-up after every main answer. *)
Definition askingEnv : Env :=
  {| base64Decode := list_byte_of_string;
     transcribe := λ _ _, inr "stub";
     generateInterviewerReply := λ _ _,
       inr {| replyText := "I see."; replyFollowUpQuestion := Some "Why?" |};
     generateFollowUpClose := λ _ _ _ _, inr "Thanks for clarifying.";
     generateFeedback := λ timing _, inr (emptyFeedback timing) |}.

(** A coach whose every call fails, and a transcription of silence. *)
Definition failingEnv : Env :=
  {| base64Decode := list_byte_of_string;
     transcribe := λ _ _, inr "   ";
     generateInterviewerReply := λ _ _, inl "coach unavailable";
     generateFollowUpClose := λ _ _ _ _, inl "coach unavailable";
     generateFeedback := λ _ _, inl "coach unavailable" |}.

Definition textAnswer (sessionId text : string) (delay : option float)
  : SubmitAnswerInput.t :=
  {| SubmitAnswerInput.sessionId := sessionId;
     SubmitAnswerInput.answerText := Some text;
     SubmitAnswerInput.audioBase64 := None;
     SubmitAnswerInput.mimeType := None;
     SubmitAnswerInput.responseDelaySec := delay |}.

Definition audioAnswer (sessionId audio : string) : SubmitAnswerInput.t :=
  {| SubmitAnswerInput.sessionId := sessionId;
     SubmitAnswerInput.answerText := None;
     SubmitAnswerInput.audioBase64 := Some audio;
     SubmitAnswerInput.mimeType := None;
     SubmitAnswerInput.responseDelaySec := None |}.

Definition createInput (count : option Z) (allow : option bool) : CreateSessionInput.t :=
  {| CreateSessionInput.questionCount := count;
     CreateSessionInput.allowFollowUps := allow |}.

(** One session of one question, just created. *)
Definition createdStore : Store :=
  (CreateSessionUseCase.execute "s-1" "2024-05-01T10:00:00.000Z"
     (createInput (Some 1%Z) None) ∅).1.

Definition createdSession : InterviewSession :=
  {| id := "s-1"; createdAt := "2024-05-01T10:00:00.000Z"; status := in_progress;
     allowFollowUps := true;
     questions := ["Tell me about yourself and your current backend focus."];
     questionIndex := 0; awaitingFollowUp := false;
     pendingFollowUpQuestion := None; turns := []; result := None |}.

(** The same session after a main answer that the coach follows up on. *)
Definition askedStore : Store :=
  (SubmitAnswerUseCase.execute askingEnv
     (textAnswer "s-1" "I build payment APIs." (Some 2.5%float)) createdStore).1.

Definition askedSession : InterviewSession :=
  {| id := "s-1"; createdAt := "2024-05-01T10:00:00.000Z"; status := in_progress;
     allowFollowUps := true;
     questions := ["Tell me about yourself and your current backend focus."];
     questionIndex := 0; awaitingFollowUp := true;
     pendingFollowUpQuestion := Some "Why?";
     turns := [mainTurn "Tell me about yourself and your current backend focus."
                 "I build payment APIs." (Some "Why?") 2.5%float];
     result := None |}.

(** And after the follow-up answer, which completes it. *)
Definition completedStore : Store :=
  (SubmitAnswerUseCase.execute askingEnv
     (textAnswer "s-1" "Because I like them." (Some 5%float)) askedStore).1.

Definition completedSession : InterviewSession :=
  {| id := "s-1"; createdAt := "2024-05-01T10:00:00.000Z"; status := completed;
     allowFollowUps := true;
     questions := ["Tell me about yourself and your current backend focus."];
     questionIndex := 1; awaitingFollowUp := false;
     pendingFollowUpQuestion := None;
     turns := [closedTurn
                 (mainTurn "Tell me about yourself and your current backend focus."
                    "I build payment APIs." (Some "Why?") 2.5%float)
                 "Because I like them." 5%float];
     result := Some (emptyFeedback {| avgResponseDelaySec := 3.75%float;
                                      longPausesCount := 1;
                                      totalTurns := 2 |}) |}.

(** A session created without follow-ups. *)
Definition plainStore : Store :=
  (CreateSessionUseCase.execute "s-2" "2024-05-01T11:00:00.000Z"
     (createInput (Some 2%Z) (Some false)) ∅).1.

Definition plainSession : InterviewSession :=
  {| id := "s-2"; createdAt := "2024-05-01T11:00:00.000Z"; status := in_progress;
     allowFollowUps := false;
     questions := ["Tell me about yourself and your current backend focus.";
                   "Describe a challenging production incident you handled. What did you do?"];
     questionIndex := 0; awaitingFollowUp := false;
     pendingFollowUpQuestion := None; turns := []; result := None |}.

(** A record no run produces: the flag is up and no follow-up is pending. *)
Definition strayStore : Store :=
  <["s-1" := set_awaitingFollowUp true createdSession]> ∅.

(** The turns of the timing example: delays [2.0], then [5.0] with a
    follow-up delay of [1.0]. *)
Definition timedTurns : list SessionTurn :=
  [ mainTurn "Q1" "A1" None 2%float;
    closedTurn (mainTurn "Q2" "A2" (Some "F2") 5%float) "B2" 1%float ].




(** A text of one no-break space, U+00A0. *)
Definition nbsp : string :=
  String (ascii_of_nat 194) (String (ascii_of_nat 160) EmptyString).

(** ** An accepted submission, in full

    [accepts env s t d s' res] describes a run of [submitMainAnswer] or
    [submitFollowUpAnswer] that returns: [s] is the session read, [t] the
    transcript, [d] the delay, [s'] the session saved and [res] the value
    returned. [finishes] does the same for [completeIfFinished]. *)

Definition pushTurn (turn : SessionTurn) (s : InterviewSession) : InterviewSession :=
  set_turns (turns s ++ [turn]) s.

Definition advance (s : InterviewSession) : InterviewSession :=
  set_questionIndex (questionIndex s + 1) s.

(** The feedback stored in [session.result]: the coach's, with the timing
    summary computed here. *)
Definition storedFeedback (timing : TimingSummary) (fb : InterviewFeedback)
  : InterviewFeedback :=
  {| timingSummary := timing;
     corrections := corrections fb;
     improvedBestAnswer := improvedBestAnswer fb;
     interviewTips := interviewTips fb |}.

(** The value returned once a question is done with. *)
Definition movedOn (s' : InterviewSession) (t message : string)
    (completion : option InterviewFeedback) : SubmitAnswerResult.t :=
  {| SubmitAnswerResult.sessionId := id s';
     SubmitAnswerResult.status := status s';
     SubmitAnswerResult.usedTranscript := t;
     SubmitAnswerResult.interviewerMessage := message;
     SubmitAnswerResult.nextPrompt :=
       if isCompleted (status s') then None else questions s' !! questionIndex s';
     SubmitAnswerResult.promptType :=
       if isCompleted (status s') then PromptType.completed else PromptType.question;
     SubmitAnswerResult.result := completion |}.

Inductive finishes (env : Env) (p : InterviewSession)
  : InterviewSession → option InterviewFeedback → Prop :=
  | finishes_not_yet :
      questionIndex p < length (questions p) →
      finishes env p p None
  | finishes_now fb :
      length (questions p) ≤ questionIndex p →
      generateFeedback env (computeTimingSummary (turns p)) (transcriptOf (turns p))
      = inr fb →
      finishes env p
        (set_status completed
           (set_result (Some (storedFeedback (computeTimingSummary (turns p)) fb)) p))
        (Some (storedFeedback (computeTimingSummary (turns p)) fb)).

Inductive accepts (env : Env) (s : InterviewSession) (t : string) (d : float)
  : InterviewSession → SubmitAnswerResult.t → Prop :=
  | accepts_ask q reply fq :
      awaitingFollowUp s = false →
      questions s !! questionIndex s = Some q →
      Str.nonEmpty q = true →
      generateInterviewerReply env q t = inr reply →
      allowFollowUps s = true →
      replyFollowUpQuestion reply = Some fq →
      Str.nonEmpty fq = true →
      accepts env s t d
        (set_pendingFollowUpQuestion (Some fq)
           (set_awaitingFollowUp true (pushTurn (mainTurn q t (Some fq) d) s)))
        {| SubmitAnswerResult.sessionId := id s;
           SubmitAnswerResult.status := status s;
           SubmitAnswerResult.usedTranscript := t;
           SubmitAnswerResult.interviewerMessage := replyText reply;
           SubmitAnswerResult.nextPrompt := Some fq;
           SubmitAnswerResult.promptType := PromptType.follow_up;
           SubmitAnswerResult.result := None |}
  | accepts_next q reply fu s' c :
      awaitingFollowUp s = false →
      questions s !! questionIndex s = Some q →
      Str.nonEmpty q = true →
      generateInterviewerReply env q t = inr reply →
      fu = (if allowFollowUps s then replyFollowUpQuestion reply else None) →
      Str.truthy fu = false →
      finishes env (advance (pushTurn (mainTurn q t fu d) s)) s' c →
      accepts env s t d s' (movedOn s' t (replyText reply) c)
  | accepts_close turn fq closeText s' c :
      awaitingFollowUp s = true →
      last (turns s) = Some turn →
      followUpQuestion turn = Some fq →
      Str.nonEmpty fq = true →
      generateFollowUpClose env (question turn) (answer turn) fq t = inr closeText →
      finishes env
        (advance
           (set_pendingFollowUpQuestion None
              (set_awaitingFollowUp false
                 (set_turns (<[length (turns s) - 1 := closedTurn turn t d]> (turns s))
                            s)))) s' c →
      accepts env s t d s' (movedOn s' t closeText c).

(** ** More of what stored sessions keep *)

(** A follow-up was asked in this turn. *)
Definition askedFollowUp (turn : SessionTurn) : bool := Str.truthy (followUpQuestion turn).

(** The follow-up of this turn has its answer and its delay. *)
Definition answeredFollowUp (turn : SessionTurn) : Prop :=
  (∃ a, followUpAnswer turn = Some a ∧ a ≠ "")
  ∧ is_Some (followUpResponseDelaySec turn).

(** No follow-up answer, no follow-up delay. *)
Definition openTurn (turn : SessionTurn) : Prop :=
  followUpAnswer turn = None ∧ followUpResponseDelaySec turn = None.

Record session_kept (s : InterviewSession) : Prop := {
  kept_catalog :
    ∃ n, 1 ≤ n ≤ length QUESTION_BANK ∧ questions s = take n QUESTION_BANK;
  kept_questions :
    ∀ i turn, turns s !! i = Some turn → questions s !! i = Some (question turn);
  kept_answers :
    ∀ i turn, turns s !! i = Some turn → answer turn ≠ "";
  kept_allowed :
    allowFollowUps s = false →
    ∀ i turn, turns s !! i = Some turn → followUpQuestion turn = None;
  kept_done :
    ∀ i turn, turns s !! i = Some turn → i < questionIndex s →
      if askedFollowUp turn then answeredFollowUp turn else openTurn turn;
  kept_active :
    ∀ i turn, turns s !! i = Some turn → questionIndex s ≤ i → openTurn turn;
  kept_timing :
    status s = completed →
    ∃ fb, result s = Some fb ∧ timingSummary fb = computeTimingSummary (turns s)
}.

Definition store_kept (st : Store) : Prop :=
  ∀ k s, st !! k = Some s → session_kept s.

(** How far a session has got: two for every question done with, one for a
    main answer whose follow-up is pending. *)
Definition progress (s : InterviewSession) : nat :=
  2 * questionIndex s + (if awaitingFollowUp s then 1 else 0).

(** The coach answers every call. *)
Definition coachAnswers (env : Env) : Prop :=
  (∀ q a, ∃ reply, generateInterviewerReply env q a = inr reply)
  ∧ (∀ q a fq fa, ∃ closeText, generateFollowUpClose env q a fq fa = inr closeText)
  ∧ (∀ timing transcript, ∃ fb, generateFeedback env timing transcript = inr fb).

(** The two checks of the state of the session in [submitMainAnswer] and
    [submitFollowUpAnswer]. *)
Definition noActiveQuestion : error :=
  ValidationError "No active question found for this session.".

Definition noFollowUpAvailable : error :=
  ValidationError "Follow-up is not available for this session state.".

(** What the submission that leads from [createdStore] to [askedStore]
    returns. *)
Definition askedResponse : SubmitAnswerResult.t :=
  {| SubmitAnswerResult.sessionId := "s-1";
     SubmitAnswerResult.status := in_progress;
     SubmitAnswerResult.usedTranscript := "I build payment APIs.";
     SubmitAnswerResult.interviewerMessage := "I see.";
     SubmitAnswerResult.nextPrompt := Some "Why?";
     SubmitAnswerResult.promptType := PromptType.follow_up;
     SubmitAnswerResult.result := None |}.

Set Warnings "-register-all".
Inductive JsValue :=
  | JsUndefined
  | JsNull
  | JsBoolean (b : bool)
  | JsNumber (x : float)
  | JsString (s : string)
  | JsArray (items : list JsValue)
  | JsObject (fields : list (string * JsValue)).

Module Js.

Definition truthy (v : JsValue) : bool :=
  match v with
  | JsUndefined | JsNull => false
  | JsBoolean b => b
  | JsNumber x => negb (is_zero x || is_nan x)
  | JsString s => Str.nonEmpty s
  | JsArray _ | JsObject _ => true
  end.

Definition isObject (v : JsValue) : bool :=
  match v with
  | JsNull | JsArray _ | JsObject _ => true
  | _ => false
  end.

Fixpoint field (fields : list (string * JsValue)) (key : string) : JsValue :=
  match fields with
  | [] => JsUndefined
  | (name, v) :: rest => if String.eqb name key then v else field rest key
  end.

Definition get (v : JsValue) (key : string) : JsValue :=
  match v with
  | JsObject fields => field fields key
  | _ => JsUndefined
  end.

Definition hasOwn (fields : list (string * JsValue)) (key : string) : bool :=
  existsb (λ entry, String.eqb entry.1 key) fields.

Definition join (separator : string) (parts : list string) : string :=
  match parts with
  | [] => ""
  | first :: rest => fold_left (λ acc part, acc ++ separator ++ part)%string rest first
  end.

Fixpoint toString (numberToString : float → string) (v : JsValue) : option string :=
  match v with
  | JsUndefined => Some "undefined"
  | JsNull => Some "null"
  | JsBoolean b => Some (if b then "true" else "false")
  | JsNumber x => Some (numberToString x)
  | JsString s => Some s
  | JsArray items =>
      let fix elements (items : list JsValue) : option (list string) :=
        match items with
        | [] => Some []
        | item :: rest =>
            match (match item with
                   | JsUndefined | JsNull => Some ""
                   | _ => toString numberToString item
                   end), elements rest with
            | Some part, Some parts => Some (part :: parts)
            | _, _ => None
            end
        end in
      match elements items with
      | Some parts => Some (join "," parts)
      | None => None
      end
  | JsObject fields =>
      if hasOwn fields "toString" then None else Some "[object Object]"
  end.

End Js.

(** ** The OpenAI adapters ([infrastructure/openai]) *)

Record ChatMessage := {
  role : string;
  content : string
}.

Record ChatRequest := {
  model : string;
  response_format : option string;
  temperature : float;
  messages : list ChatMessage
}.

Record AudioFile := {
  fileData : list byte;
  fileName : string;
  fileType : string
}.

Record TranscriptionRequest := {
  transcriptionModel : string;
  file : AudioFile
}.

Record Host := {
  MODEL : string;
  STT_MODEL : string;
  numberToString : float → string;
  jsonParse : string → option JsValue;
  jsonStringify : JsValue → string;
  chatCompletionsCreate : ChatRequest → string + option string;
  audioTranscriptionsCreate : TranscriptionRequest → string + JsValue
}.

Definition newline : string := String (ascii_of_nat 10) EmptyString.

(** [String(value || '').trim()]; [None] when the conversion throws. *)
Definition trimmedText (host : Host) (value : JsValue) : option string :=
  Str.trim <$> Js.toString (numberToString host)
                 (if Js.truthy value then value else JsString "").

(** [v ?? null] for the JSON text of an optional string. *)
Definition nullable (value : option string) : JsValue :=
  match value with
  | Some s => JsString s
  | None => JsNull
  end.

(** The message of the [TypeError] that V8 throws when [property] is read
    of [null] or of [undefined]. *)
Definition nullPropertyRead (value : JsValue) (property : string) : string :=
  ("Cannot read properties of "
   ++ match value with JsUndefined => "undefined" | _ => "null" end
   ++ " (reading '" ++ property ++ "')")%string.

(** The message of the [TypeError] that V8 throws when [String] is applied
    to an object that has no usable [toString]. *)
Definition primitiveConversion : string :=
  "Cannot convert object to primitive value".

Module OpenAIInterviewCoachService.

Definition safeJson (host : Host) (text : string) : JsValue :=
  match jsonParse host text with
  | Some value => value
  | None => JsObject []
  end.

Definition normalizeCorrections (host : Host) (value : JsValue)
  : option (list CorrectionItem) :=
  match value with
  | JsArray items =>
      mapped ← mapM (λ item,
                  original ← trimmedText host (Js.get item "original");
                  corrected ← trimmedText host (Js.get item "corrected");
                  reason ← trimmedText host (Js.get item "reason");
                  Some {| original := original; corrected := corrected;
                          reason := reason |})
                (List.filter (λ item, Js.truthy item && Js.isObject item) items);
      Some (slice
              (List.filter
                 (λ item, Str.nonEmpty (original item) && Str.nonEmpty (corrected item)
                          && Str.nonEmpty (reason item)) mapped)
              0 8)
  | _ => Some []
  end.

Definition normalizeImprovedAnswer (host : Host) (value : JsValue)
  : option ImprovedBestAnswer :=
  if negb (Js.truthy value) || negb (Js.isObject value) then
    Some {| improvedQuestion := ""; improvedAnswer := "" |}
  else
    question ← trimmedText host (Js.get value "question");
    answer ← trimmedText host (Js.get value "answer");
    Some {| improvedQuestion := question; improvedAnswer := answer |}.

Definition normalizeTips (host : Host) (value : JsValue) : option (list string) :=
  match value with
  | JsArray items =>
      mapped ← mapM (trimmedText host) items;
      Some (slice (List.filter Str.nonEmpty mapped) 0 3)
  | _ => Some []
  end.

Definition replyPrompt : string :=
  Js.join newline [
    "You are a friendly big-tech interviewer.";
    "Given the question and candidate answer, return strict JSON with keys:";
    "- replyText: short spoken response (1-2 sentences)";
    "- followUpQuestion: either one concise follow-up question OR null";
    "Rules:";
    "- Ask at most one follow-up question.";
    "- Keep tone encouraging and professional.";
    "- JSON only, no markdown."
  ].

Definition generateInterviewerReply (host : Host) (question answer : string)
  : string + InterviewerReply :=
  match chatCompletionsCreate host
          {| model := MODEL host;
             response_format := Some "json_object";
             temperature := 0.5%float;
             messages := [
               {| role := "system"; content := replyPrompt |};
               {| role := "user";
                  content := jsonStringify host
                               (JsObject [("question", JsString question);
                                          ("answer", JsString answer)]) |} ] |} with
  | inl message => inl message
  | inr completion =>
      let content :=
        match completion with
        | Some text => if Str.nonEmpty text then text else "{}"
        | None => "{}"
        end in
      let parsed := safeJson host content in
      match parsed with
      | JsNull | JsUndefined => inl (nullPropertyRead parsed "replyText")
      | _ =>
          inr {| replyText :=
                   match Js.get parsed "replyText" with
                   | JsString text => text
                   | _ => "Thanks, that helps me understand your approach."
                   end;
                 replyFollowUpQuestion :=
                   match Js.get parsed "followUpQuestion" with
                   | JsString text =>
                       if Str.nonEmpty (Str.trim text) then Some (Str.trim text)
                       else None
                   | _ => None
                   end |}
      end
  end.

Definition generateFollowUpClose (host : Host)
    (question answer followUpQuestion followUpAnswer : string) : string + string :=
  match chatCompletionsCreate host
          {| model := MODEL host;
             response_format := None;
             temperature := 0.4%float;
             messages := [
               {| role := "system";
                  content := "You are a friendly interviewer. Write one short spoken acknowledgement (max 20 words). No follow-up question." |};
               {| role := "user";
                  content := jsonStringify host
                               (JsObject [("question", JsString question);
                                          ("answer", JsString answer);
                                          ("followUpQuestion", JsString followUpQuestion);
                                          ("followUpAnswer", JsString followUpAnswer)]) |} ] |} with
  | inl message => inl message
  | inr completion =>
      match completion with
      | Some text =>
          if Str.nonEmpty (Str.trim text) then inr (Str.trim text)
          else inr "Thanks for clarifying."
      | None => inr "Thanks for clarifying."
      end
  end.

(** A property name as it stands in a JSON text, between double quotes. *)
Definition quoted (name : string) : string :=
  String (ascii_of_nat 34) name ++ String (ascii_of_nat 34) EmptyString.

Definition feedbackPrompt : string :=
  Js.join newline [
    "You are an English coach for technical interviews.";
    "Return strict JSON with shape:";
    "{";
    "  " ++ quoted "timingSummary" ++ ": { " ++ quoted "avgResponseDelaySec"
      ++ ": number, " ++ quoted "longPausesCount" ++ ": number, "
      ++ quoted "totalTurns" ++ ": number },";
    "  " ++ quoted "corrections" ++ ": [";
    "    { " ++ quoted "original" ++ ": string, " ++ quoted "corrected"
      ++ ": string, " ++ quoted "reason" ++ ": string }";
    "  ],";
    "  " ++ quoted "improvedBestAnswer" ++ ": { " ++ quoted "question"
      ++ ": string, " ++ quoted "answer" ++ ": string },";
    "  " ++ quoted "interviewTips" ++ ": [string]";
    "}";
    "Rules:";
    "- Provide 5 to 8 corrections.";
    "- Provide 2 to 3 interviewTips.";
    "- improvedBestAnswer must be concise and interview-quality.";
    "- JSON only."
  ]%string.

(** The [params] of [generateFeedback], as the object that is serialised. *)
Definition feedbackParams (timing : TimingSummary) (transcript : list TranscriptTurn)
  : JsValue :=
  JsObject [
    ("timingSummary",
     JsObject [("avgResponseDelaySec", JsNumber (avgResponseDelaySec timing));
               ("longPausesCount", JsNumber (Number.ofNat (longPausesCount timing)));
               ("totalTurns", JsNumber (Number.ofNat (totalTurns timing)))]);
    ("transcript",
     JsArray (map (λ turn,
                JsObject [("questionNumber", JsNumber (Number.ofNat (questionNumber turn)));
                          ("question", JsString (transcriptQuestion turn));
                          ("answer", JsString (transcriptAnswer turn));
                          ("followUpQuestion", nullable (transcriptFollowUpQuestion turn));
                          ("followUpAnswer", nullable (transcriptFollowUpAnswer turn))])
              transcript))
  ].

Definition generateFeedback (host : Host) (timing : TimingSummary)
    (transcript : list TranscriptTurn) : string + InterviewFeedback :=
  match chatCompletionsCreate host
          {| model := MODEL host;
             response_format := Some "json_object";
             temperature := 0.4%float;
             messages := [
               {| role := "system"; content := feedbackPrompt |};
               {| role := "user";
                  content := jsonStringify host (feedbackParams timing transcript) |} ] |}
  with
  | inl message => inl message
  | inr completion =>
      let content :=
        match completion with
        | Some text => if Str.nonEmpty text then text else "{}"
        | None => "{}"
        end in
      let parsed := safeJson host content in
      match parsed with
      | JsNull | JsUndefined => inl (nullPropertyRead parsed "corrections")
      | _ =>
          match normalizeCorrections host (Js.get parsed "corrections"),
                normalizeImprovedAnswer host (Js.get parsed "improvedBestAnswer"),
                normalizeTips host (Js.get parsed "interviewTips") with
          | Some corrections, Some improved, Some tips =>
              inr {| timingSummary := timing;
                     corrections := corrections;
                     improvedBestAnswer := improved;
                     interviewTips := tips |}
          | _, _, _ => inl primitiveConversion
          end
      end
  end.

End OpenAIInterviewCoachService.

Module OpenAISpeechToTextService.

Definition extractTranscriptText (transcript : JsValue) : string :=
  if negb (Js.truthy transcript) || negb (Js.isObject transcript) then ""
  else
    let fromSegments :=
      match Js.get transcript "segments" with
      | JsArray segments =>
          let joined :=
            Str.trim
              (Js.join " "
                 (List.filter Str.nonEmpty
                    (map (λ segment,
                       if Js.truthy segment then
                         match Js.get segment "text" with
                         | JsString text => Str.trim text
                         | _ => ""
                         end
                       else "") segments))) in
          if Str.nonEmpty joined then joined else ""
      | _ => ""
      end in
    match Js.get transcript "text" with
    | JsString maybeText =>
        if Str.nonEmpty (Str.trim maybeText) then Str.trim maybeText else fromSegments
    | _ => fromSegments
    end.

Definition extensionFromMimeType (mimeType : string) : string :=
  if String.eqb mimeType "audio/wav" || String.eqb mimeType "audio/x-wav" then "wav"
  else if String.eqb mimeType "audio/mpeg" then "mp3"
  else if String.eqb mimeType "audio/webm" then "webm"
  else "wav".

Definition transcribe (host : Host) (audio : list byte) (mimeType : string)
  : string + string :=
  let file := {| fileData := audio;
                 fileName := "answer." ++ extensionFromMimeType mimeType;
                 fileType := mimeType |} in
  match audioTranscriptionsCreate host
          {| transcriptionModel := STT_MODEL host; file := file |} with
  | inl message => inl message
  | inr transcript =>
      let text := extractTranscriptText transcript in
      if negb (Str.nonEmpty text) then inl "empty transcription from STT"
      else inr text
  end.

End OpenAISpeechToTextService.

(** The services the server is started with ([src/index.ts]). *)
Definition openAIEnv (host : Host) (decode : string → list byte) : Env :=
  {| base64Decode := decode;
     transcribe := OpenAISpeechToTextService.transcribe host;
     generateInterviewerReply := OpenAIInterviewCoachService.generateInterviewerReply host;
     generateFollowUpClose := OpenAIInterviewCoachService.generateFollowUpClose host;
     generateFeedback := OpenAIInterviewCoachService.generateFeedback host |}.

(** The requests the coach adapter sends. *)
Definition replyRequest (host : Host) (question answer : string) : ChatRequest :=
  {| model := MODEL host;
     response_format := Some "json_object";
     temperature := 0.5%float;
     messages := [
       {| role := "system"; content := OpenAIInterviewCoachService.replyPrompt |};
       {| role := "user";
          content := jsonStringify host
                       (JsObject [("question", JsString question);
                                  ("answer", JsString answer)]) |} ] |}.

Definition feedbackRequest (host : Host) (timing : TimingSummary)
    (transcript : list TranscriptTurn) : ChatRequest :=
  {| model := MODEL host;
     response_format := Some "json_object";
     temperature := 0.4%float;
     messages := [
       {| role := "system"; content := OpenAIInterviewCoachService.feedbackPrompt |};
       {| role := "user";
          content := jsonStringify host
                       (OpenAIInterviewCoachService.feedbackParams timing transcript) |} ] |}.

Definition closeRequest (host : Host)
    (question answer followUpQuestion followUpAnswer : string) : ChatRequest :=
  {| model := MODEL host;
     response_format := None;
     temperature := 0.4%float;
     messages := [
       {| role := "system";
          content := "You are a friendly interviewer. Write one short spoken acknowledgement (max 20 words). No follow-up question." |};
       {| role := "user";
          content := jsonStringify host
                       (JsObject [("question", JsString question);
                                  ("answer", JsString answer);
                                  ("followUpQuestion", JsString followUpQuestion);
                                  ("followUpAnswer", JsString followUpAnswer)]) |} ] |}.

(** A text with nothing to trim that is not empty. *)
Definition clean (s : string) : Prop := s ≠ "" ∧ Str.trim s = s.

(** The reply the coach adapter falls back on. *)
Definition defaultReply : InterviewerReply :=
  {| replyText := "Thanks, that helps me understand your approach.";
     replyFollowUpQuestion := None |}.

(** A host whose model always sends [text] and whose parser reads it as
    [parsed]; a transcription comes back as [transcript]. *)
Definition sampleHost (text : string) (parsed : option JsValue) (transcript : JsValue)
  : Host :=
  {| MODEL := "gpt-4.1-mini";
     STT_MODEL := "gpt-4o-mini-transcribe";
     numberToString := λ _, "0";
     jsonParse := λ _, parsed;
     jsonStringify := λ _, "{}";
     chatCompletionsCreate := λ _, inr (Some text);
     audioTranscriptionsCreate := λ _, inr transcript |}.

(** A model answer with nine corrections, the second of them blank, and
    four tips. *)
Definition sampleCorrection (n : string) : JsValue :=
  JsObject [("original", JsString (" I has " ++ n));
            ("corrected", JsString ("I have " ++ n));
            ("reason", JsString "agreement ")].

Definition sampleFeedbackJson : JsValue :=
  JsObject [
    ("corrections",
     JsArray [sampleCorrection "1";
              JsObject [("original", JsString "  "); ("corrected", JsString "x");
                        ("reason", JsString "y")];
              sampleCorrection "2"; sampleCorrection "3"; sampleCorrection "4";
              sampleCorrection "5"; sampleCorrection "6"; sampleCorrection "7";
              sampleCorrection "8"; sampleCorrection "9"; JsNull; JsNumber 3%float]);
    ("improvedBestAnswer",
     JsObject [("question", JsString "Q"); ("answer", JsString " A ")]);
    ("interviewTips",
     JsArray [JsString "slow down "; JsNull; JsString "use STAR"; JsString "smile";
              JsString "breathe"])
  ].

(** ** Speech synthesis ([application/use-cases/synthesize-speech.ts]) *)

Module SynthesizeSpeechUseCase.

Definition execute (synthesize : string → string + list byte) (text : string)
  : error + (list byte * string) :=
  if Str.nonEmpty text && Str.nonEmpty (Str.trim text) then
    match synthesize text with
    | inr audio => inr (audio, "audio/mpeg")
    | inl message => inl (ServiceError message)
    end
  else inl (ValidationError "Text must not be empty.").

End SynthesizeSpeechUseCase.

(** ** The error handler of the HTTP server ([app.setErrorHandler])

    What the handler answers to an error thrown in a route: the status and
    the [error] field of the body. Its first test also admits [z.ZodError],
    which the parse of the route parameters throws and no use case does; the
    logging of what is answered with 500 is left out. *)

Module Http.

Record Reply := {
  statusCode : nat;
  errorBody : string
}.

Definition errorHandler (e : error) : Reply :=
  match e with
  | ValidationError message => {| statusCode := 400; errorBody := message |}
  | NotFoundError message => {| statusCode := 404; errorBody := message |}
  | ServiceError _ => {| statusCode := 500; errorBody := "Internal server error" |}
  end.

End Http.

(** * Properties *)

(** ** Running the use cases *)

Ltac unfold_M :=
  unfold mbind, M_bind, mret, M_ret, throw, call, lift,
    InMemorySessionRepository.findById, InMemorySessionRepository.save,
    InMemorySessionRepository.create, clone in *.

Section Runs.
Import SubmitAnswerUseCase.
Context (env : Env).

Lemma transcribeAudio_run input st :
  ∃ r, transcribeAudio env input st = (st, r).
Proof.
  unfold transcribeAudio. unfold_M.
  repeat case_match; simplify_eq/=; eauto.
Qed.

Lemma resolveTranscript_run input st :
  ∃ r, resolveTranscript env input st = (st, r).
Proof.
  unfold resolveTranscript. unfold_M.
  repeat case_match; eauto using transcribeAudio_run.
Qed.

Lemma completeIfFinished_run s st :
  (∃ message, completeIfFinished env s st = (st, inl (ServiceError message))) ∨
  (∃ s' c, completeIfFinished env s st = (st, inr (s', c)) ∧ completes s s' c).
Proof.
  unfold completeIfFinished. unfold_M.
  destruct (questionIndex s <? length (questions s)) eqn:Hlt.
  - right. eexists _, _. split; [done|]. constructor. by apply Nat.ltb_lt.
  - apply Nat.ltb_ge in Hlt.
    destruct (generateFeedback env _ _) as [message|fb]; [left; eauto|right].
    eexists _, _. split; [done|]. simpl.
    by apply (completes_now s {| timingSummary := computeTimingSummary (turns s) |}).
Qed.

Lemma completes_id s s' c : completes s s' c → id s' = id s.
Proof. by destruct 1. Qed.

Lemma submitMainAnswer_run s t d st :
  awaitingFollowUp s = false →
  (∃ e, submitMainAnswer env s t d st = (st, inl e)) ∨
  (∃ s' res, submitMainAnswer env s t d st = (<[id s := s']> st, inr res)
     ∧ transition s s' (SubmitAnswerResult.result res)).
Proof.
  intros Hw. unfold submitMainAnswer.
  destruct (questions s !! questionIndex s) as [q|] eqn:Hq; [|left; eauto].
  destruct (Str.nonEmpty q) eqn:Hne; [|left; eauto].
  unfold_M.
  destruct (generateInterviewerReply env q t) as [message|reply]; [left; eauto|].
  destruct (Str.truthy _) eqn:Hfu.
  - right. eexists _, _. split; [done|]. simpl.
    destruct (allowFollowUps s) eqn:Ha; [|done].
    destruct (replyFollowUpQuestion reply) as [fq|]; [|done].
    by apply transition_ask.
  - match goal with |- context [completeIfFinished env ?p st] =>
      destruct (completeIfFinished_run p st) as [[e ->]|(s' & c & -> & Hc)] end;
      [left; eauto|right].
    eexists _, _. split.
    + by rewrite (completes_id _ _ _ Hc).
    + simpl. eapply transition_next; [done..| |exact Hc].
      by intros ->.
Qed.

Lemma submitFollowUpAnswer_run s t d st :
  awaitingFollowUp s = true →
  (∃ e, submitFollowUpAnswer env s t d st = (st, inl e)) ∨
  (∃ s' res, submitFollowUpAnswer env s t d st = (<[id s := s']> st, inr res)
     ∧ transition s s' (SubmitAnswerResult.result res)).
Proof.
  intros Hw. unfold submitFollowUpAnswer.
  destruct (last (turns s)) as [turn|] eqn:Hlast; [|left; eauto].
  destruct (followUpQuestion turn) as [fq|] eqn:Hfq; [|left; eauto].
  destruct (Str.nonEmpty fq) eqn:Hne; [|left; eauto].
  unfold_M.
  destruct (generateFollowUpClose env _ _ _ _) as [message|closeText]; [left; eauto|].
  match goal with |- context [completeIfFinished env ?p st] =>
    destruct (completeIfFinished_run p st) as [[e ->]|(s' & c & -> & Hc)] end;
    [left; eauto|right].
  eexists _, _. split.
  - by rewrite (completes_id _ _ _ Hc).
  - simpl. eapply transition_close; [done..|].
    unfold closedTurn. by rewrite Hfq.
Qed.

(** A submission either throws and leaves the map as it was, or saves
    one rewritten session under the identifier of the session it read. *)
Lemma execute_run input st :
  (∃ e, execute env input st = (st, inl e)) ∨
  (∃ s s' res,
      st !! SubmitAnswerInput.sessionId input = Some s
      ∧ status s = in_progress
      ∧ execute env input st = (<[id s := s']> st, inr res)
      ∧ transition s s' (SubmitAnswerResult.result res)).
Proof.
  unfold execute. unfold_M.
  destruct (st !! SubmitAnswerInput.sessionId input) as [s|] eqn:Hs; [|left; eauto].
  destruct (status s) eqn:Hst; simpl; [|left; eauto].
  destruct (normalizeDelay _) as [e|d]; [left; eauto|].
  destruct (resolveTranscript_run input st) as [[e|t] ->]; [left; eauto|].
  destruct (awaitingFollowUp s) eqn:Hw.
  - destruct (submitFollowUpAnswer_run s t d st Hw) as [[e ->]|(s' & res & -> & Ht)];
      [left; eauto|right; eauto 10].
  - destruct (submitMainAnswer_run s t d st Hw) as [[e ->]|(s' & res & -> & Ht)];
      [left; eauto|right; eauto 10].
Qed.

End Runs.

(** ** The invariant is kept *)

Lemma transition_frame s s' c :
  transition s s' c →
  id s' = id s ∧ createdAt s' = createdAt s ∧ questions s' = questions s
  ∧ allowFollowUps s' = allowFollowUps s
  ∧ questionIndex s ≤ questionIndex s'.
Proof.
  destruct 1 as [| ? ? ? ? ? ? ? ? ? ? Hc | ? ? ? ? ? ? ? ? ? ? Hc];
    [simpl; auto with lia | inversion Hc; subst; simpl; auto with lia ..].
Qed.

Lemma session_ok_initial uuid now allow qs :
  0 < length qs →
  session_ok {| id := uuid; createdAt := now; status := in_progress;
                allowFollowUps := allow; questions := qs; questionIndex := 0;
                awaitingFollowUp := false; pendingFollowUpQuestion := None;
                turns := []; result := None |}.
Proof. intros Hqs. by split. Qed.

Lemma transition_ok s s' c :
  session_ok s → status s = in_progress → transition s s' c → session_ok s'.
Proof.
  intros [Hip Hco Hres Haw Hpe Hpr Hac Htu] Hst Ht.
  specialize (Hip Hst).
  assert (result s = None) as Hnone.
  { destruct (result s) eqn:Hr; [|done]. destruct Hres as [_ Hres].
    rewrite Hres in Hst; done. }
  destruct Ht as [q t d fq Hw Hq Ha Hfq
                 | q t d fu p c Hw Hq Hfu Ha Hc
                 | turn fq t d p c Hw Hlast Hturn Hfq Hc].
  - rewrite Hw in Htu. split; simpl; try done.
    + intros _. eexists. by rewrite last_snoc.
    + rewrite length_app. simpl. lia.
  - rewrite Hw in Htu.
    assert (pendingFollowUpQuestion s = None) as Hp.
    { destruct (pendingFollowUpQuestion s) eqn:Hp; [|done].
      destruct Hpe as [_ Hpe]. rewrite Hpe in Hw; done. }
    inversion Hc as [Hlt|fb Hge Hfb]; subst; simpl in *.
    + split; simpl; rewrite ?Hw, ?Hp, ?Hst, ?Hnone, ?length_app; simpl;
        try done; lia.
    + split; simpl; rewrite ?Hw, ?Hp, ?length_app; simpl; try done; lia.
  - rewrite Hw in Htu.
    inversion Hc as [Hlt|fb Hge Hfb]; subst; simpl in *.
    + split; simpl; rewrite ?Hst, ?Hnone, ?length_insert; simpl; try done; lia.
    + split; simpl; rewrite ?length_insert; simpl; try done; lia.
Qed.

Lemma slice_prefix {A} (l : list A) (n : Z) :
  (0 <= n <= Z.of_nat (length l))%Z → slice l 0 n = take (Z.to_nat n) l.
Proof.
  intros Hn. unfold slice.
  replace (n <? 0)%Z with false by lia.
  change (0 <? 0)%Z with false. cbv beta iota zeta.
  rewrite (Z.min_l 0), (Z.min_l n) by lia.
  by rewrite Z.sub_0_r.
Qed.

Lemma length_slice_bank (n : Z) :
  length (slice QUESTION_BANK 0 (Z.max 1 (Z.min n (Z.of_nat (length QUESTION_BANK)))))
  = Z.to_nat (Z.max 1 (Z.min n 10)).
Proof.
  change (Z.of_nat (length QUESTION_BANK)) with 10%Z.
  rewrite slice_prefix by (change (Z.of_nat (length QUESTION_BANK)) with 10%Z; lia).
  rewrite length_take. change (length QUESTION_BANK) with 10. lia.
Qed.

Lemma store_ok_insert st s :
  store_ok st → session_ok s → store_ok (<[id s := s]> st).
Proof.
  intros Hst Hs k s0. destruct (decide (k = id s)) as [->|Hne].
  - rewrite lookup_insert_eq. by intros [= <-].
  - rewrite lookup_insert_ne by done. apply Hst.
Qed.

Lemma store_ok_step st st' : store_ok st → step st st' → store_ok st'.
Proof.
  intros Hst [uuid now input Hfresh|env input|sessionId|sessionId].
  - unfold CreateSessionUseCase.execute. unfold_M. simpl.
    match goal with |- store_ok (<[_ := ?s]> _) =>
      apply (store_ok_insert st s Hst) end.
    apply session_ok_initial. rewrite length_slice_bank. lia.
  - destruct (execute_run env input st)
      as [[e ->]|(s & s' & res & Hs & Hin & -> & Ht)]; [done|]. simpl.
    destruct (Hst _ _ Hs) as [Hid Hok].
    destruct (transition_frame _ _ _ Ht) as (Hid' & _).
    rewrite <- Hid'. apply store_ok_insert; [done|].
    by eapply transition_ok.
  - unfold GetCurrentPromptUseCase.execute. unfold_M.
    by repeat case_match.
  - unfold GetSessionResultUseCase.execute. unfold_M.
    by repeat case_match.
Qed.

Lemma reachable_ok st : reachable st → store_ok st.
Proof.
  induction 1 as [|st st' _ IH Hstep]; [|by eapply store_ok_step].
  intros k s. by rewrite lookup_empty.
Qed.

(** Between two consecutive states a stored session is either untouched
    or rewritten by one accepted submission. *)
Lemma step_cases st st' k s :
  store_ok st → step st st' → st !! k = Some s →
  st' !! k = Some s
  ∨ ∃ s' c, st' !! k = Some s' ∧ status s = in_progress ∧ transition s s' c.
Proof.
  intros Hst [uuid now input Hfresh|env input|sessionId|sessionId] Hk.
  - unfold CreateSessionUseCase.execute. unfold_M. simpl.
    left. rewrite lookup_insert_ne; [done|]. by intros ->; simplify_eq.
  - destruct (execute_run env input st)
      as [[e ->]|(s0 & s' & res & Hs & Hin & -> & Ht)]; [by left|]. simpl.
    destruct (Hst _ _ Hs) as [Hid _]. rewrite Hid.
    destruct (decide (k = SubmitAnswerInput.sessionId input)) as [->|Hne].
    + rewrite lookup_insert_eq. simplify_eq. right. eauto.
    + rewrite lookup_insert_ne by done. by left.
  - unfold GetCurrentPromptUseCase.execute. unfold_M.
    left. by repeat case_match.
  - unfold GetSessionResultUseCase.execute. unfold_M.
    left. by repeat case_match.
Qed.

(** ** The sample states are states of the system *)

Lemma createdStore_reachable : reachable createdStore.
Proof.
  apply (reachable_step ∅); [apply reachable_init|].
  by apply (step_create ∅ "s-1").
Qed.

Lemma askedStore_reachable : reachable askedStore.
Proof.
  apply (reachable_step createdStore); [apply createdStore_reachable|].
  apply step_submit.
Qed.

Lemma completedStore_reachable : reachable completedStore.
Proof.
  apply (reachable_step askedStore); [apply askedStore_reachable|].
  apply step_submit.
Qed.

Lemma plainStore_reachable : reachable plainStore.
Proof.
  apply (reachable_step ∅); [apply reachable_init|].
  by apply (step_create ∅ "s-2").
Qed.

Lemma askedStore_lookup : askedStore !! "s-1" = Some askedSession.
Proof. vm_compute. reflexivity. Qed.

Lemma createdStore_lookup : createdStore !! "s-1" = Some createdSession.
Proof. vm_compute. reflexivity. Qed.

Lemma plainStore_lookup : plainStore !! "s-2" = Some plainSession.
Proof. vm_compute. reflexivity. Qed.

(** ** Turns and the question cursor *)

(** C1, as stated, fails: after a main answer that the coach follows up on,
    the saved session awaits the follow-up with one turn recorded and the
    cursor still on the first question. *)
Lemma turns_length_is_not_cursor_while_awaiting :
  reachable askedStore
  ∧ askedStore !! "s-1" = Some askedSession
  ∧ awaitingFollowUp askedSession = true
  ∧ length (turns askedSession) = 1
  ∧ questionIndex askedSession = 0
  ∧ ¬ (∀ st k s, reachable st → st !! k = Some s →
         length (turns s) = questionIndex s).
Proof.
  split; [apply askedStore_reachable|].
  split; [apply askedStore_lookup|].
  do 3 (split; [reflexivity|]).
  intros Hall.
  specialize (Hall askedStore "s-1" askedSession askedStore_reachable askedStore_lookup).
  discriminate Hall.
Qed.

(** C1, amended: in every state of the system, a stored session has as
    many turns as its cursor says, and one more while it awaits the answer
    to a follow-up. A step of the system leaves the session as it is, or
    records a main answer, which appends one turn and moves the cursor on
    unless a follow-up is asked, or records a follow-up answer, which keeps
    the turns and moves the cursor on. *)
Theorem turns_length_tracks_cursor st k s :
  reachable st → st !! k = Some s →
  length (turns s) = questionIndex s + (if awaitingFollowUp s then 1 else 0)
  ∧ ∀ st' s', step st st' → st' !! k = Some s' →
      s' = s
      ∨ (awaitingFollowUp s = false
         ∧ length (turns s') = length (turns s) + 1
         ∧ questionIndex s'
           = questionIndex s + (if awaitingFollowUp s' then 0 else 1))
      ∨ (awaitingFollowUp s = true
         ∧ awaitingFollowUp s' = false
         ∧ length (turns s') = length (turns s)
         ∧ questionIndex s' = questionIndex s + 1).
Proof.
  intros Hreach Hk. pose proof (reachable_ok st Hreach) as Hst.
  destruct (Hst k s Hk) as [_ Hok]. split; [apply Hok|].
  intros st' s' Hstep Hk'.
  destruct (step_cases st st' k s Hst Hstep Hk) as [Hsame|(s2 & c & Hk2 & _ & Ht)].
  { left. congruence. }
  assert (s2 = s') as -> by congruence. right.
  destruct Ht as [q t d fq Hw _ _ _
                 | q t d fu p c Hw _ _ _ Hc
                 | turn fq t d p c Hw _ _ _ Hc].
  - left. simpl. rewrite length_app. simpl. auto with lia.
  - left. inversion Hc; subst; simpl; rewrite Hw, length_app; simpl; auto with lia.
  - right. inversion Hc; subst; simpl; rewrite length_insert; auto.
Qed.

Lemma turns_length_tracks_cursor_witness :
  length (turns askedSession)
  = questionIndex askedSession + (if awaitingFollowUp askedSession then 1 else 0)
  ∧ (completedSession = askedSession
     ∨ (awaitingFollowUp askedSession = false
        ∧ length (turns completedSession) = length (turns askedSession) + 1
        ∧ questionIndex completedSession
          = questionIndex askedSession
            + (if awaitingFollowUp completedSession then 0 else 1))
     ∨ (awaitingFollowUp askedSession = true
        ∧ awaitingFollowUp completedSession = false
        ∧ length (turns completedSession) = length (turns askedSession)
        ∧ questionIndex completedSession = questionIndex askedSession + 1)).
Proof.
  destruct (turns_length_tracks_cursor askedStore "s-1" askedSession)
    as [Hlength Hstep].
  - apply askedStore_reachable.
  - vm_compute. reflexivity.
  - split; [exact Hlength|].
    apply (Hstep completedStore completedSession).
    + apply step_submit.
    + vm_compute. reflexivity.
Defined.

(** ** The cursor and the pending follow-up *)

(** C6: in every state of the system a stored session has its cursor
    within its questions and awaits a follow-up exactly when a follow-up
    question is pending; and no step of the system moves a cursor back. *)
Theorem cursor_bounded_monotone_and_pending_paired st :
  reachable st →
  (∀ k s, st !! k = Some s →
     questionIndex s ≤ length (questions s)
     ∧ (awaitingFollowUp s = true ↔ pendingFollowUpQuestion s ≠ None))
  ∧ (∀ st' k s, step st st' → st !! k = Some s →
       ∃ s', st' !! k = Some s' ∧ questionIndex s ≤ questionIndex s').
Proof.
  intros Hreach. pose proof (reachable_ok st Hreach) as Hst. split.
  - intros k s Hk. destruct (Hst k s Hk) as [_ Hok]. split; [|apply Hok].
    destruct (status s) eqn:Hstatus.
    + apply Nat.lt_le_incl. by apply Hok.
    + apply Nat.eq_le_incl. by apply Hok.
  - intros st' k s Hstep Hk.
    destruct (step_cases st st' k s Hst Hstep Hk) as [Hsame|(s' & c & Hk' & _ & Ht)].
    + eauto.
    + exists s'. split; [done|]. apply (transition_frame _ _ _ Ht).
Qed.

Lemma cursor_bounded_monotone_and_pending_paired_witness :
  (questionIndex askedSession ≤ length (questions askedSession)
   ∧ (awaitingFollowUp askedSession = true
      ↔ pendingFollowUpQuestion askedSession ≠ None))
  ∧ ∃ s', completedStore !! "s-1" = Some s'
          ∧ questionIndex askedSession ≤ questionIndex s'.
Proof.
  destruct (cursor_bounded_monotone_and_pending_paired askedStore askedStore_reachable)
    as [Hstate Hstep].
  split.
  - apply (Hstate "s-1"). vm_compute. reflexivity.
  - apply (Hstep completedStore "s-1").
    + apply step_submit.
    + vm_compute. reflexivity.
Defined.

(** ** Failures persist nothing *)

Section Failures.
Import SubmitAnswerUseCase.
Context (env : Env).

Lemma execute_missing input st :
  st !! SubmitAnswerInput.sessionId input = None →
  execute env input st = (st, inl (NotFoundError "Session not found.")).
Proof. intros Hs. unfold execute. unfold_M. by rewrite Hs. Qed.

Lemma execute_completed input st s :
  st !! SubmitAnswerInput.sessionId input = Some s → status s = completed →
  execute env input st = (st, inl (ValidationError "Session is already completed.")).
Proof. intros Hs Hst. unfold execute. unfold_M. by rewrite Hs, Hst. Qed.

Lemma reply_failure s t d q message st :
  questions s !! questionIndex s = Some q → Str.nonEmpty q = true →
  generateInterviewerReply env q t = inl message →
  submitMainAnswer env s t d st = (st, inl (ServiceError message)).
Proof.
  intros Hq Hne Hreply. unfold submitMainAnswer. unfold_M.
  by rewrite Hq, Hne, Hreply.
Qed.

Lemma close_failure s t d turn fq message st :
  last (turns s) = Some turn → followUpQuestion turn = Some fq →
  Str.nonEmpty fq = true →
  generateFollowUpClose env (question turn) (answer turn) fq t = inl message →
  submitFollowUpAnswer env s t d st = (st, inl (ServiceError message)).
Proof.
  intros Hlast Hfq Hne Hclose. unfold submitFollowUpAnswer. unfold_M.
  rewrite Hlast, Hfq, Hne. simpl. by rewrite Hclose.
Qed.

Lemma feedback_failure s message st :
  length (questions s) ≤ questionIndex s →
  generateFeedback env (computeTimingSummary (turns s)) (transcriptOf (turns s))
    = inl message →
  completeIfFinished env s st = (st, inl (ServiceError message)).
Proof.
  intros Hge Hfeedback. unfold completeIfFinished. unfold_M.
  apply Nat.ltb_ge in Hge. rewrite Hge.
  unfold transcriptOf in Hfeedback. by rewrite Hfeedback.
Qed.

End Failures.

(** C2: a submission that throws leaves the map as it was; when what it
    throws is the error of an external service, the session it read is
    still stored, in progress; a submission that returns has replaced that
    one session by its successor; and a failing call of the coach, be it
    for the reply, for the close of a follow-up or for the feedback, makes
    the step that issues it throw with the map untouched. *)
Theorem failed_submission_persists_nothing env input st :
  let out := SubmitAnswerUseCase.execute env input st in
  let sid := SubmitAnswerInput.sessionId input in
  (∀ e, out.2 = inl e → out.1 = st)
  ∧ (∀ message, out.2 = inl (ServiceError message) →
       ∃ s, st !! sid = Some s ∧ out.1 !! sid = Some s ∧ status s = in_progress)
  ∧ (∀ res, out.2 = inr res →
       ∃ s s', st !! sid = Some s ∧ out.1 = <[id s := s']> st
               ∧ transition s s' (SubmitAnswerResult.result res))
  ∧ (∀ s t d q message,
       questions s !! questionIndex s = Some q → Str.nonEmpty q = true →
       generateInterviewerReply env q t = inl message →
       SubmitAnswerUseCase.submitMainAnswer env s t d st
       = (st, inl (ServiceError message)))
  ∧ (∀ s t d turn fq message,
       last (turns s) = Some turn → followUpQuestion turn = Some fq →
       Str.nonEmpty fq = true →
       generateFollowUpClose env (question turn) (answer turn) fq t = inl message →
       SubmitAnswerUseCase.submitFollowUpAnswer env s t d st
       = (st, inl (ServiceError message)))
  ∧ (∀ s message,
       length (questions s) ≤ questionIndex s →
       generateFeedback env (computeTimingSummary (turns s)) (transcriptOf (turns s))
       = inl message →
       SubmitAnswerUseCase.completeIfFinished env s st
       = (st, inl (ServiceError message))).
Proof.
  intros out sid. subst out sid.
  split; [|split; [|split; [|split; [|split]]]].
  - intros e He.
    destruct (execute_run env input st)
      as [[e' Hrun]|(s & s' & res & _ & _ & Hrun & _)]; rewrite Hrun in *; [done|].
    discriminate He.
  - intros message He.
    destruct (st !! SubmitAnswerInput.sessionId input) as [s|] eqn:Hs.
    + destruct (status s) eqn:Hstatus.
      * exists s.
        destruct (execute_run env input st)
          as [[e' Hrun]|(s0 & s' & res & _ & _ & Hrun & _)]; rewrite Hrun in *;
          [done|discriminate He].
      * rewrite (execute_completed env input st s Hs Hstatus) in He. discriminate He.
    + rewrite (execute_missing env input st Hs) in He. discriminate He.
  - intros res Hres.
    destruct (execute_run env input st)
      as [[e' Hrun]|(s & s' & res' & Hs & _ & Hrun & Ht)]; rewrite Hrun in *;
      [discriminate Hres|].
    simpl in Hres. injection Hres as ->. eauto.
  - intros. by eapply reply_failure.
  - intros. by eapply close_failure.
  - intros. by eapply feedback_failure.
Qed.

Lemma failed_submission_persists_nothing_witness :
  (SubmitAnswerUseCase.execute failingEnv
     (textAnswer "s-1" "I build payment APIs." None) createdStore).1 = createdStore
  ∧ ∃ s, createdStore !! "s-1" = Some s ∧ status s = in_progress.
Proof.
  destruct (failed_submission_persists_nothing failingEnv
              (textAnswer "s-1" "I build payment APIs." None) createdStore)
    as (Hkeep & Hservice & _).
  split.
  - apply (Hkeep (ServiceError "coach unavailable")). vm_compute. reflexivity.
  - destruct (Hservice "coach unavailable") as (s & Hs & _ & Hstatus).
    + vm_compute. reflexivity.
    + exists s. by split.
Defined.

(** ** Follow-ups that are not allowed *)

Lemma transition_plain s s' c :
  allowFollowUps s = false → awaitingFollowUp s = false →
  transition s s' c → recordsPlainTurn s s'.
Proof.
  intros Hallow Hw [q t d fq _ _ Ha _
                   | q t d fu p c' _ _ _ Hfu Hc
                   | turn fq t d p c' Hw' _ _ _ _]; [congruence| |congruence].
  rewrite (Hfu Hallow) in Hc.
  inversion Hc; subst; (split; [done|split; [done|]]); simpl; eauto.
Qed.

(** C4: on a session that allows no follow-ups, a main answer that is
    accepted saves the session with the flag down and with one more turn,
    whose follow-up question is null, whatever the coach replied; one that
    is not accepted saves nothing. *)
Theorem no_follow_up_when_disallowed env input st s :
  st !! SubmitAnswerInput.sessionId input = Some s →
  allowFollowUps s = false →
  awaitingFollowUp s = false →
  let out := SubmitAnswerUseCase.execute env input st in
  (out.1 = st ∧ ∃ e, out.2 = inl e)
  ∨ (∃ s' res, out.1 = <[id s := s']> st ∧ out.2 = inr res
               ∧ recordsPlainTurn s s').
Proof.
  intros Hs Hallow Hw out. subst out.
  destruct (execute_run env input st)
    as [[e ->]|(s0 & s' & res & Hs0 & _ & -> & Ht)]; [left; eauto|right].
  assert (s0 = s) as -> by congruence.
  exists s', res. split; [done|]. split; [done|].
  by eapply transition_plain.
Qed.

Lemma no_follow_up_when_disallowed_witness :
  let out := SubmitAnswerUseCase.execute askingEnv
               (textAnswer "s-2" "I build payment APIs." None) plainStore in
  ∃ s' res, out.1 = <[id plainSession := s']> plainStore ∧ out.2 = inr res
            ∧ recordsPlainTurn plainSession s'.
Proof.
  destruct (no_follow_up_when_disallowed askingEnv
              (textAnswer "s-2" "I build payment APIs." None) plainStore plainSession)
    as [[_ [e Hthrown]]|Hsaved].
  - vm_compute. reflexivity.
  - reflexivity.
  - reflexivity.
  - vm_compute in Hthrown. discriminate Hthrown.
  - exact Hsaved.
Defined.

(** ** Creating a session *)

Lemma clampedCount_max_min (requested : option Z) :
  Z.max 1 (Z.min (default 3%Z requested) (Z.of_nat (length QUESTION_BANK)))
  = clampedCount requested.
Proof.
  unfold clampedCount. change (Z.of_nat (length QUESTION_BANK)) with 10%Z.
  repeat case_match; lia.
Qed.

Lemma clampedCount_range (requested : option Z) :
  (1 <= clampedCount requested <= Z.of_nat (length QUESTION_BANK))%Z.
Proof.
  unfold clampedCount. change (Z.of_nat (length QUESTION_BANK)) with 10%Z.
  repeat case_match; lia.
Qed.

(** C8: the question count is 3 when absent, 1 when below 1, the length of
    the catalog (10) when above it and the requested count otherwise; the
    use case returns, and stores under its identifier, a session in
    progress with the cursor at 0, nothing awaited, no turns and no result,
    whose questions are the first that many of the catalog. *)
Theorem create_clamps_and_initializes uuid now input st :
  let out := CreateSessionUseCase.execute uuid now input st in
  let requested := CreateSessionInput.questionCount input in
  let n := clampedCount requested in
  ((1 <= n <= 10)%Z
   ∧ (requested = None → n = 3%Z)
   ∧ (∀ q, requested = Some q → (q < 1)%Z → n = 1%Z)
   ∧ (∀ q, requested = Some q → (10 < q)%Z → n = 10%Z)
   ∧ (∀ q, requested = Some q → (1 <= q <= 10)%Z → n = q))
  ∧ ∃ s, out.2 = inr s
         ∧ out.1 = <[uuid := s]> st
         ∧ id s = uuid
         ∧ status s = in_progress
         ∧ allowFollowUps s = default true (CreateSessionInput.allowFollowUps input)
         ∧ questionIndex s = 0
         ∧ awaitingFollowUp s = false
         ∧ pendingFollowUpQuestion s = None
         ∧ turns s = []
         ∧ result s = None
         ∧ questions s = take (Z.to_nat n) QUESTION_BANK
         ∧ length (questions s) = Z.to_nat n
         ∧ (requested = Some 50%Z → length (questions s) = 10).
Proof.
  intros out requested n. subst out requested n. split.
  - pose proof (clampedCount_range (CreateSessionInput.questionCount input)) as Hrange.
    change (Z.of_nat (length QUESTION_BANK)) with 10%Z in Hrange.
    split; [done|]. unfold clampedCount.
    change (Z.of_nat (length QUESTION_BANK)) with 10%Z.
    split; [by intros ->|].
    repeat split; intros q -> Hq; simpl; repeat case_match; lia.
  - unfold CreateSessionUseCase.execute. unfold_M. simpl.
    eexists. split; [reflexivity|]. simpl.
    rewrite clampedCount_max_min.
    pose proof (clampedCount_range (CreateSessionInput.questionCount input)) as Hrange.
    rewrite slice_prefix by lia.
    do 10 (split; [reflexivity|]).
    assert (length (take (Z.to_nat (clampedCount (CreateSessionInput.questionCount input)))
                      QUESTION_BANK)
            = Z.to_nat (clampedCount (CreateSessionInput.questionCount input))) as Hlen.
    { rewrite length_take. lia. }
    split; [done|]. intros Hfifty. rewrite Hlen, Hfifty. reflexivity.
Qed.

Lemma create_clamps_and_initializes_witness :
  clampedCount (Some 50%Z) = 10%Z
  ∧ ∃ s, (CreateSessionUseCase.execute "s-3" "2024-05-01T12:00:00.000Z"
            (createInput (Some 50%Z) None) ∅).2 = inr s
         ∧ length (questions s) = 10.
Proof.
  destruct (create_clamps_and_initializes "s-3" "2024-05-01T12:00:00.000Z"
              (createInput (Some 50%Z) None) ∅)
    as ((_ & _ & _ & Hcap & _) & s & Hs & Hrest).
  split.
  - apply (Hcap 50%Z); [reflexivity|lia].
  - exists s. split; [exact Hs|].
    apply Hrest. reflexivity.
Defined.

(** ** The current prompt *)

(** C9: the prompt use case leaves the map as it is; it throws
    [NotFoundError] when the session is missing; in a state of the system
    it answers with no prompt and the number of questions for a completed
    session, with the pending follow-up and the cursor plus one for a
    session that awaits a follow-up, and otherwise with the question under
    the cursor and the cursor plus one. *)
Theorem current_prompt_by_phase st sessionId :
  reachable st →
  let out := GetCurrentPromptUseCase.execute sessionId st in
  out.1 = st
  ∧ (st !! sessionId = None → out.2 = inl (NotFoundError "Session not found."))
  ∧ (∀ s, st !! sessionId = Some s →
       (status s = completed →
        out.2 = inr {| CurrentPromptResult.sessionId := id s;
                       CurrentPromptResult.status := completed;
                       CurrentPromptResult.prompt := None;
                       CurrentPromptResult.promptType := PromptType.completed;
                       CurrentPromptResult.questionNumber := length (questions s);
                       CurrentPromptResult.totalQuestions := length (questions s) |})
       ∧ (status s = in_progress → awaitingFollowUp s = true →
          out.2 = inr {| CurrentPromptResult.sessionId := id s;
                         CurrentPromptResult.status := in_progress;
                         CurrentPromptResult.prompt := pendingFollowUpQuestion s;
                         CurrentPromptResult.promptType := PromptType.follow_up;
                         CurrentPromptResult.questionNumber := questionIndex s + 1;
                         CurrentPromptResult.totalQuestions := length (questions s) |})
       ∧ (status s = in_progress → awaitingFollowUp s = false →
          out.2 = inr {| CurrentPromptResult.sessionId := id s;
                         CurrentPromptResult.status := in_progress;
                         CurrentPromptResult.prompt := questions s !! questionIndex s;
                         CurrentPromptResult.promptType := PromptType.question;
                         CurrentPromptResult.questionNumber := questionIndex s + 1;
                         CurrentPromptResult.totalQuestions := length (questions s) |})).
Proof.
  intros Hreach out. subst out.
  unfold GetCurrentPromptUseCase.execute. unfold_M.
  split; [by repeat case_match|].
  split; [by intros ->|].
  intros s Hs. rewrite Hs.
  destruct (reachable_ok st Hreach sessionId s Hs) as [_ Hok].
  split; [|split].
  - by intros ->.
  - intros Hstatus Hw. rewrite Hstatus, Hw. simpl.
    by rewrite (ok_prompt s Hok Hw).
  - intros Hstatus Hw. by rewrite Hstatus, Hw.
Qed.

Lemma current_prompt_by_phase_witness :
  (GetCurrentPromptUseCase.execute "s-1" askedStore).1 = askedStore
  ∧ (GetCurrentPromptUseCase.execute "s-1" askedStore).2
    = inr {| CurrentPromptResult.sessionId := "s-1";
             CurrentPromptResult.status := in_progress;
             CurrentPromptResult.prompt := Some "Why?";
             CurrentPromptResult.promptType := PromptType.follow_up;
             CurrentPromptResult.questionNumber := 1;
             CurrentPromptResult.totalQuestions := 1 |}.
Proof.
  destruct (current_prompt_by_phase askedStore "s-1" askedStore_reachable)
    as (Hsame & _ & Hfound).
  split; [exact Hsame|].
  destruct (Hfound askedSession) as (_ & Hfollow & _).
  - vm_compute. reflexivity.
  - apply Hfollow; reflexivity.
Defined.

(** C10: the prompt use case answers with a follow-up only for a session
    whose flag is up and whose pending question is there, and then with
    that question; for a session in progress whose flag is up while no
    follow-up is pending, it answers with the question under the cursor. *)
Theorem follow_up_prompt_needs_pending_question st sessionId s :
  st !! sessionId = Some s →
  let out := GetCurrentPromptUseCase.execute sessionId st in
  (∀ view, out.2 = inr view →
     CurrentPromptResult.promptType view = PromptType.follow_up →
     awaitingFollowUp s = true
     ∧ pendingFollowUpQuestion s ≠ None
     ∧ CurrentPromptResult.prompt view = pendingFollowUpQuestion s)
  ∧ (status s = in_progress → awaitingFollowUp s = true →
     pendingFollowUpQuestion s = None →
     out.2 = inr {| CurrentPromptResult.sessionId := id s;
                    CurrentPromptResult.status := in_progress;
                    CurrentPromptResult.prompt := questions s !! questionIndex s;
                    CurrentPromptResult.promptType := PromptType.question;
                    CurrentPromptResult.questionNumber := questionIndex s + 1;
                    CurrentPromptResult.totalQuestions := length (questions s) |}).
Proof.
  intros Hs out. subst out.
  unfold GetCurrentPromptUseCase.execute. unfold_M. rewrite Hs. split.
  - intros view. destruct (isCompleted (status s)); simpl.
    { by intros [= <-]. }
    destruct (awaitingFollowUp s); simpl.
    + destruct (pendingFollowUpQuestion s) as [fq|] eqn:Hp; simpl.
      * destruct (Str.nonEmpty fq); by intros [= <-].
      * by intros [= <-].
    + by intros [= <-].
  - intros Hstatus Hw Hp. by rewrite Hstatus, Hw, Hp.
Qed.

Lemma follow_up_prompt_needs_pending_question_witness :
  (GetCurrentPromptUseCase.execute "s-1" strayStore).2
  = inr {| CurrentPromptResult.sessionId := "s-1";
           CurrentPromptResult.status := in_progress;
           CurrentPromptResult.prompt :=
             Some "Tell me about yourself and your current backend focus.";
           CurrentPromptResult.promptType := PromptType.question;
           CurrentPromptResult.questionNumber := 1;
           CurrentPromptResult.totalQuestions := 1 |}.
Proof.
  destruct (follow_up_prompt_needs_pending_question strayStore "s-1"
              (set_awaitingFollowUp true createdSession)) as [_ Hstray].
  - vm_compute. reflexivity.
  - apply Hstray; reflexivity.
Defined.

(** ** Numbers and the timing summary *)

Section Rounding.
Local Open Scope Z_scope.


Lemma binade_spec n :
  1 <= n →
  let e := Number.binade n in
  -60 < e ∧ 2 ^ 52 <= n * 2 ^ 60 / (100 * 2 ^ (e + 60)) < 2 ^ 53.
Proof.
  intros Hn. cbv zeta. unfold Number.binade.
  destruct (Z.log2_spec n) as [Hlow Hhigh]; [lia|].
  pose proof (Z.log2_nonneg n) as Hlog.
  set (L := Z.log2 n) in *.
  assert (0 < 2 ^ L) as Hpos by (apply Z.pow_pos_nonneg; lia).
  replace (L - 59 + 60) with (Z.succ L) by lia.
  replace (L - 59 + 1 + 60) with (Z.succ (Z.succ L)) by lia.
  rewrite !Z.pow_succ_r in * by lia.
  set (P := 2 ^ L) in *.
  assert (2 ^ 52 <= n * 2 ^ 60 / (100 * (2 * P))) as Hq1.
  { apply Z.div_le_lower_bound; lia. }
  assert (n * 2 ^ 60 / (100 * (2 * P)) < 2 ^ 54) as Hq2.
  { apply Z.div_lt_upper_bound; lia. }
  destruct (n * 2 ^ 60 / (100 * (2 * P)) <? 2 ^ 53) eqn:Hcmp.
  - apply Z.ltb_lt in Hcmp. replace (L - 59 + 60) with (Z.succ L) by lia.
    rewrite Z.pow_succ_r by lia. fold P. lia.
  - apply Z.ltb_ge in Hcmp. replace (L - 59 + 1 + 60) with (Z.succ (Z.succ L)) by lia.
    rewrite !Z.pow_succ_r by lia. fold P.
    replace (100 * (2 * (2 * P))) with (100 * (2 * P) * 2) by lia.
    rewrite <- Z.div_div by lia.
    split; [lia|]. split.
    + apply Z.div_le_lower_bound; lia.
    + apply Z.div_lt_upper_bound; lia.
Qed.

Lemma nearestBinary64_spec n :
  1 <= n →
  ∃ m e, Number.nearestBinary64 n = (Z.pos m, e) ∧ nearestTo n m e.
Proof.
  intros Hn. destruct (binade_spec n Hn) as [He [Hlow Hhigh]].
  unfold Number.nearestBinary64. cbv zeta.
  set (e := Number.binade n) in *.
  assert (0 < 2 ^ (e + 60)) as Hpow by (apply Z.pow_pos_nonneg; lia).
  set (d := 100 * 2 ^ (e + 60)) in *.
  assert (0 < d) as Hd by lia.
  pose proof (Z.div_mod (n * 2 ^ 60) d ltac:(lia)) as Hdiv.
  pose proof (Z.mod_pos_bound (n * 2 ^ 60) d Hd) as Hmod.
  set (q := n * 2 ^ 60 / d) in *. set (r := (n * 2 ^ 60) mod d) in *.
  assert (∀ m, 2 ^ 52 <= m < 2 ^ 53 → ∃ p, m = Z.pos p ∧ 2 ^ 52 <= Z.pos p < 2 ^ 53)
    as Hpositive.
  { intros m Hm. destruct m as [|p|p]; try lia. by exists p. }
  assert (100 * q * 2 ^ (e + 60) - n * 2 ^ 60 = - r) as Hdown by (subst d; lia).
  assert (100 * (q + 1) * 2 ^ (e + 60) - n * 2 ^ 60 = d - r) as Hup by (subst d; lia).
  assert (2 ^ (e + 1 + 60) = 2 * 2 ^ (e + 60)) as Hnext.
  { replace (e + 1 + 60) with (Z.succ (e + 60)) by lia. apply Z.pow_succ_r. lia. }
  assert (Z.even (q + 1) = negb (Z.even q)) as Heven.
  { by rewrite Z.add_1_r, Z.even_succ, <- Z.negb_even. }
  (* rounding down *)
  assert (2 * r <= d → (2 * r = d → Z.even q = true) →
          ∃ m e', (if q =? 2 ^ 53 then (2 ^ 52, e + 1) else (q, e)) = (Z.pos m, e')
                  ∧ nearestTo n m e') as Hround_down.
  { intros Hr Htie. assert ((q =? 2 ^ 53) = false) as -> by (apply Z.eqb_neq; lia).
    destruct (Hpositive q ltac:(lia)) as (p & Hp & Hbounds).
    exists p, e. split; [by rewrite Hp|]. unfold nearestTo. rewrite <- Hp.
    split; [done|]. split; [done|]. fold d. rewrite Hdown. split; [lia|].
    intros Heq. apply Htie. lia. }
  (* rounding up *)
  assert (d <= 2 * r → (2 * r = d → Z.even q = false) →
          ∃ m e', (if q + 1 =? 2 ^ 53 then (2 ^ 52, e + 1) else (q + 1, e))
                  = (Z.pos m, e')
                  ∧ nearestTo n m e') as Hround_up.
  { intros Hr Htie. destruct (q + 1 =? 2 ^ 53) eqn:Hcarry.
    - apply Z.eqb_eq in Hcarry.
      exists (2 ^ 52)%positive, (e + 1). split; [done|]. unfold nearestTo.
      split; [done|]. split; [lia|]. rewrite Hnext.
      replace (100 * Z.pos (2 ^ 52) * (2 * 2 ^ (e + 60)) - n * 2 ^ 60)
        with (100 * (q + 1) * 2 ^ (e + 60) - n * 2 ^ 60).
      2:{ rewrite Hcarry. change (Z.pos (2 ^ 52)) with (2 ^ 52). lia. }
      rewrite Hup. fold d. split; [lia|]. intros _. reflexivity.
    - apply Z.eqb_neq in Hcarry.
      destruct (Hpositive (q + 1) ltac:(lia)) as (p & Hp & Hbounds).
      exists p, e. split; [by rewrite Hp|]. unfold nearestTo. rewrite <- Hp.
      split; [lia|]. split; [done|]. fold d. rewrite Hup. split; [lia|].
      intros Heq. rewrite Heven, Htie; [done|lia]. }
  destruct (2 * r <? d) eqn:Hlt.
  - apply Z.ltb_lt in Hlt. apply Hround_down; lia.
  - apply Z.ltb_ge in Hlt. destruct (d <? 2 * r) eqn:Hgt.
    + apply Z.ltb_lt in Hgt. apply Hround_up; lia.
    + apply Z.ltb_ge in Hgt. destruct (Z.even q) eqn:Hq.
      * apply Hround_down; [lia|done].
      * apply Hround_up; [lia|done].
Qed.

Lemma nearestHundredths_within (m : positive) (e : Z) :
  withinHalfHundredth m e (Number.nearestHundredths m e).
Proof.
  unfold withinHalfHundredth, Number.nearestHundredths.
  destruct (0 <=? e) eqn:He; [done|].
  assert (0 < 2 ^ (- e)) as Hd by (apply Z.pow_pos_nonneg; lia).
  set (d := 2 ^ (- e)) in *.
  set (a := 2 * (100 * Z.pos m) + d).
  pose proof (Z.div_mod a (2 * d)) as Hdiv.
  pose proof (Z.mod_pos_bound a (2 * d)) as Hmod.
  assert (2 * (a / (2 * d)) * d = 2 * d * (a / (2 * d))) as -> by lia.
  subst a. lia.
Qed.

Lemma nearestHundredths_nonneg (m : positive) (e : Z) :
  0 <= Number.nearestHundredths m e.
Proof.
  unfold Number.nearestHundredths. destruct (0 <=? e) eqn:He.
  - apply Z.leb_le in He.
    assert (0 < 2 ^ e) by (apply Z.pow_pos_nonneg; lia). lia.
  - assert (0 < 2 ^ (- e)) by (apply Z.pow_pos_nonneg; lia).
    apply Z.div_pos; lia.
Qed.

Lemma ofHundredths_readsBack sign n :
  0 <= n → readsBack sign n (Number.ofHundredths sign n).
Proof.
  intros Hn. unfold readsBack, Number.ofHundredths.
  destruct (n =? 0) eqn:Hzero.
  - apply Z.eqb_eq in Hzero. subst n. reflexivity.
  - apply Z.eqb_neq in Hzero.
    destruct (nearestBinary64_spec n ltac:(lia)) as (m & e & -> & Hnear).
    assert ((0 <? n) = true) as -> by (apply Z.ltb_lt; lia).
    by exists m, e.
Qed.

End Rounding.

Lemma toFixed2_rounds x sign m e :
  Prim2SF x = S754_finite sign m e → (1e21 <=? abs x)%float = false →
  roundsTo x sign (Number.nearestHundredths m e)
  ∧ readsBack sign (Number.nearestHundredths m e) (Number.toFixed2 x).
Proof.
  intros Hx Hsmall. unfold Number.toFixed2. rewrite Hx, Hsmall. split.
  - exists m, e. split; [done|]. apply nearestHundredths_within.
  - apply ofHundredths_readsBack, nearestHundredths_nonneg.
Qed.


Lemma roundedTo2_unique q n n' : roundedTo2 q n → roundedTo2 q n' → n = n'.
Proof.
  unfold roundedTo2. intros [Hlow Hhigh] [Hlow' Hhigh'].
  assert (inject_Z n - (1 # 2) < inject_Z n' + (1 # 2))%Q as H1
    by (eapply Qle_lt_trans; eassumption).
  assert (inject_Z n' - (1 # 2) < inject_Z n + (1 # 2))%Q as H2
    by (eapply Qle_lt_trans; eassumption).
  revert H1 H2. unfold Qlt, Qplus, Qminus, Qopp, inject_Z. simpl. lia.
Qed.



Lemma recordedDelays_flat_map turns :
  flat_map (λ turn,
      let items := [mainResponseDelaySec turn] in
      match followUpResponseDelaySec turn with
      | Some delay => items ++ [delay]
      | None => items
      end) turns
  = recordedDelays turns.
Proof.
  induction turns as [|turn rest IH]; [done|]. simpl. rewrite <- IH.
  by destruct (followUpResponseDelaySec turn).
Qed.


Lemma countLongPauses_filter delays :
  length (List.filter (λ delay, (4 <? delay)%float) delays) = countLongPauses delays.
Proof.
  induction delays as [|delay rest IH]; [done|]. simpl.
  destruct (4 <? delay)%float; simpl; by rewrite IH.
Qed.

Lemma length_recordedDelays turns :
  length (recordedDelays turns) = length turns + answeredFollowUps turns.
Proof.
  unfold answeredFollowUps.
  induction turns as [|turn rest IH]; [done|]. simpl.
  destruct (followUpResponseDelaySec turn) as [delay|]; simpl; rewrite IH; lia.
Qed.




(** ** Rejected submissions *)

Lemma nonEmpty_true s : Str.nonEmpty s = true ↔ s ≠ "".
Proof. by destruct s. Qed.

Lemma nonEmpty_false s : Str.nonEmpty s = false ↔ s = "".
Proof. by destruct s. Qed.

Lemma length_zero_nil {A} (l : list A) : (length l =? 0) = true ↔ l = [].
Proof. by destruct l. Qed.

Section Transcript.
Import SubmitAnswerUseCase.
Context (env : Env).

Lemma textGiven_resolves input text st :
  SubmitAnswerInput.answerText input = Some text → Str.trim text ≠ "" →
  resolveTranscript env input st = (st, inr (Str.trim text)).
Proof.
  intros Htext Htrim. unfold resolveTranscript. rewrite Htext.
  apply nonEmpty_true in Htrim. rewrite Htrim.
  destruct text; [done|]. done.
Qed.

Lemma not_textGiven_resolves input st :
  ¬ textGiven input →
  resolveTranscript env input st = transcribeAudio env input st.
Proof.
  intros Hno. unfold resolveTranscript.
  destruct (SubmitAnswerInput.answerText input) as [text|] eqn:Htext; [|done].
  destruct (Str.nonEmpty (Str.trim text)) eqn:Htrim.
  - destruct Hno. exists text. split; [done|]. by apply nonEmpty_true.
  - by rewrite andb_false_r.
Qed.

Lemma textGiven_dec input : textGiven input ∨ ¬ textGiven input.
Proof.
  unfold textGiven.
  destruct (SubmitAnswerInput.answerText input) as [text|]; [|right; by intros (t & [=] & _)].
  destruct (Str.nonEmpty (Str.trim text)) eqn:Htrim.
  - left. exists text. split; [done|]. by apply nonEmpty_true.
  - right. intros (t & [= <-] & Hne). by apply nonEmpty_true in Hne; congruence.
Qed.

(** The outcomes of [transcribeAudio], by what the request carries. *)
Lemma transcribeAudio_cases input st :
  ((∀ audio, ¬ audioGiven input audio)
   ∧ transcribeAudio env input st
     = (st, inl (ValidationError "Provide either answerText or audioBase64.")))
  ∨ (∃ audio, audioGiven input audio ∧ base64Decode env audio = []
       ∧ transcribeAudio env input st
         = (st, inl (ValidationError "Decoded audio payload is empty.")))
  ∨ (∃ audio message, audioGiven input audio ∧ base64Decode env audio ≠ []
       ∧ transcribe env (base64Decode env audio) (mimeTypeOf input) = inl message
       ∧ transcribeAudio env input st = (st, inl (ServiceError message)))
  ∨ (∃ audio transcript, audioGiven input audio ∧ base64Decode env audio ≠ []
       ∧ transcribe env (base64Decode env audio) (mimeTypeOf input) = inr transcript
       ∧ Str.trim transcript = ""
       ∧ transcribeAudio env input st
         = (st, inl (ValidationError "Transcription returned empty text.")))
  ∨ (∃ audio transcript, audioGiven input audio ∧ base64Decode env audio ≠ []
       ∧ transcribe env (base64Decode env audio) (mimeTypeOf input) = inr transcript
       ∧ Str.trim transcript ≠ ""
       ∧ transcribeAudio env input st = (st, inr (Str.trim transcript))).
Proof.
  unfold transcribeAudio, audioGiven. fold (mimeTypeOf input). unfold_M.
  destruct (SubmitAnswerInput.audioBase64 input) as [audio|];
    [|left; split; [by intros audio [[=] _]|done]].
  destruct (Str.nonEmpty audio) eqn:Haudio.
  2:{ apply nonEmpty_false in Haudio. left.
      split; [by intros a [[= <-] Hne]|done]. }
  apply nonEmpty_true in Haudio. right.
  destruct (length (base64Decode env audio) =? 0) eqn:Hlen.
  { apply length_zero_nil in Hlen. left. eauto. }
  assert (base64Decode env audio ≠ []) as Hdecoded.
  { intros Hnil. apply length_zero_nil in Hnil. congruence. }
  right.
  destruct (transcribe env _ _) as [message|transcript] eqn:Hcall; [left; eauto 10|].
  right.
  destruct (Str.nonEmpty (Str.trim transcript)) eqn:Htrim; simpl.
  - apply nonEmpty_true in Htrim. right. eauto 10.
  - apply nonEmpty_false in Htrim. left. eauto 10.
Qed.
End Transcript.

Section Rejections.
Import SubmitAnswerUseCase.
Context (env : Env).

Lemma audioGiven_inj input a a' : audioGiven input a → audioGiven input a' → a = a'.
Proof. intros [Ha _] [Ha' _]. congruence. Qed.

Lemma resolveTranscript_invalid input st :
  (∃ e, (resolveTranscript env input st).2 = inl e ∧ failureOf e = InvalidInput)
  ↔ noAnswer input ∨ emptyAudio env input ∨ blankTranscription env input.
Proof.
  destruct (textGiven_dec input) as [Htext|Hno].
  - destruct Htext as (text & Htext & Htrim).
    rewrite (textGiven_resolves env input text st Htext Htrim). simpl.
    assert (textGiven input) as Hgiven by (exists text; done).
    split; [by intros (e & [=] & _)|].
    intros [[Hno _]|[[Hno _]|[Hno _]]]; done.
  - rewrite (not_textGiven_resolves env input st Hno).
    destruct (transcribeAudio_cases env input st)
      as [[Hnone ->]
         |[(audio & Hgiven & Hnil & ->)
          |[(audio & message & Hgiven & Hdec & Hcall & ->)
           |[(audio & transcript & Hgiven & Hdec & Hcall & Hblank & ->)
            |(audio & transcript & Hgiven & Hdec & Hcall & Hblank & ->)]]]]; simpl.
    + split; [intros _; by left|intros _; eauto].
    + split; [intros _; right; left; split; eauto|intros _; eauto].
    + split; [by intros (e & [= <-] & He)|].
      intros [[_ Hnone]|[(_ & a & Ha & Hnil)|(_ & a & t & Ha & _ & Hcall' & _)]].
      * by destruct (Hnone audio).
      * rewrite (audioGiven_inj _ _ _ Ha Hgiven) in Hnil. done.
      * rewrite (audioGiven_inj _ _ _ Ha Hgiven) in Hcall'. congruence.
    + split; [intros _; right; right; split; eauto 10|intros _; eauto].
    + split; [by intros (e & [=] & _)|].
      intros [[_ Hnone]|[(_ & a & Ha & Hnil)|(_ & a & t & Ha & _ & Hcall' & Hblank')]].
      * by destruct (Hnone audio).
      * rewrite (audioGiven_inj _ _ _ Ha Hgiven) in Hnil. done.
      * rewrite (audioGiven_inj _ _ _ Ha Hgiven) in Hcall'. congruence.
Qed.

Lemma normalizeDelay_invalid input :
  (∃ e, normalizeDelay (SubmitAnswerInput.responseDelaySec input) = inl e)
  ↔ badDelay input.
Proof.
  unfold normalizeDelay, badDelay.
  destruct (SubmitAnswerInput.responseDelaySec input) as [value|].
  - destruct (Number.isFinite value) eqn:Hfinite; simpl.
    + destruct (value <? 0)%float eqn:Hneg.
      * split; [intros _; exists value; auto|eauto].
      * split; [by intros [e [=]]|].
        intros (v & [= <-] & [?|?]); congruence.
    + split; [intros _; exists value; auto|eauto].
  - split; [by intros [e [=]]|by intros (v & [=] & _)].
Qed.

Lemma normalizeDelay_failure value e :
  normalizeDelay value = inl e → failureOf e = InvalidInput.
Proof.
  unfold normalizeDelay. repeat case_match; intros [= <-]; reflexivity.
Qed.

End Rejections.

Section Dispatch.
Import SubmitAnswerUseCase.
Context (env : Env).

Lemma submitMainAnswer_failure s t d st e :
  (submitMainAnswer env s t d st).2 = inl e → failureOf e ≠ InvalidInput.
Proof.
  unfold submitMainAnswer.
  destruct (questions s !! questionIndex s) as [q|]; [|by intros [= <-]].
  destruct (Str.nonEmpty q); [|by intros [= <-]].
  unfold_M.
  destruct (generateInterviewerReply env q t) as [message|reply]; [by intros [= <-]|].
  destruct (Str.truthy _); [done|].
  match goal with |- context [completeIfFinished env ?p st] =>
    destruct (completeIfFinished_run env p st) as [[message ->]|(s' & c & -> & _)] end.
  - by intros [= <-].
  - done.
Qed.

Lemma submitFollowUpAnswer_failure s t d st e :
  (submitFollowUpAnswer env s t d st).2 = inl e → failureOf e ≠ InvalidInput.
Proof.
  unfold submitFollowUpAnswer.
  destruct (last (turns s)) as [turn|]; [|by intros [= <-]].
  destruct (followUpQuestion turn) as [fq|]; [|by intros [= <-]].
  destruct (Str.nonEmpty fq); [|by intros [= <-]].
  unfold_M.
  destruct (generateFollowUpClose env _ _ _ _) as [message|closeText];
    [by intros [= <-]|].
  match goal with |- context [completeIfFinished env ?p st] =>
    destruct (completeIfFinished_run env p st) as [[message ->]|(s' & c & -> & _)] end.
  - by intros [= <-].
  - done.
Qed.

Lemma execute_in_progress input st s :
  st !! SubmitAnswerInput.sessionId input = Some s → status s = in_progress →
  execute env input st
  = match normalizeDelay (SubmitAnswerInput.responseDelaySec input) with
    | inl e => (st, inl e)
    | inr d =>
        match (resolveTranscript env input st).2 with
        | inl e => (st, inl e)
        | inr t =>
            if awaitingFollowUp s then submitFollowUpAnswer env s t d st
            else submitMainAnswer env s t d st
        end
    end.
Proof.
  intros Hs Hstatus. unfold execute. unfold_M. rewrite Hs, Hstatus. simpl.
  destruct (normalizeDelay _) as [e|d]; [done|].
  destruct (resolveTranscript_run env input st) as [[e|t] Hrun]; rewrite Hrun.
  - done.
  - simpl. by destruct (awaitingFollowUp s).
Qed.

Lemma execute_invalid_input input st s :
  st !! SubmitAnswerInput.sessionId input = Some s → status s = in_progress →
  (∃ e, (execute env input st).2 = inl e ∧ failureOf e = InvalidInput)
  ↔ noAnswer input ∨ emptyAudio env input ∨ blankTranscription env input
    ∨ badDelay input.
Proof.
  intros Hs Hstatus. rewrite (execute_in_progress input st s Hs Hstatus).
  pose proof (normalizeDelay_invalid input) as Hdelay.
  pose proof (resolveTranscript_invalid env input st) as Htranscript.
  destruct (normalizeDelay _) as [e|d] eqn:Hnorm.
  - split.
    + intros _. do 3 right. apply Hdelay. eauto.
    + intros _. exists e. split; [done|]. by eapply normalizeDelay_failure.
  - assert (¬ badDelay input) as Hgood.
    { intros Hbad. apply Hdelay in Hbad as [e [=]]. }
    destruct (resolveTranscript env input st).2 as [e|t] eqn:Hres.
    + split.
      * intros (e' & [= <-] & He).
        destruct Htranscript as [Hthen _].
        destruct Hthen as [H|[H|H]]; eauto.
      * intros H.
        destruct Htranscript as [_ Hback].
        destruct Hback as (e' & [= <-] & He); [|by eauto].
        destruct H as [H|[H|[H|H]]]; auto. done.
    + split.
      * intros (e & He & Hkind). exfalso.
        destruct (awaitingFollowUp s).
        -- by apply (submitFollowUpAnswer_failure s t d st e).
        -- by apply (submitMainAnswer_failure s t d st e).
      * intros H.
        destruct Htranscript as [_ Hback].
        destruct Hback as (e' & [=] & _).
        destruct H as [H|[H|[H|H]]]; auto. done.
Qed.
End Dispatch.

(** C7: a submission for a missing session throws [NotFoundError], a
    failure of kind [NotFound]; one for a completed session throws the
    [ValidationError] of kind [InvalidState]; one for a session in progress
    fails with [InvalidInput] exactly when no answer is given (no text that
    is not blank and no audio), or the audio that is used decodes to
    nothing, or its transcription is blank, or the delay is negative or not
    finite. A text or a transcription is blank when nothing is left of it
    once the white space of ECMAScript is trimmed. An absent delay is 0; a
    finite non-negative one is printed with two decimals and read back:
    below 1e21 that is the binary64 value nearest to [n / 100], for the
    hundredth [n / 100] nearest to the delay, the larger when two are as
    near; a delay of 1e21 or more is kept as it is, and zero is 0. *)
Theorem submit_rejections env input st :
  let out := SubmitAnswerUseCase.execute env input st in
  let sid := SubmitAnswerInput.sessionId input in
  (st !! sid = None → out = (st, inl (NotFoundError "Session not found.")))
  ∧ failureOf (NotFoundError "Session not found.") = NotFound
  ∧ (∀ s, st !! sid = Some s → status s = completed →
       out = (st, inl (ValidationError "Session is already completed.")))
  ∧ failureOf (ValidationError "Session is already completed.") = InvalidState
  ∧ (∀ s, st !! sid = Some s → status s = in_progress →
       ((∃ e, out.2 = inl e ∧ failureOf e = InvalidInput)
        ↔ noAnswer input ∨ emptyAudio env input ∨ blankTranscription env input
          ∨ badDelay input))
  ∧ SubmitAnswerUseCase.normalizeDelay None = inr 0%float
  ∧ (∀ value, Number.isFinite value = true → (value <? 0)%float = false →
       SubmitAnswerUseCase.normalizeDelay (Some value) = inr (Number.toFixed2 value))
  ∧ (∀ value sign m e,
       Prim2SF value = S754_finite sign m e → (1e21 <=? abs value)%float = false →
       Number.toFixed2 value = Number.ofHundredths sign (Number.nearestHundredths m e)
       ∧ roundsTo value sign (Number.nearestHundredths m e)
       ∧ readsBack sign (Number.nearestHundredths m e) (Number.toFixed2 value))
  ∧ (∀ value sign m e,
       Prim2SF value = S754_finite sign m e → (1e21 <=? abs value)%float = true →
       Number.toFixed2 value = value)
  ∧ (∀ value sign, Prim2SF value = S754_zero sign → Number.toFixed2 value = 0%float).
Proof.
  intros out sid. subst out sid.
  split; [apply execute_missing|].
  split; [reflexivity|].
  split; [apply execute_completed|].
  split; [reflexivity|].
  split; [apply execute_invalid_input|].
  split; [reflexivity|].
  split.
  - intros value Hfinite Hneg. unfold SubmitAnswerUseCase.normalizeDelay.
    by rewrite Hfinite, Hneg.
  - split; [|split].
    + intros value sign m e Hvalue Hsmall.
      destruct (toFixed2_rounds value sign m e Hvalue Hsmall) as [Hrounds Hreads].
      split; [|done]. unfold Number.toFixed2. by rewrite Hvalue, Hsmall.
    + intros value sign m e Hvalue Hbig. unfold Number.toFixed2.
      by rewrite Hvalue, Hbig.
    + intros value sign Hvalue. unfold Number.toFixed2. by rewrite Hvalue.
Qed.

Lemma submit_rejections_witness :
  (∃ e, (SubmitAnswerUseCase.execute failingEnv (audioAnswer "s-1" "AAAA")
           createdStore).2 = inl e
        ∧ failureOf e = InvalidInput)
  ∧ (∃ e, (SubmitAnswerUseCase.execute stubEnv (textAnswer "s-1" nbsp None)
             createdStore).2 = inl e
          ∧ failureOf e = InvalidInput)
  ∧ SubmitAnswerUseCase.normalizeDelay (Some 2.456%float)
    = inr (Number.toFixed2 2.456%float)
  ∧ roundsTo 2.456%float false 246
  ∧ readsBack false 246 (Number.toFixed2 2.456%float).
Proof.
  split; [|split; [|split]].
  - destruct (submit_rejections failingEnv (audioAnswer "s-1" "AAAA") createdStore)
      as (_ & _ & _ & _ & Hinvalid & _).
    apply (Hinvalid createdSession).
    + vm_compute. reflexivity.
    + reflexivity.
    + right. right. left. split.
      * intros (text & Htext & _). discriminate Htext.
      * exists "AAAA", "   ". repeat split; try reflexivity; discriminate.
  - destruct (submit_rejections stubEnv (textAnswer "s-1" nbsp None) createdStore)
      as (_ & _ & _ & _ & Hinvalid & _).
    apply (Hinvalid createdSession).
    + vm_compute. reflexivity.
    + reflexivity.
    + left. split.
      * intros (text & [= <-] & Htext). by apply Htext.
      * intros audio [Haudio _]. discriminate Haudio.
  - destruct (submit_rejections failingEnv (audioAnswer "s-1" "AAAA") createdStore)
      as (_ & _ & _ & _ & _ & _ & Hdelay & _).
    apply Hdelay; reflexivity.
  - destruct (submit_rejections failingEnv (audioAnswer "s-1" "AAAA") createdStore)
      as (_ & _ & _ & _ & _ & _ & _ & Hround & _).
    apply (Hround 2.456%float false 5530420342410969%positive (-51)%Z).
    + vm_compute. reflexivity.
    + vm_compute. reflexivity.
Defined.

(** ** Accepted submissions, in full *)

Section Accepted.
Import SubmitAnswerUseCase.
Context (env : Env).

Lemma completeIfFinished_finishes p st st' s' c :
  completeIfFinished env p st = (st', inr (s', c)) → st' = st ∧ finishes env p s' c.
Proof.
  unfold completeIfFinished. unfold_M.
  destruct (questionIndex p <? length (questions p)) eqn:Hlt.
  - intros [= <- <- <-]. split; [done|]. constructor. by apply Nat.ltb_lt.
  - apply Nat.ltb_ge in Hlt. fold (transcriptOf (turns p)).
    destruct (generateFeedback env _ _) as [message|fb] eqn:Hfb; [done|].
    intros [= <- <- <-]. split; [done|]. by apply finishes_now.
Qed.

Lemma finishes_id p s' c : finishes env p s' c → id s' = id p.
Proof. by destruct 1. Qed.

Lemma submitMainAnswer_accepts s t d st st' res :
  awaitingFollowUp s = false →
  submitMainAnswer env s t d st = (st', inr res) →
  ∃ s', st' = <[id s := s']> st ∧ accepts env s t d s' res.
Proof.
  intros Hw. unfold submitMainAnswer.
  destruct (questions s !! questionIndex s) as [q|] eqn:Hq; [|done].
  destruct (Str.nonEmpty q) eqn:Hne; [|done].
  unfold_M.
  destruct (generateInterviewerReply env q t) as [message|reply] eqn:Hreply; [done|].
  destruct (Str.truthy _) eqn:Hfu.
  - intros [= <- <-]. eexists. split; [done|].
    destruct (allowFollowUps s) eqn:Ha; [|done].
    destruct (replyFollowUpQuestion reply) as [fq|] eqn:Hfq; [|done].
    by eapply accepts_ask.
  - match goal with |- context [completeIfFinished env ?p st] =>
      destruct (completeIfFinished env p st) as [st1 [e|[s' c]]] eqn:Hc end; [done|].
    apply completeIfFinished_finishes in Hc as [-> Hc].
    intros [= <- <-]. exists s'. split.
    + by rewrite (finishes_id _ _ _ Hc).
    + by eapply accepts_next.
Qed.

Lemma submitFollowUpAnswer_accepts s t d st st' res :
  awaitingFollowUp s = true →
  submitFollowUpAnswer env s t d st = (st', inr res) →
  ∃ s', st' = <[id s := s']> st ∧ accepts env s t d s' res.
Proof.
  intros Hw. unfold submitFollowUpAnswer.
  destruct (last (turns s)) as [turn|] eqn:Hlast; [|done].
  destruct (followUpQuestion turn) as [fq|] eqn:Hfq; [|done].
  destruct (Str.nonEmpty fq) eqn:Hne; [|done].
  unfold_M. simpl.
  destruct (generateFollowUpClose env _ _ _ _) as [message|closeText] eqn:Hclose; [done|].
  match goal with |- context [completeIfFinished env ?p st] =>
    destruct (completeIfFinished env p st) as [st1 [e|[s' c]]] eqn:Hc end; [done|].
  apply completeIfFinished_finishes in Hc as [-> Hc].
  intros [= <- <-]. exists s'. split.
  - by rewrite (finishes_id _ _ _ Hc).
  - eapply accepts_close; try done. unfold closedTurn. by rewrite Hfq.
Qed.

Lemma resolveTranscript_nonEmpty input st st' t :
  resolveTranscript env input st = (st', inr t) → Str.nonEmpty t = true.
Proof.
  destruct (textGiven_dec input) as [(text & Htext & Htrim)|Hno].
  - rewrite (textGiven_resolves env input text st Htext Htrim).
    intros [= <- <-]. by apply nonEmpty_true.
  - rewrite (not_textGiven_resolves env input st Hno).
    destruct (transcribeAudio_cases env input st)
      as [[_ ->]
         |[(audio & _ & _ & ->)
          |[(audio & message & _ & _ & _ & ->)
           |[(audio & transcript & _ & _ & _ & _ & ->)
            |(audio & transcript & _ & _ & _ & Hblank & ->)]]]]; try done.
    intros [= <- <-]. by apply nonEmpty_true.
Qed.

(** A submission that returns has read a session in progress, resolved a
    transcript that is not empty and a delay, and saved the successor of
    that session under its identifier. *)
Lemma execute_accepts input st st' res :
  execute env input st = (st', inr res) →
  ∃ s t d s',
    st !! SubmitAnswerInput.sessionId input = Some s
    ∧ status s = in_progress
    ∧ Str.nonEmpty t = true
    ∧ normalizeDelay (SubmitAnswerInput.responseDelaySec input) = inr d
    ∧ st' = <[id s := s']> st
    ∧ accepts env s t d s' res.
Proof.
  destruct (st !! SubmitAnswerInput.sessionId input) as [s|] eqn:Hs.
  2:{ by rewrite (execute_missing env input st Hs). }
  destruct (status s) eqn:Hstatus.
  2:{ by rewrite (execute_completed env input st s Hs Hstatus). }
  rewrite (execute_in_progress env input st s Hs Hstatus).
  destruct (normalizeDelay _) as [e|d] eqn:Hdelay; [done|].
  destruct (resolveTranscript env input st) as [st1 [e|t]] eqn:Hres; [done|].
  simpl. apply resolveTranscript_nonEmpty in Hres.
  destruct (awaitingFollowUp s) eqn:Hw; intros Hrun.
  - apply submitFollowUpAnswer_accepts in Hrun as (s' & -> & Hacc); [|done].
    exists s, t, d, s'. eauto 10.
  - apply submitMainAnswer_accepts in Hrun as (s' & -> & Hacc); [|done].
    exists s, t, d, s'. eauto 10.
Qed.

Lemma accepts_transition s t d s' res :
  accepts env s t d s' res → transition s s' (SubmitAnswerResult.result res).
Proof.
  destruct 1 as [q reply fq Hw Hq Hne Hreply Ha Hfq Hfqne
                | q reply fu p c Hw Hq Hne Hreply Hfu Hfalsy Hfin
                | turn fq closeText p c Hw Hlast Hfq Hne Hclose Hfin]; simpl.
  - by apply transition_ask.
  - eapply (transition_next s q t d fu); try done.
    + intros Ha. by rewrite Hfu, Ha.
    + destruct Hfin; [by apply completes_not_yet|by apply completes_now].
  - eapply (transition_close s turn fq t d); try done.
    destruct Hfin; [by apply completes_not_yet|by apply completes_now].
Qed.

End Accepted.

(** ** What stored sessions keep, continued *)

Lemma bank_nonEmpty i q : QUESTION_BANK !! i = Some q → Str.nonEmpty q = true.
Proof.
  do 10 (destruct i as [|i]; [by intros [= <-]|]). done.
Qed.

Lemma last_lookup_active {A} (l : list A) (x : A) n :
  length l = n + 1 → last l = Some x → l !! n = Some x.
Proof.
  intros Hlen. rewrite last_lookup. by replace (pred (length l)) with n by lia.
Qed.

Lemma finishes_kept env p s' c :
  finishes env p s' c → status p = in_progress →
  turns s' = turns p ∧ questions s' = questions p
  ∧ questionIndex s' = questionIndex p ∧ allowFollowUps s' = allowFollowUps p
  ∧ (status s' = completed →
     ∃ fb, result s' = Some fb ∧ timingSummary fb = computeTimingSummary (turns s')).
Proof.
  intros [Hlt|fb Hge Hfb] Hstatus; simpl.
  - do 4 (split; [done|]). by rewrite Hstatus.
  - do 4 (split; [done|]). intros _. by eexists.
Qed.

Lemma accepts_kept env s t d s' res :
  session_ok s → session_kept s → status s = in_progress → Str.nonEmpty t = true →
  accepts env s t d s' res → session_kept s'.
Proof.
  intros Hok [Hcat Hqs Hans Hallow Hdone Hactive Htiming] Hstatus Ht Hacc.
  pose proof (ok_turns s Hok) as Hlen.
  apply nonEmpty_true in Ht.
  destruct Hacc as [q reply fq Hw Hq Hne Hreply Ha Hfq Hfqne
                   | q reply fu s1 c Hw Hq Hne Hreply Hfu Hfalsy Hfin
                   | turn fq closeText s1 c Hw Hlast Hfq Hne Hclose Hfin].
  - rewrite Hw in Hlen. split; simpl; try done.
    + intros i turn Hi. apply lookup_app_Some in Hi as [Hi|[Hge Hi]]; [eauto|].
      apply list_lookup_singleton_Some in Hi as [Hi <-]. simpl.
      by replace i with (questionIndex s) by lia.
    + intros i turn Hi. apply lookup_app_Some in Hi as [Hi|[Hge Hi]]; [eauto|].
      by apply list_lookup_singleton_Some in Hi as [Hi <-].
    + congruence.
    + intros i turn Hi Hlt. apply lookup_app_Some in Hi as [Hi|[Hge Hi]]; [|lia].
      by apply (Hdone i turn).
    + intros i turn Hi Hge. apply lookup_app_Some in Hi as [Hi|[_ Hi]]; [eauto|].
      by apply list_lookup_singleton_Some in Hi as [Hi <-].
    + by rewrite Hstatus.
  - rewrite Hw in Hlen.
    destruct (finishes_kept env _ s1 c Hfin Hstatus) as (Hturns & Hquestions & Hindex & Hal & Hres).
    simpl in *. rewrite Hturns in Hres.
    split; rewrite ?Hturns, ?Hquestions, ?Hindex, ?Hal; try done.
    + intros i turn Hi. apply lookup_app_Some in Hi as [Hi|[Hge Hi]]; [eauto|].
      apply list_lookup_singleton_Some in Hi as [Hi <-]. simpl.
      by replace i with (questionIndex s) by lia.
    + intros i turn Hi. apply lookup_app_Some in Hi as [Hi|[Hge Hi]]; [eauto|].
      by apply list_lookup_singleton_Some in Hi as [Hi <-].
    + intros Hno i turn Hi. apply lookup_app_Some in Hi as [Hi|[Hge Hi]]; [eauto|].
      apply list_lookup_singleton_Some in Hi as [Hi <-]. simpl. by rewrite Hfu, Hno.
    + intros i turn Hi Hlt. apply lookup_app_Some in Hi as [Hi|[Hge Hi]].
      * apply (Hdone i turn Hi). apply lookup_lt_Some in Hi. lia.
      * apply list_lookup_singleton_Some in Hi as [Hi <-].
        unfold askedFollowUp. simpl. by rewrite Hfalsy.
    + intros i turn Hi Hge. apply lookup_lt_Some in Hi.
      rewrite length_app in Hi. simpl in Hi. lia.
  - rewrite Hw in Hlen.
    pose proof (last_lookup_active _ _ _ Hlen Hlast) as Hturn.
    destruct (finishes_kept env _ s1 c Hfin Hstatus) as (Hturns & Hquestions & Hindex & Hal & Hres).
    simpl in *. replace (length (turns s) - 1) with (questionIndex s) in * by lia.
    rewrite Hturns in Hres.
    split; rewrite ?Hturns, ?Hquestions, ?Hindex, ?Hal; try done.
    + intros i turn' Hi. destruct (decide (i = questionIndex s)) as [->|Hne'].
      * rewrite list_lookup_insert_eq in Hi by lia. injection Hi as <-. simpl. eauto.
      * rewrite list_lookup_insert_ne in Hi by done. eauto.
    + intros i turn' Hi. destruct (decide (i = questionIndex s)) as [->|Hne'].
      * rewrite list_lookup_insert_eq in Hi by lia. injection Hi as <-. simpl. eauto.
      * rewrite list_lookup_insert_ne in Hi by done. eauto.
    + intros Hno i turn' Hi. destruct (decide (i = questionIndex s)) as [->|Hne'].
      * rewrite list_lookup_insert_eq in Hi by lia. injection Hi as <-. simpl. eauto.
      * rewrite list_lookup_insert_ne in Hi by done. eauto.
    + intros i turn' Hi Hlt. destruct (decide (i = questionIndex s)) as [->|Hne'].
      * rewrite list_lookup_insert_eq in Hi by lia. injection Hi as <-.
        unfold askedFollowUp, answeredFollowUp. simpl. rewrite Hfq. simpl. rewrite Hne.
        split; [by exists t|done].
      * rewrite list_lookup_insert_ne in Hi by done. apply (Hdone i turn' Hi). lia.
    + intros i turn' Hi Hge. apply lookup_lt_Some in Hi.
      rewrite length_insert in Hi. lia.
Qed.

Lemma session_kept_initial uuid now allow (requested : option Z) :
  session_kept
    {| id := uuid; createdAt := now; status := in_progress; allowFollowUps := allow;
       questions := slice QUESTION_BANK 0
                      (Z.max 1 (Z.min (default 3%Z requested)
                                  (Z.of_nat (length QUESTION_BANK))));
       questionIndex := 0; awaitingFollowUp := false;
       pendingFollowUpQuestion := None; turns := []; result := None |}.
Proof.
  pose proof (clampedCount_range requested) as Hrange.
  split; simpl; try done.
  rewrite clampedCount_max_min, slice_prefix by lia.
  exists (Z.to_nat (clampedCount requested)). split; [|done].
  change (Z.of_nat (length QUESTION_BANK)) with 10%Z in Hrange.
  change (length QUESTION_BANK) with 10. lia.
Qed.

Lemma store_kept_step st st' :
  store_ok st → store_kept st → step st st' → store_kept st'.
Proof.
  intros Hok Hkept [uuid now input Hfresh|env input|sessionId|sessionId].
  - unfold CreateSessionUseCase.execute. unfold_M. simpl.
    intros k s. destruct (decide (k = uuid)) as [->|Hne].
    + rewrite lookup_insert_eq. intros [= <-]. apply session_kept_initial.
    + rewrite lookup_insert_ne by done. apply Hkept.
  - destruct (SubmitAnswerUseCase.execute env input st) as [st1 [e|res]] eqn:Hrun.
    + destruct (execute_run env input st)
        as [[e' Hrun']|(s & s' & res & _ & _ & Hrun' & _)]; rewrite Hrun' in Hrun;
        [|done]. by injection Hrun as <- _.
    + apply execute_accepts in Hrun as (s & t & d & s' & Hs & Hstatus & Ht & _ & -> & Hacc).
      simpl. intros k s0. destruct (decide (k = id s)) as [->|Hne].
      * rewrite lookup_insert_eq. intros [= <-].
        destruct (Hok _ _ Hs) as [_ Hsok].
        by eapply accepts_kept; [| apply (Hkept _ _ Hs) | ..].
      * rewrite lookup_insert_ne by done. apply Hkept.
  - unfold GetCurrentPromptUseCase.execute. unfold_M. by repeat case_match.
  - unfold GetSessionResultUseCase.execute. unfold_M. by repeat case_match.
Qed.

Lemma reachable_kept st : reachable st → store_kept st.
Proof.
  induction 1 as [|st st' Hreach IH Hstep].
  - intros k s. by rewrite lookup_empty.
  - eapply store_kept_step; [by apply reachable_ok|done..].
Qed.

(** ** Identity, catalog and history of a session *)

(** X1: a stored session is filed under its own identifier and its questions
    are a non-empty prefix of the catalog; a step of the system keeps it in
    the store with the same identifier, creation time, questions and
    follow-up setting, and keeps a completed session entirely as it is. *)
Theorem session_identity_is_kept st st' k s :
  reachable st → step st st' → st !! k = Some s →
  id s = k
  ∧ (∃ n, 1 ≤ n ≤ length QUESTION_BANK ∧ questions s = take n QUESTION_BANK)
  ∧ ∃ s', st' !! k = Some s'
          ∧ id s' = id s ∧ createdAt s' = createdAt s
          ∧ questions s' = questions s ∧ allowFollowUps s' = allowFollowUps s
          ∧ (status s = completed → s' = s).
Proof.
  intros Hreach Hstep Hk. pose proof (reachable_ok st Hreach) as Hst.
  destruct (Hst k s Hk) as [Hid Hok].
  split; [done|]. split; [apply (reachable_kept st Hreach k s Hk)|].
  destruct (step_cases st st' k s Hst Hstep Hk) as [Hsame|(s' & c & Hk' & Hin & Ht)].
  - exists s. by repeat split.
  - exists s'. destruct (transition_frame _ _ _ Ht) as (? & ? & ? & ? & _).
    repeat split; try done. congruence.
Qed.

Lemma session_identity_is_kept_witness :
  id askedSession = "s-1"
  ∧ (∃ n, 1 ≤ n ≤ length QUESTION_BANK ∧ questions askedSession = take n QUESTION_BANK)
  ∧ ∃ s', completedStore !! "s-1" = Some s'
          ∧ id s' = id askedSession ∧ createdAt s' = createdAt askedSession
          ∧ questions s' = questions askedSession
          ∧ allowFollowUps s' = allowFollowUps askedSession
          ∧ (status askedSession = completed → s' = askedSession).
Proof.
  apply (session_identity_is_kept askedStore completedStore "s-1" askedSession).
  - apply askedStore_reachable.
  - apply step_submit.
  - vm_compute. reflexivity.
Defined.

(** X2: the i-th turn of a stored session records the i-th question of the
    session, which is the i-th question of the catalog, and no turn lies
    beyond the cursor. *)
Theorem turns_follow_the_catalog st k s i turn :
  reachable st → st !! k = Some s → turns s !! i = Some turn →
  questions s !! i = Some (question turn)
  ∧ QUESTION_BANK !! i = Some (question turn)
  ∧ i ≤ questionIndex s.
Proof.
  intros Hreach Hk Hi.
  destruct (reachable_ok st Hreach k s Hk) as [_ Hok].
  pose proof (reachable_kept st Hreach k s Hk) as Hkept.
  pose proof (kept_questions s Hkept i turn Hi) as Hq.
  split; [done|]. split.
  - destruct (kept_catalog s Hkept) as (n & _ & Hn). rewrite Hn in Hq.
    apply lookup_take_Some in Hq. apply Hq.
  - apply lookup_lt_Some in Hi. rewrite (ok_turns s Hok) in Hi.
    destruct (awaitingFollowUp s); lia.
Qed.

Lemma turns_follow_the_catalog_witness :
  questions askedSession !! 0
  = Some "Tell me about yourself and your current backend focus."
  ∧ QUESTION_BANK !! 0 = Some "Tell me about yourself and your current backend focus."
  ∧ 0 ≤ questionIndex askedSession.
Proof.
  apply (turns_follow_the_catalog askedStore "s-1" askedSession 0
           (mainTurn "Tell me about yourself and your current backend focus."
              "I build payment APIs." (Some "Why?") 2.5%float)).
  - apply askedStore_reachable.
  - vm_compute. reflexivity.
  - reflexivity.
Defined.

(** ** The checks of the session state never fire *)

Section Defensive.
Import SubmitAnswerUseCase.
Context (env : Env).

Lemma resolveTranscript_error input st e :
  (resolveTranscript env input st).2 = inl e →
  e ≠ noActiveQuestion ∧ e ≠ noFollowUpAvailable.
Proof.
  destruct (textGiven_dec input) as [(text & Htext & Htrim)|Hno].
  - by rewrite (textGiven_resolves env input text st Htext Htrim).
  - rewrite (not_textGiven_resolves env input st Hno).
    destruct (transcribeAudio_cases env input st)
      as [[_ ->]
         |[(audio & _ & _ & ->)
          |[(audio & message & _ & _ & _ & ->)
           |[(audio & transcript & _ & _ & _ & _ & ->)
            |(audio & transcript & _ & _ & _ & _ & ->)]]]];
      simpl; intros [= <-]; done.
Qed.

Lemma completeIfFinished_answers p st :
  (∀ timing transcript, ∃ fb, generateFeedback env timing transcript = inr fb) →
  ∃ s' c, completeIfFinished env p st = (st, inr (s', c)).
Proof.
  intros Hfeedback.
  destruct (completeIfFinished_run env p st) as [[message Hrun]|(s' & c & Hrun & _)];
    [|eauto].
  unfold completeIfFinished in Hrun. unfold_M.
  destruct (questionIndex p <? length (questions p)); [done|].
  match type of Hrun with context [generateFeedback env ?a ?b] =>
    destruct (Hfeedback a b) as [fb Hfb]; rewrite Hfb in Hrun end.
  done.
Qed.

(** With a question under the cursor, a main answer fails only when the
    coach does. *)
Lemma submitMainAnswer_guarded s t d st q :
  questions s !! questionIndex s = Some q → Str.nonEmpty q = true →
  ((∃ message, (submitMainAnswer env s t d st).2 = inl (ServiceError message))
   ∨ ∃ res, (submitMainAnswer env s t d st).2 = inr res)
  ∧ (coachAnswers env → ∃ res, (submitMainAnswer env s t d st).2 = inr res).
Proof.
  intros Hq Hne. unfold submitMainAnswer. rewrite Hq, Hne. unfold_M. split.
  - destruct (generateInterviewerReply env q t) as [message|reply]; [left; eauto|].
    destruct (Str.truthy _); [right; eauto|].
    match goal with |- context [completeIfFinished env ?p st] =>
      destruct (completeIfFinished_run env p st) as [[message ->]|(s' & c & -> & _)] end;
      [left|right]; eauto.
  - intros (Hreply & _ & Hfeedback).
    destruct (Hreply q t) as [reply ->].
    destruct (Str.truthy _); [eauto|].
    match goal with |- context [completeIfFinished env ?p st] =>
      destruct (completeIfFinished_answers p st Hfeedback) as (s' & c & ->) end.
    eauto.
Qed.

(** With a follow-up asked in the last turn, a follow-up answer fails only
    when the coach does. *)
Lemma submitFollowUpAnswer_guarded s t d st turn :
  last (turns s) = Some turn → askedFollowUp turn = true →
  ((∃ message, (submitFollowUpAnswer env s t d st).2 = inl (ServiceError message))
   ∨ ∃ res, (submitFollowUpAnswer env s t d st).2 = inr res)
  ∧ (coachAnswers env → ∃ res, (submitFollowUpAnswer env s t d st).2 = inr res).
Proof.
  intros Hlast Hasked. unfold submitFollowUpAnswer. rewrite Hlast.
  unfold askedFollowUp in Hasked.
  destruct (followUpQuestion turn) as [fq|]; [|done]. simpl in Hasked.
  rewrite Hasked. unfold_M. simpl. split.
  - destruct (generateFollowUpClose env _ _ _ _) as [message|closeText]; [left; eauto|].
    match goal with |- context [completeIfFinished env ?p st] =>
      destruct (completeIfFinished_run env p st) as [[message ->]|(s' & c & -> & _)] end;
      [left|right]; eauto.
  - intros (_ & Hclose & Hfeedback).
    destruct (Hclose (question turn) (answer turn) fq t) as [closeText ->].
    match goal with |- context [completeIfFinished env ?p st] =>
      destruct (completeIfFinished_answers p st Hfeedback) as (s' & c & ->) end.
    eauto.
Qed.

End Defensive.

(** In a state of the system, the session in progress can take the answer:
    what the dispatch of [execute] hands it to finds its question, or its
    asked follow-up. *)
Lemma reachable_guard st k s :
  reachable st → st !! k = Some s → status s = in_progress →
  if awaitingFollowUp s
  then ∃ turn, last (turns s) = Some turn ∧ askedFollowUp turn = true
  else ∃ q, questions s !! questionIndex s = Some q ∧ Str.nonEmpty q = true.
Proof.
  intros Hreach Hk Hstatus.
  destruct (reachable_ok st Hreach k s Hk) as [_ Hok].
  pose proof (reachable_kept st Hreach k s Hk) as Hkept.
  destruct (awaitingFollowUp s) eqn:Hw.
  - destruct (ok_active s Hok Hw) as (turn & Hlast & Hfq).
    exists turn. split; [done|]. unfold askedFollowUp. rewrite Hfq.
    by apply (ok_prompt s Hok).
  - pose proof (ok_in_progress s Hok Hstatus) as Hlt.
    apply lookup_lt_is_Some_2 in Hlt as [q Hq]. exists q. split; [done|].
    destruct (kept_catalog s Hkept) as (n & _ & Hn). rewrite Hn in Hq.
    apply lookup_take_Some in Hq as [Hq _]. by eapply bank_nonEmpty.
Qed.

(** X3: in a state of the system a submission never fails on the two checks
    of the session state ("No active question found", "Follow-up is not
    available"); and for a session in progress, a request with a text that
    is not blank and a delay that is absent or finite and not negative
    returns whenever the coach answers its calls. *)
Theorem state_checks_never_fire st env input :
  reachable st →
  let out := SubmitAnswerUseCase.execute env input st in
  out.2 ≠ inl noActiveQuestion
  ∧ out.2 ≠ inl noFollowUpAvailable
  ∧ (∀ s, st !! SubmitAnswerInput.sessionId input = Some s →
       status s = in_progress → textGiven input → ¬ badDelay input →
       coachAnswers env → ∃ res, out.2 = inr res).
Proof.
  intros Hreach out. subst out.
  destruct (st !! SubmitAnswerInput.sessionId input) as [s|] eqn:Hs.
  2:{ rewrite (execute_missing env input st Hs). by repeat split. }
  destruct (status s) eqn:Hstatus.
  2:{ rewrite (execute_completed env input st s Hs Hstatus).
      repeat split; try done. by intros s' [= <-]; congruence. }
  rewrite (execute_in_progress env input st s Hs Hstatus).
  pose proof (reachable_guard st _ s Hreach Hs Hstatus) as Hguard.
  pose proof (normalizeDelay_invalid input) as Hdelay.
  destruct (SubmitAnswerUseCase.normalizeDelay _) as [e|d] eqn:Hnorm.
  { simpl. assert (failureOf e = InvalidInput) as He
      by (by eapply normalizeDelay_failure).
    repeat split; try (by intros [= ->]).
    intros s' _ _ _ Hgood. destruct Hgood. apply Hdelay. eauto. }
  pose proof (resolveTranscript_error env input st) as Herror.
  destruct (SubmitAnswerUseCase.resolveTranscript env input st).2 as [e|t] eqn:Hres.
  { simpl. destruct (Herror e eq_refl) as [He1 He2].
    repeat split; try (by intros [= ->]).
    intros s' _ _ (text & Htext & Htrim) _ _.
    rewrite (textGiven_resolves env input text st Htext Htrim) in Hres. done. }
  destruct (awaitingFollowUp s).
  - destruct Hguard as (turn & Hlast & Hasked).
    destruct (submitFollowUpAnswer_guarded env s t d st turn Hlast Hasked)
      as [[[message Hrun]|[res Hrun]] Hlive]; rewrite Hrun;
      (repeat split; [done..|]); intros s' _ _ _ _ Hcoach;
      destruct (Hlive Hcoach) as [res' Hres']; rewrite Hres' in Hrun; eauto.
  - destruct Hguard as (q & Hq & Hne).
    destruct (submitMainAnswer_guarded env s t d st q Hq Hne)
      as [[[message Hrun]|[res Hrun]] Hlive]; rewrite Hrun;
      (repeat split; [done..|]); intros s' _ _ _ _ Hcoach;
      destruct (Hlive Hcoach) as [res' Hres']; rewrite Hres' in Hrun; eauto.
Qed.

Lemma stubEnv_answers : coachAnswers stubEnv.
Proof. repeat split; intros; eexists; reflexivity. Qed.

Lemma state_checks_never_fire_witness :
  ∃ res, (SubmitAnswerUseCase.execute stubEnv
            (textAnswer "s-1" "I build payment APIs." None) createdStore).2 = inr res.
Proof.
  destruct (state_checks_never_fire createdStore stubEnv
              (textAnswer "s-1" "I build payment APIs." None) createdStore_reachable)
    as (_ & _ & Hlive).
  apply (Hlive createdSession).
  - vm_compute. reflexivity.
  - reflexivity.
  - exists "I build payment APIs.". split; [reflexivity|]. vm_compute. discriminate.
  - intros (value & Hvalue & _). discriminate Hvalue.
  - apply stubEnv_answers.
Defined.

(** ** What a submission returns *)

(** X4: in a state of the system, what a submission returns agrees with what
    the store then shows: the prompt use case gives the returned next prompt,
    prompt type and status, and the result use case gives the returned
    status and result. *)
Theorem response_agrees_with_views st env input st' res :
  reachable st →
  SubmitAnswerUseCase.execute env input st = (st', inr res) →
  let sid := SubmitAnswerInput.sessionId input in
  SubmitAnswerResult.sessionId res = sid
  ∧ (∃ view, (GetCurrentPromptUseCase.execute sid st').2 = inr view
       ∧ CurrentPromptResult.prompt view = SubmitAnswerResult.nextPrompt res
       ∧ CurrentPromptResult.promptType view = SubmitAnswerResult.promptType res
       ∧ CurrentPromptResult.status view = SubmitAnswerResult.status res)
  ∧ (∃ view, (GetSessionResultUseCase.execute sid st').2 = inr view
       ∧ SessionResultView.status view = SubmitAnswerResult.status res
       ∧ SessionResultView.result view = SubmitAnswerResult.result res).
Proof.
  intros Hreach Hrun sid. subst sid.
  apply execute_accepts in Hrun as (s & t & d & s' & Hs & Hstatus & _ & _ & -> & Hacc).
  destruct (reachable_ok st Hreach _ s Hs) as [Hid Hok].
  assert (result s = None) as Hnone.
  { destruct (result s) eqn:Hr; [|done].
    assert (status s = completed) by (apply Hok; by rewrite Hr). congruence. }
  unfold GetCurrentPromptUseCase.execute, GetSessionResultUseCase.execute. unfold_M.
  rewrite Hid, lookup_insert_eq.
  destruct Hacc as [q reply fq Hw Hq Hne Hreply Ha Hfq Hfqne
                   | q reply fu s1 c Hw Hq Hne Hreply Hfu Hfalsy Hfin
                   | turn fq closeText s1 c Hw Hlast Hfq Hne Hclose Hfin].
  - simpl. rewrite Hstatus, Hfqne. simpl. eauto 10.
  - assert (awaitingFollowUp s1 = false ∧ id s1 = id s
            ∧ result s1 = c) as (Hw1 & Hid1 & Hc).
    { destruct Hfin; simpl; auto. }
    simpl. rewrite Hw1, Hid1, Hid, Hc. simpl.
    destruct (isCompleted (status s1)); simpl; eauto 10.
  - assert (awaitingFollowUp s1 = false ∧ id s1 = id s
            ∧ result s1 = c) as (Hw1 & Hid1 & Hc).
    { destruct Hfin; simpl; auto. }
    simpl. rewrite Hw1, Hid1, Hid, Hc. simpl.
    destruct (isCompleted (status s1)); simpl; eauto 10.
Qed.

(** X5: in a state of the system every accepted submission moves its
    session forward, by one or two half-questions, never past the end; the
    session is completed exactly when it has got to the end. So a session
    of n questions takes at most 2n accepted submissions. *)
Theorem accepted_submission_makes_progress st env input st' res :
  reachable st →
  SubmitAnswerUseCase.execute env input st = (st', inr res) →
  ∃ s s',
    st !! SubmitAnswerInput.sessionId input = Some s
    ∧ st' !! SubmitAnswerInput.sessionId input = Some s'
    ∧ progress s < progress s' ≤ progress s + 2
    ∧ progress s' ≤ 2 * length (questions s)
    ∧ (status s' = completed ↔ progress s' = 2 * length (questions s)).
Proof.
  intros Hreach Hrun.
  assert (reachable st') as Hreach'.
  { apply (reachable_step st); [done|]. replace st' with
      (SubmitAnswerUseCase.execute env input st).1 by (by rewrite Hrun).
    apply step_submit. }
  apply execute_accepts in Hrun as (s & t & d & s' & Hs & Hstatus & _ & _ & -> & Hacc).
  destruct (reachable_ok st Hreach _ s Hs) as [Hid Hok].
  assert ((<[id s := s']> st) !! SubmitAnswerInput.sessionId input = Some s') as Hs'
    by (by rewrite Hid, lookup_insert_eq).
  destruct (reachable_ok _ Hreach' _ s' Hs') as [_ Hok'].
  apply accepts_transition in Hacc.
  destruct (transition_frame _ _ _ Hacc) as (_ & _ & Hq & _ & _).
  exists s, s'. split; [done|]. split; [done|]. rewrite <- Hq.
  assert (progress s < progress s' ≤ progress s + 2) as Hstep.
  { unfold progress.
    destruct Hacc as [? ? ? ? Hw _ _ _
                     | ? ? ? ? ? ? Hw _ _ _ Hc
                     | ? ? ? ? ? ? Hw _ _ _ Hc]; [|inversion Hc; subst..];
      simpl; rewrite Hw; lia. }
  split; [done|].
  unfold progress in *.
  pose proof (ok_in_progress s' Hok') as Hip.
  pose proof (ok_completed s' Hok') as Hco.
  pose proof (ok_awaiting s' Hok') as Haw.
  destruct (status s') eqn:Hst'; destruct (awaitingFollowUp s') eqn:Hw';
    try specialize (Hip eq_refl); try specialize (Hco eq_refl);
    try specialize (Haw eq_refl); try done; (split; [lia|]); split; (done || lia).
Qed.

(** ** The recorded exchange *)

(** X6: in a state of the system no recorded answer is empty; a session
    that allows no follow-ups has none recorded; a follow-up answer is
    recorded, with its delay, only in a turn whose follow-up was asked; a
    completed session has an answer to every follow-up asked; and while a
    follow-up is awaited, the turn under the cursor holds the pending
    question and no answer to it yet. *)
Theorem recorded_turns_are_well_formed st k s i turn :
  reachable st → st !! k = Some s → turns s !! i = Some turn →
  answer turn ≠ ""
  ∧ (allowFollowUps s = false → followUpQuestion turn = None)
  ∧ (∀ a, followUpAnswer turn = Some a →
       a ≠ "" ∧ askedFollowUp turn = true ∧ is_Some (followUpResponseDelaySec turn))
  ∧ (is_Some (followUpResponseDelaySec turn) → is_Some (followUpAnswer turn))
  ∧ (status s = completed → askedFollowUp turn = true → answeredFollowUp turn)
  ∧ (awaitingFollowUp s = true → i = questionIndex s →
       followUpQuestion turn = pendingFollowUpQuestion s ∧ openTurn turn).
Proof.
  intros Hreach Hk Hi.
  destruct (reachable_ok st Hreach k s Hk) as [_ Hok].
  pose proof (reachable_kept st Hreach k s Hk) as Hkept.
  pose proof (kept_done s Hkept i turn Hi) as Hdone.
  pose proof (kept_active s Hkept i turn Hi) as Hactive.
  split; [by apply (kept_answers s Hkept i turn)|].
  split; [intros Hno; by apply (kept_allowed s Hkept Hno i turn)|].
  assert (i < questionIndex s ∨ questionIndex s ≤ i) as [Hlt|Hge] by lia.
  - specialize (Hdone Hlt). clear Hactive.
    destruct (askedFollowUp turn) eqn:Hasked.
    + destruct Hdone as [(a & Ha & Hne) Hdelay].
      split; [intros a' Ha'; rewrite Ha in Ha'; by injection Ha' as <-|].
      split; [intros _; by rewrite Ha|].
      split; [intros _ _; split; [by exists a|done]|]. intros _ ->. lia.
    + destruct Hdone as [Ha Hdelay].
      split; [intros a; by rewrite Ha|].
      split; [rewrite Hdelay; by intros [? [=]]|].
      split; [done|]. intros _ ->. lia.
  - specialize (Hactive Hge) as [Ha Hdelay]. clear Hdone.
    split; [intros a; by rewrite Ha|].
    split; [rewrite Hdelay; by intros [? [=]]|].
    split.
    + intros Hstatus. apply lookup_lt_Some in Hi.
      rewrite (ok_turns s Hok) in Hi.
      pose proof (ok_awaiting s Hok) as Haw.
      destruct (awaitingFollowUp s); [specialize (Haw eq_refl); congruence|lia].
    + intros Hw ->. split; [|done].
      destruct (ok_active s Hok Hw) as (active & Hlast & Hfq).
      pose proof (ok_turns s Hok) as Hlen. rewrite Hw in Hlen.
      rewrite (last_lookup_active _ _ _ Hlen Hlast) in Hi. by injection Hi as <-.
Qed.

Lemma recorded_turns_are_well_formed_witness :
  let turn := closedTurn
                (mainTurn "Tell me about yourself and your current backend focus."
                   "I build payment APIs." (Some "Why?") 2.5%float)
                "Because I like them." 5%float in
  answer turn ≠ "" ∧ answeredFollowUp turn.
Proof.
  destruct (recorded_turns_are_well_formed completedStore "s-1" completedSession 0
              (closedTurn
                 (mainTurn "Tell me about yourself and your current backend focus."
                    "I build payment APIs." (Some "Why?") 2.5%float)
                 "Because I like them." 5%float))
    as (Hanswer & _ & _ & _ & Hcompleted & _).
  - apply completedStore_reachable.
  - vm_compute. reflexivity.
  - reflexivity.
  - split; [exact Hanswer|]. apply Hcompleted; reflexivity.
Defined.

Lemma computeTimingSummary_total turns :
  totalTurns (computeTimingSummary turns) = length (recordedDelays turns)
  ∧ longPausesCount (computeTimingSummary turns) = countLongPauses (recordedDelays turns).
Proof.
  unfold computeTimingSummary. simpl.
  by rewrite recordedDelays_flat_map, countLongPauses_filter.
Qed.

Lemma answeredFollowUps_asked (l : list SessionTurn) :
  (∀ i turn, l !! i = Some turn →
     if askedFollowUp turn then answeredFollowUp turn else openTurn turn) →
  answeredFollowUps l = length (List.filter askedFollowUp l).
Proof.
  unfold answeredFollowUps.
  induction l as [|turn rest IH]; intros Hall; [done|]. simpl.
  pose proof (Hall 0 turn eq_refl) as Hturn.
  assert (length (List.filter
                    (λ turn0, bool_decide (is_Some (followUpResponseDelaySec turn0))) rest)
          = length (List.filter askedFollowUp rest)) as Hrest.
  { apply IH. intros i turn' Hi. apply (Hall (S i) turn' Hi). }
  destruct (askedFollowUp turn).
  - destruct Hturn as [_ Hdelay]. rewrite bool_decide_eq_true_2 by done.
    simpl. by rewrite Hrest.
  - destruct Hturn as [_ Hdelay]. rewrite Hdelay.
    rewrite bool_decide_eq_false_2 by (by intros [? [=]]). done.
Qed.

(** X7: a completed session in a state of the system stores the timing
    summary computed from its own turns, whatever summary the coach sent
    back, and the total it counts is the number of questions plus the
    number of follow-ups asked. *)
Theorem completed_session_stores_its_timing st k s :
  reachable st → st !! k = Some s → status s = completed →
  ∃ fb, result s = Some fb
        ∧ timingSummary fb = computeTimingSummary (turns s)
        ∧ length (turns s) = length (questions s)
        ∧ totalTurns (timingSummary fb)
          = length (questions s) + length (List.filter askedFollowUp (turns s)).
Proof.
  intros Hreach Hk Hstatus.
  destruct (reachable_ok st Hreach k s Hk) as [_ Hok].
  pose proof (reachable_kept st Hreach k s Hk) as Hkept.
  destruct (kept_timing s Hkept Hstatus) as (fb & Hfb & Htiming).
  exists fb. split; [done|]. split; [done|].
  assert (awaitingFollowUp s = false) as Hw.
  { pose proof (ok_awaiting s Hok) as Haw.
    destruct (awaitingFollowUp s); [specialize (Haw eq_refl); congruence|done]. }
  pose proof (ok_turns s Hok) as Hlen. rewrite Hw, (ok_completed s Hok Hstatus) in Hlen.
  split; [lia|].
  rewrite Htiming.
  destruct (computeTimingSummary_total (turns s)) as [-> _].
  rewrite length_recordedDelays, answeredFollowUps_asked; [lia|].
  intros i turn Hi. apply (kept_done s Hkept i turn Hi).
  apply lookup_lt_Some in Hi. rewrite (ok_completed s Hok Hstatus). lia.
Qed.

Lemma response_agrees_with_views_witness :
  SubmitAnswerResult.sessionId askedResponse = "s-1"
  ∧ (∃ view, (GetCurrentPromptUseCase.execute "s-1" askedStore).2 = inr view
       ∧ CurrentPromptResult.prompt view = SubmitAnswerResult.nextPrompt askedResponse
       ∧ CurrentPromptResult.promptType view = SubmitAnswerResult.promptType askedResponse
       ∧ CurrentPromptResult.status view = SubmitAnswerResult.status askedResponse)
  ∧ (∃ view, (GetSessionResultUseCase.execute "s-1" askedStore).2 = inr view
       ∧ SessionResultView.status view = SubmitAnswerResult.status askedResponse
       ∧ SessionResultView.result view = SubmitAnswerResult.result askedResponse).
Proof.
  apply (response_agrees_with_views createdStore askingEnv
           (textAnswer "s-1" "I build payment APIs." (Some 2.5%float))
           askedStore askedResponse).
  - apply createdStore_reachable.
  - vm_compute. reflexivity.
Defined.

Lemma accepted_submission_makes_progress_witness :
  ∃ s s',
    createdStore !! "s-1" = Some s
    ∧ askedStore !! "s-1" = Some s'
    ∧ progress s < progress s' ≤ progress s + 2
    ∧ progress s' ≤ 2 * length (questions s)
    ∧ (status s' = completed ↔ progress s' = 2 * length (questions s)).
Proof.
  apply (accepted_submission_makes_progress createdStore askingEnv
           (textAnswer "s-1" "I build payment APIs." (Some 2.5%float))
           askedStore askedResponse).
  - apply createdStore_reachable.
  - vm_compute. reflexivity.
Defined.

Lemma completed_session_stores_its_timing_witness :
  ∃ fb, result completedSession = Some fb
        ∧ timingSummary fb = computeTimingSummary (turns completedSession)
        ∧ length (turns completedSession) = length (questions completedSession)
        ∧ totalTurns (timingSummary fb)
          = length (questions completedSession)
            + length (List.filter askedFollowUp (turns completedSession)).
Proof.
  apply (completed_session_stores_its_timing completedStore "s-1" completedSession).
  - apply completedStore_reachable.
  - vm_compute. reflexivity.
  - reflexivity.
Defined.

(** ** Counts of the timing summary *)

Lemma countLongPauses_le delays : countLongPauses delays ≤ length delays.
Proof.
  induction delays as [|delay rest IH]; [done|]. simpl.
  destruct (4 <? delay)%float; lia.
Qed.

Lemma answeredFollowUps_le turns : answeredFollowUps turns ≤ length turns.
Proof.
  unfold answeredFollowUps.
  induction turns as [|turn rest IH]; [done|]. simpl.
  destruct (bool_decide _); simpl; lia.
Qed.

(** X8: the total of a timing summary lies between the number of turns and
    twice that number, its long pauses are at most its total, the total is
    0 only for no turns at all, and then the average is 0. *)
Theorem timing_summary_counts turns :
  let summary := computeTimingSummary turns in
  length turns ≤ totalTurns summary ≤ 2 * length turns
  ∧ longPausesCount summary ≤ totalTurns summary
  ∧ (totalTurns summary = 0 ↔ turns = [])
  ∧ (turns = [] → avgResponseDelaySec summary = 0%float).
Proof.
  intros summary. subst summary.
  destruct (computeTimingSummary_total turns) as [-> ->].
  rewrite length_recordedDelays.
  pose proof (answeredFollowUps_le turns) as Hle.
  split; [lia|]. split.
  - rewrite <- length_recordedDelays. apply countLongPauses_le.
  - split; [|by intros ->].
    split; [|by intros ->].
    destruct turns; [done|simpl; lia].
Qed.

(** ** A session just created *)

(** X9: once a session is created, the prompt use case shows its first
    question, which is the first of the catalog, as number 1 of the clamped
    count; the result use case shows it in progress with no result; and
    the other sessions are stored as before. *)
Theorem created_session_is_prompted uuid now input st :
  let st' := (CreateSessionUseCase.execute uuid now input st).1 in
  (GetCurrentPromptUseCase.execute uuid st').2
  = inr {| CurrentPromptResult.sessionId := uuid;
           CurrentPromptResult.status := in_progress;
           CurrentPromptResult.prompt := QUESTION_BANK !! 0;
           CurrentPromptResult.promptType := PromptType.question;
           CurrentPromptResult.questionNumber := 1;
           CurrentPromptResult.totalQuestions :=
             Z.to_nat (clampedCount (CreateSessionInput.questionCount input)) |}
  ∧ (GetSessionResultUseCase.execute uuid st').2
    = inr {| SessionResultView.sessionId := uuid;
             SessionResultView.status := in_progress;
             SessionResultView.result := None |}
  ∧ ∀ k, k ≠ uuid → st' !! k = st !! k.
Proof.
  intros st'. subst st'.
  unfold CreateSessionUseCase.execute, GetCurrentPromptUseCase.execute,
    GetSessionResultUseCase.execute. unfold_M. simpl.
  rewrite lookup_insert_eq. simpl.
  pose proof (clampedCount_range (CreateSessionInput.questionCount input)) as Hrange.
  rewrite clampedCount_max_min, slice_prefix by lia.
  split; [|split; [done|]].
  - rewrite length_take.
    change (Z.of_nat (length QUESTION_BANK)) with 10%Z in Hrange.
    change (length QUESTION_BANK) with 10.
    rewrite lookup_take_lt by lia.
    do 3 f_equal. lia.
  - intros k Hne. by rewrite lookup_insert_ne.
Qed.

(** ** Trimming *)

Lemma trimStart_fixed s : Str.startsWithWhiteSpace s = false → Str.trimStart s = s.
Proof.
  destruct s as [|a [|b [|c rest]]]; simpl; try done.
  - rewrite orb_false_r. by intros ->.
  - rewrite orb_false_r. intros [-> ->]%orb_false_elim. done.
  - intros [-> [-> ->]%orb_false_elim]%orb_false_elim. done.
Qed.

Lemma trimStart_starts s : Str.startsWithWhiteSpace (Str.trimStart s) = false.
Proof.
  assert (∀ n s, String.length s ≤ n →
            Str.startsWithWhiteSpace (Str.trimStart s) = false) as Hall.
  { clear s. induction n as [|n IH]; intros s Hn.
    - destruct s; [done|simpl in Hn; lia].
    - destruct s as [|a rest1]; [done|]. simpl in Hn. simpl Str.trimStart.
      destruct (Str.isWhiteSpace1 a) eqn:Ha; [apply IH; lia|].
      destruct rest1 as [|b rest2]; [by simpl; rewrite Ha|]. simpl in Hn.
      destruct (Str.isWhiteSpace2 a b) eqn:Hb; [apply IH; lia|].
      destruct rest2 as [|c rest3]; [by simpl; rewrite Ha, Hb|]. simpl in Hn.
      destruct (Str.isWhiteSpace3 a b c) eqn:Hc; [apply IH; lia|].
      simpl. by rewrite Ha, Hb, Hc. }
  by apply (Hall (String.length s)).
Qed.

Lemma trimEnd_cons a s :
  Str.trimEnd (String a s)
  = if Str.isWhiteSpace (String a (Str.trimEnd s)) then ""
    else String a (Str.trimEnd s).
Proof. reflexivity. Qed.

Lemma trimEnd_prefix s : ∃ rest, s = (Str.trimEnd s ++ rest)%string.
Proof.
  induction s as [|a s [rest IH]]; [by exists ""|]. rewrite trimEnd_cons.
  destruct (Str.isWhiteSpace (String a (Str.trimEnd s))).
  - by exists (String a s).
  - exists rest. change (String a s = String a (Str.trimEnd s ++ rest)%string).
    by f_equal.
Qed.

Lemma startsWithWhiteSpace_prefix s rest :
  Str.startsWithWhiteSpace (s ++ rest)%string = false → Str.startsWithWhiteSpace s = false.
Proof.
  destruct s as [|a [|b [|c s]]]; simpl; try done.
  - intros Hs. apply orb_false_elim in Hs as [-> _]. done.
  - intros Hs. apply orb_false_elim in Hs as [-> Hs]. simpl.
    destruct rest; [done|]. apply orb_false_elim in Hs as [-> _]. done.
Qed.

Lemma trimEnd_idempotent s : Str.trimEnd (Str.trimEnd s) = Str.trimEnd s.
Proof.
  induction s as [|a s IH]; [done|]. rewrite trimEnd_cons.
  destruct (Str.isWhiteSpace (String a (Str.trimEnd s))) eqn:Hkept; [done|].
  by rewrite trimEnd_cons, IH, Hkept.
Qed.

Lemma trim_idempotent s : Str.trim (Str.trim s) = Str.trim s.
Proof.
  unfold Str.trim. pose proof (trimStart_starts s) as Hstart.
  destruct (trimEnd_prefix (Str.trimStart s)) as [rest Hrest].
  rewrite Hrest in Hstart at 1. apply startsWithWhiteSpace_prefix in Hstart.
  rewrite (trimStart_fixed _ Hstart). apply trimEnd_idempotent.
Qed.

Lemma trim_clean s : Str.nonEmpty (Str.trim s) = true → clean (Str.trim s).
Proof. intros Hs. split; [by apply nonEmpty_true|apply trim_idempotent]. Qed.

(** ** Speech synthesis *)

Lemma trim_nonEmpty s : Str.nonEmpty (Str.trim s) = true → Str.nonEmpty s = true.
Proof. by destruct s. Qed.

(** X10: the speech use case rejects a text that is empty or blank with a
    [ValidationError], whatever the service would do; any other text goes to
    the service as it is, untrimmed, and what comes back is returned as
    [audio/mpeg], a failure of the service being passed on. *)
Theorem blank_text_is_not_synthesized synthesize text :
  (Str.trim text = "" →
   SynthesizeSpeechUseCase.execute synthesize text
   = inl (ValidationError "Text must not be empty."))
  ∧ (Str.trim text ≠ "" →
     SynthesizeSpeechUseCase.execute synthesize text
     = match synthesize text with
       | inr audio => inr (audio, "audio/mpeg")
       | inl message => inl (ServiceError message)
       end)
  ∧ (∀ audio mimeType,
       SynthesizeSpeechUseCase.execute synthesize text = inr (audio, mimeType) →
       mimeType = "audio/mpeg" ∧ synthesize text = inr audio ∧ Str.trim text ≠ "").
Proof.
  unfold SynthesizeSpeechUseCase.execute.
  destruct (Str.nonEmpty (Str.trim text)) eqn:Htrim.
  - rewrite (trim_nonEmpty text Htrim). simpl. apply nonEmpty_true in Htrim.
    split; [done|]. split; [done|].
    intros audio mimeType. destruct (synthesize text); [done|].
    by intros [= <- <-].
  - rewrite andb_false_r. apply nonEmpty_false in Htrim. by repeat split.
Qed.

Lemma blank_text_is_not_synthesized_witness :
  SynthesizeSpeechUseCase.execute (λ _, inr []) nbsp
  = inl (ValidationError "Text must not be empty.").
Proof.
  apply (proj1 (blank_text_is_not_synthesized (λ _, inr []) nbsp)). reflexivity.
Defined.

(** ** The speech-to-text adapter *)

Lemma extractTranscriptText_clean transcript :
  OpenAISpeechToTextService.extractTranscriptText transcript = ""
  ∨ clean (OpenAISpeechToTextService.extractTranscriptText transcript).
Proof.
  unfold OpenAISpeechToTextService.extractTranscriptText.
  destruct (negb (Js.truthy transcript) || negb (Js.isObject transcript)); [by left|].
  assert (∀ fromSegments : string,
            (fromSegments = "" ∨ clean fromSegments) →
            match Js.get transcript "text" with
            | JsString maybeText =>
                if Str.nonEmpty (Str.trim maybeText) then Str.trim maybeText
                else fromSegments
            | _ => fromSegments
            end = ""
            ∨ clean match Js.get transcript "text" with
                    | JsString maybeText =>
                        if Str.nonEmpty (Str.trim maybeText) then Str.trim maybeText
                        else fromSegments
                    | _ => fromSegments
                    end) as Htext.
  { intros fromSegments Hfrom. destruct (Js.get transcript "text"); try done.
    destruct (Str.nonEmpty (Str.trim s)) eqn:Hs; [|done].
    right. by apply trim_clean. }
  apply Htext.
  destruct (Js.get transcript "segments"); try by left.
  match goal with |- context [Str.nonEmpty (Str.trim ?joined)] =>
    destruct (Str.nonEmpty (Str.trim joined)) eqn:Hjoined end; [|by left].
  right. by apply trim_clean.
Qed.

Lemma transcribe_clean host audio mimeType text :
  OpenAISpeechToTextService.transcribe host audio mimeType = inr text → clean text.
Proof.
  unfold OpenAISpeechToTextService.transcribe.
  destruct (audioTranscriptionsCreate host _) as [message|transcript]; [done|].
  destruct (extractTranscriptText_clean transcript) as [Hempty|Hclean].
  - by rewrite Hempty.
  - destruct (Str.nonEmpty _); [|done]. by intros [= <-].
Qed.

(** X11: the speech-to-text adapter returns a text that is not empty and
    has nothing left to trim, or throws; it throws "empty transcription from
    STT" when the service's answer holds no text; so a submission served by
    it never fails with "Transcription returned empty text.". *)
Theorem transcription_is_never_blank host decode :
  (∀ audio mimeType text,
     OpenAISpeechToTextService.transcribe host audio mimeType = inr text →
     text ≠ "" ∧ Str.trim text = text)
  ∧ (∀ audio mimeType transcript,
       audioTranscriptionsCreate host
         {| transcriptionModel := STT_MODEL host;
            file := {| fileData := audio;
                       fileName := "answer."
                         ++ OpenAISpeechToTextService.extensionFromMimeType mimeType;
                       fileType := mimeType |} |} = inr transcript →
       OpenAISpeechToTextService.extractTranscriptText transcript = "" →
       OpenAISpeechToTextService.transcribe host audio mimeType
       = inl "empty transcription from STT")
  ∧ (∀ input st,
       (SubmitAnswerUseCase.execute (openAIEnv host decode) input st).2
       ≠ inl (ValidationError "Transcription returned empty text.")).
Proof.
  split; [intros audio mimeType text; apply transcribe_clean|]. split.
  { intros audio mimeType transcript Hcall Hempty.
    unfold OpenAISpeechToTextService.transcribe. by rewrite Hcall, Hempty. }
  intros input st.
  set (env := openAIEnv host decode).
  destruct (st !! SubmitAnswerInput.sessionId input) as [s|] eqn:Hs.
  2:{ by rewrite (execute_missing env input st Hs). }
  destruct (status s) eqn:Hstatus.
  2:{ by rewrite (execute_completed env input st s Hs Hstatus). }
  rewrite (execute_in_progress env input st s Hs Hstatus).
  destruct (SubmitAnswerUseCase.normalizeDelay _) as [e|d] eqn:Hnorm.
  { unfold SubmitAnswerUseCase.normalizeDelay in Hnorm.
    repeat case_match; simplify_eq; done. }
  destruct (SubmitAnswerUseCase.resolveTranscript env input st).2 as [e|t] eqn:Hres.
  { simpl. intros [= ->]. revert Hres.
    destruct (textGiven_dec input) as [(text & Htext & Htrim)|Hno].
    - by rewrite (textGiven_resolves env input text st Htext Htrim).
    - rewrite (not_textGiven_resolves env input st Hno).
      destruct (transcribeAudio_cases env input st)
        as [[_ ->]
           |[(audio & _ & _ & ->)
            |[(audio & message & _ & _ & _ & ->)
             |[(audio & transcript & _ & _ & Hcall & Hblank & ->)
              |(audio & transcript & _ & _ & _ & _ & ->)]]]]; try done.
      apply transcribe_clean in Hcall as [Hne Htrim]. congruence. }
  intros Hrun.
  assert (failureOf (ValidationError "Transcription returned empty text.")
          ≠ InvalidInput); [|done].
  destruct (awaitingFollowUp s).
  - by apply (submitFollowUpAnswer_failure env s t d st).
  - by apply (submitMainAnswer_failure env s t d st).
Qed.

(** ** The coach adapter *)

Lemma slice_take {A} (l : list A) (n : nat) :
  slice l 0 (Z.of_nat n) = take n l.
Proof.
  assert ((Z.of_nat n <? 0)%Z = false) as Hn by (apply Z.ltb_ge; lia).
  unfold slice. cbv beta zeta. rewrite Hn. change (0 <? 0)%Z with false.
  cbv beta iota. rewrite (Z.min_l 0) by lia. rewrite Z.sub_0_r.
  change (Z.to_nat 0) with 0. rewrite drop_0.
  destruct (decide (n ≤ length l)) as [Hle|Hgt].
  - rewrite Z.min_l by lia. by rewrite Nat2Z.id.
  - rewrite Z.min_r by lia. rewrite Nat2Z.id. by rewrite !take_ge by lia.
Qed.

Lemma trimmedText_trimmed host value text :
  trimmedText host value = Some text → Str.trim text = text.
Proof.
  unfold trimmedText. destruct (Js.toString _ _); [|done].
  intros [= <-]. apply trim_idempotent.
Qed.

Lemma length_filter_le {A} (f : A → bool) (l : list A) :
  length (List.filter f l) ≤ length l.
Proof. induction l as [|x l IH]; [done|]. simpl. destruct (f x); simpl; lia. Qed.

Lemma normalizeCorrections_spec host value items :
  OpenAIInterviewCoachService.normalizeCorrections host value = Some items →
  length items ≤ 8
  ∧ (∀ item, item ∈ items →
       clean (original item) ∧ clean (corrected item) ∧ clean (reason item))
  ∧ (∀ array, value = JsArray array → length items ≤ length array).
Proof.
  unfold OpenAIInterviewCoachService.normalizeCorrections.
  destruct value as [| | | | |array|];
    try solve [intros [= <-]; split; [simpl; lia|];
               split; [intros ? Hin; by apply elem_of_nil in Hin|by intros ? [=]]].
  match goal with |- context [mapM ?f ?l] =>
    destruct (mapM f l) as [mapped|] eqn:Hmapped end; [|done]. simpl.
  intros [= <-]. change 8%Z with (Z.of_nat 8). rewrite slice_take.
  apply mapM_Some in Hmapped.
  split; [rewrite length_take; lia|]. split.
  - intros item Hitem. apply elem_of_take in Hitem as (i & Hi & _).
    apply list_elem_of_lookup_2 in Hi. apply list_elem_of_In in Hi.
    apply List.filter_In in Hi as [Hin Hkeep].
    apply andb_prop in Hkeep as [Hkeep Hreason].
    apply andb_prop in Hkeep as [Horiginal Hcorrected].
    apply list_elem_of_In, list_elem_of_lookup in Hin as [j Hj].
    destruct (Forall2_lookup_r _ _ _ _ _ Hmapped Hj) as (source & _ & Hitem).
    destruct (trimmedText host (Js.get source "original")) as [o|] eqn:Ho; [|done].
    destruct (trimmedText host (Js.get source "corrected")) as [c|] eqn:Hc; [|done].
    destruct (trimmedText host (Js.get source "reason")) as [r|] eqn:Hr; [|done].
    simpl in Hitem. injection Hitem as <-. simpl in *.
    apply nonEmpty_true in Horiginal, Hcorrected, Hreason.
    repeat split; try done; by eapply trimmedText_trimmed.
  - intros array' [= <-]. rewrite length_take.
    pose proof (length_filter_le
                  (λ item, Str.nonEmpty (original item) && Str.nonEmpty (corrected item)
                           && Str.nonEmpty (reason item)) mapped) as Hle.
    apply Forall2_length in Hmapped.
    pose proof (length_filter_le (λ item, Js.truthy item && Js.isObject item) array).
    lia.
Qed.

Lemma normalizeTips_spec host value tips :
  OpenAIInterviewCoachService.normalizeTips host value = Some tips →
  length tips ≤ 3 ∧ (∀ tip, tip ∈ tips → clean tip)
  ∧ (∀ array, value = JsArray array → length tips ≤ length array).
Proof.
  unfold OpenAIInterviewCoachService.normalizeTips.
  destruct value as [| | | | |array|];
    try solve [intros [= <-]; split; [simpl; lia|];
               split; [intros ? Hin; by apply elem_of_nil in Hin|by intros ? [=]]].
  match goal with |- context [mapM ?f ?l] =>
    destruct (mapM f l) as [mapped|] eqn:Hmapped end; [|done]. simpl.
  intros [= <-]. change 3%Z with (Z.of_nat 3). rewrite slice_take.
  apply mapM_Some in Hmapped.
  split; [rewrite length_take; lia|]. split.
  - intros tip Htip. apply elem_of_take in Htip as (i & Hi & _).
    apply list_elem_of_lookup_2 in Hi. apply list_elem_of_In in Hi.
    apply List.filter_In in Hi as [Hin Hkeep].
    apply list_elem_of_In, list_elem_of_lookup in Hin as [j Hj].
    destruct (Forall2_lookup_r _ _ _ _ _ Hmapped Hj) as (source & _ & Htip).
    split; [by apply nonEmpty_true|by eapply trimmedText_trimmed].
  - intros array' [= <-]. rewrite length_take.
    pose proof (length_filter_le Str.nonEmpty mapped) as Hle.
    apply Forall2_length in Hmapped. lia.
Qed.

(** ** What the coach adapter hands to the use cases *)

Lemma normalizeImprovedAnswer_trimmed host value improved :
  OpenAIInterviewCoachService.normalizeImprovedAnswer host value = Some improved →
  Str.trim (improvedQuestion improved) = improvedQuestion improved
  ∧ Str.trim (improvedAnswer improved) = improvedAnswer improved.
Proof.
  unfold OpenAIInterviewCoachService.normalizeImprovedAnswer.
  destruct (negb (Js.truthy value) || negb (Js.isObject value)).
  - by intros [= <-].
  - destruct (trimmedText host (Js.get value "question")) as [q|] eqn:Hq; [|done].
    destruct (trimmedText host (Js.get value "answer")) as [a|] eqn:Ha; [|done].
    simpl. intros [= <-]. simpl. split; by eapply trimmedText_trimmed.
Qed.

Lemma generateInterviewerReply_followUp host q a reply fq :
  OpenAIInterviewCoachService.generateInterviewerReply host q a = inr reply →
  replyFollowUpQuestion reply = Some fq → clean fq.
Proof.
  unfold OpenAIInterviewCoachService.generateInterviewerReply.
  destruct (chatCompletionsCreate host _) as [message|completion]; [done|].
  cbv zeta.
  match goal with |- context [OpenAIInterviewCoachService.safeJson host ?c] =>
    generalize (OpenAIInterviewCoachService.safeJson host c) end.
  intros parsed Hreply Hfq.
  assert (match Js.get parsed "followUpQuestion" with
          | JsString text =>
              if Str.nonEmpty (Str.trim text) then Some (Str.trim text) else None
          | _ => None
          end = Some fq) as Hget.
  { destruct parsed; try done; injection Hreply as <-; exact Hfq. }
  destruct (Js.get parsed "followUpQuestion") as [| | | |text| |]; try done.
  destruct (Str.nonEmpty (Str.trim text)) eqn:Htext; [|done].
  injection Hget as <-. by apply trim_clean.
Qed.

Lemma generateFollowUpClose_clean host q a fq fa text :
  OpenAIInterviewCoachService.generateFollowUpClose host q a fq fa = inr text →
  clean text.
Proof.
  unfold OpenAIInterviewCoachService.generateFollowUpClose.
  destruct (chatCompletionsCreate host _) as [message|[content|]]; [done| |].
  - destruct (Str.nonEmpty (Str.trim content)) eqn:Hcontent; intros [= <-].
    + by apply trim_clean.
    + by split.
  - intros [= <-]. by split.
Qed.

Lemma generateFeedback_spec host timing transcript fb :
  OpenAIInterviewCoachService.generateFeedback host timing transcript = inr fb →
  timingSummary fb = timing
  ∧ length (corrections fb) ≤ 8
  ∧ length (interviewTips fb) ≤ 3
  ∧ (∀ item, item ∈ corrections fb →
       clean (original item) ∧ clean (corrected item) ∧ clean (reason item))
  ∧ (∀ tip, tip ∈ interviewTips fb → clean tip)
  ∧ Str.trim (improvedQuestion (improvedBestAnswer fb))
    = improvedQuestion (improvedBestAnswer fb)
  ∧ Str.trim (improvedAnswer (improvedBestAnswer fb))
    = improvedAnswer (improvedBestAnswer fb).
Proof.
  unfold OpenAIInterviewCoachService.generateFeedback.
  destruct (chatCompletionsCreate host _) as [message|completion]; [done|].
  cbv zeta.
  match goal with |- context [OpenAIInterviewCoachService.safeJson host ?c] =>
    generalize (OpenAIInterviewCoachService.safeJson host c) end.
  intros parsed Hfb.
  assert (∃ cs improved tips,
            OpenAIInterviewCoachService.normalizeCorrections host
              (Js.get parsed "corrections") = Some cs
            ∧ OpenAIInterviewCoachService.normalizeImprovedAnswer host
                (Js.get parsed "improvedBestAnswer") = Some improved
            ∧ OpenAIInterviewCoachService.normalizeTips host
                (Js.get parsed "interviewTips") = Some tips
            ∧ fb = {| timingSummary := timing; corrections := cs;
                      improvedBestAnswer := improved; interviewTips := tips |})
    as (cs & improved & tips & Hcs & Himproved & Htips & ->).
  { destruct parsed; try done;
      destruct (OpenAIInterviewCoachService.normalizeCorrections host _) as [cs|];
      try done;
      destruct (OpenAIInterviewCoachService.normalizeImprovedAnswer host _)
        as [improved|]; try done;
      destruct (OpenAIInterviewCoachService.normalizeTips host _) as [tips|];
      try done;
      injection Hfb as <-; by exists cs, improved, tips. }
  simpl.
  destruct (normalizeCorrections_spec _ _ _ Hcs) as (Hlen & Hitems & _).
  destruct (normalizeTips_spec _ _ _ Htips) as (Hlen' & Htip & _).
  destruct (normalizeImprovedAnswer_trimmed _ _ _ Himproved) as [Hq Ha].
  done.
Qed.

(** X12: [normalizeCorrections] keeps at most eight corrections, never more
    than the array holds; each one kept has an original, a corrected text and
    a reason that are not empty and have nothing left to trim. *)
Theorem corrections_are_capped_and_clean host value items :
  OpenAIInterviewCoachService.normalizeCorrections host value = Some items →
  length items ≤ 8
  ∧ (∀ item, item ∈ items →
       clean (original item) ∧ clean (corrected item) ∧ clean (reason item))
  ∧ (∀ array, value = JsArray array → length items ≤ length array)
  ∧ ((∀ array, value ≠ JsArray array) → items = []).
Proof.
  intros Hitems.
  destruct (normalizeCorrections_spec _ _ _ Hitems) as (Hlen & Hclean & Harray).
  repeat split; try done; try by apply Hclean.
  intros Hother.
  destruct value as [| | | | |array|]; try (by injection Hitems as <-).
  by destruct (Hother array).
Qed.

Lemma corrections_are_capped_and_clean_witness :
  ∃ items,
    OpenAIInterviewCoachService.normalizeCorrections (sampleHost "" None JsNull)
      (Js.get sampleFeedbackJson "corrections") = Some items
    ∧ length items = 8
    ∧ (∀ item, item ∈ items →
         clean (original item) ∧ clean (corrected item) ∧ clean (reason item)).
Proof.
  eexists.
  match goal with |- ?run = ?out ∧ _ =>
    assert (run = out) as Hrun by (vm_compute; reflexivity) end.
  split; [exact Hrun|]. split; [reflexivity|].
  intros item Hitem.
  by apply (corrections_are_capped_and_clean (sampleHost "" None JsNull)
              (Js.get sampleFeedbackJson "corrections") _ Hrun).
Defined.

(** X13: [normalizeTips] keeps at most three tips, never more than the array
    holds; each tip kept is not empty and has nothing left to trim; a value
    that is no array gives no tip. *)
Theorem tips_are_capped_and_clean host value tips :
  OpenAIInterviewCoachService.normalizeTips host value = Some tips →
  length tips ≤ 3
  ∧ (∀ tip, tip ∈ tips → clean tip)
  ∧ (∀ array, value = JsArray array → length tips ≤ length array)
  ∧ ((∀ array, value ≠ JsArray array) → tips = []).
Proof.
  intros Htips.
  destruct (normalizeTips_spec _ _ _ Htips) as (Hlen & Hclean & Harray).
  repeat split; try done; try by apply Hclean.
  intros Hother.
  destruct value as [| | | | |array|]; try (by injection Htips as <-).
  by destruct (Hother array).
Qed.

Lemma tips_are_capped_and_clean_witness :
  ∃ tips,
    OpenAIInterviewCoachService.normalizeTips (sampleHost "" None JsNull)
      (Js.get sampleFeedbackJson "interviewTips") = Some tips
    ∧ length tips = 3
    ∧ (∀ tip, tip ∈ tips → clean tip).
Proof.
  eexists.
  match goal with |- ?run = ?out ∧ _ =>
    assert (run = out) as Hrun by (vm_compute; reflexivity) end.
  split; [exact Hrun|]. split; [reflexivity|].
  intros tip Htip.
  by apply (tips_are_capped_and_clean (sampleHost "" None JsNull)
              (Js.get sampleFeedbackJson "interviewTips") _ Hrun).
Defined.

(** X14: the reply of [generateInterviewerReply] carries a follow-up
    question only as a text that is not empty and has nothing left to trim;
    when the model's content does not parse, the reply is the default
    sentence with no follow-up. *)
Theorem interviewer_reply_is_normalized host q a reply :
  OpenAIInterviewCoachService.generateInterviewerReply host q a = inr reply →
  (∀ fq, replyFollowUpQuestion reply = Some fq → clean fq)
  ∧ (∀ text,
       chatCompletionsCreate host (replyRequest host q a) = inr (Some text) →
       text ≠ "" → jsonParse host text = None → reply = defaultReply).
Proof.
  intros Hreply. split.
  - intros fq. by apply (generateInterviewerReply_followUp host q a).
  - intros text Hchat Htext Hparse. revert Hreply.
    unfold OpenAIInterviewCoachService.generateInterviewerReply.
    change (chatCompletionsCreate host _)
      with (chatCompletionsCreate host (replyRequest host q a)).
    rewrite Hchat. apply nonEmpty_true in Htext. rewrite Htext. cbv zeta.
    unfold OpenAIInterviewCoachService.safeJson. rewrite Hparse. simpl.
    by intros [= <-].
Qed.

Lemma interviewer_reply_is_normalized_witness :
  let host := sampleHost "{}"
                (Some (JsObject [("followUpQuestion", JsString "  Why Rust? ")]))
                JsNull in
  ∃ reply,
    OpenAIInterviewCoachService.generateInterviewerReply host "Q" "A" = inr reply
    ∧ replyFollowUpQuestion reply = Some "Why Rust?"
    ∧ clean "Why Rust?".
Proof.
  cbv zeta. eexists.
  match goal with |- ?run = ?out ∧ _ =>
    assert (run = out) as Hrun by (vm_compute; reflexivity) end.
  split; [exact Hrun|]. split; [reflexivity|].
  by apply (interviewer_reply_is_normalized
              (sampleHost "{}"
                 (Some (JsObject [("followUpQuestion", JsString "  Why Rust? ")]))
                 JsNull) "Q" "A" _ Hrun).
Defined.

Lemma finishes_turns env p s' c : finishes env p s' c → turns s' = turns p.
Proof. by intros [|]. Qed.

Lemma finishes_awaiting env p s' c :
  finishes env p s' c → awaitingFollowUp s' = awaitingFollowUp p.
Proof. by intros [|]. Qed.

Lemma finishes_index env p s' c :
  finishes env p s' c → questionIndex s' = questionIndex p.
Proof. by intros [|]. Qed.

Lemma finishes_feedback env p s' c fb :
  finishes env p s' c → c = Some fb →
  status s' = completed ∧ result s' = Some fb
  ∧ ∃ given,
      generateFeedback env (computeTimingSummary (turns p)) (transcriptOf (turns p))
      = inr given
      ∧ fb = storedFeedback (computeTimingSummary (turns p)) given.
Proof.
  intros [Hlt|given Hle Hgiven]; [done|]. intros [= <-].
  repeat split. by exists given.
Qed.

(** X15: with the OpenAI coach, a main answer that is accepted leaves the
    session awaiting a follow-up exactly when the turn it records carries a
    follow-up question; that question is never blank, it is the pending one
    and the next prompt; otherwise the session moves to the next question. *)
Theorem follow_up_is_asked_as_recorded host decode input st st' res s :
  st !! SubmitAnswerInput.sessionId input = Some s →
  awaitingFollowUp s = false →
  SubmitAnswerUseCase.execute (openAIEnv host decode) input st = (st', inr res) →
  ∃ s' turn,
    st' !! id s = Some s'
    ∧ last (turns s') = Some turn
    ∧ answer turn = SubmitAnswerResult.usedTranscript res
    ∧ match followUpQuestion turn with
      | Some fq =>
          clean fq ∧ allowFollowUps s = true
          ∧ awaitingFollowUp s' = true
          ∧ pendingFollowUpQuestion s' = Some fq
          ∧ questionIndex s' = questionIndex s
          ∧ SubmitAnswerResult.promptType res = PromptType.follow_up
          ∧ SubmitAnswerResult.nextPrompt res = Some fq
      | None =>
          awaitingFollowUp s' = false
          ∧ questionIndex s' = questionIndex s + 1
          ∧ SubmitAnswerResult.promptType res ≠ PromptType.follow_up
      end.
Proof.
  intros Hs Hawaiting Hrun.
  destruct (execute_accepts _ _ _ _ _ Hrun)
    as (s0 & t & d & s' & Hs0 & _ & _ & _ & -> & Haccepts).
  rewrite Hs in Hs0. injection Hs0 as <-.
  exists s'. destruct Haccepts
    as [q reply fq _ _ _ Hreply Hallow Hfq _
       |q reply fu s1 c _ _ _ Hreply Hfu Htruthy Hfinishes
       |turn fq closeText s1 c Htrue].
  - exists (mainTurn q t (Some fq) d). rewrite lookup_insert_eq. simpl.
    rewrite last_snoc.
    pose proof (generateInterviewerReply_followUp host q t reply fq Hreply Hfq)
      as Hclean.
    repeat split; try done; apply Hclean.
  - exists (mainTurn q t fu d). rewrite lookup_insert_eq.
    rewrite (finishes_turns _ _ _ _ Hfinishes),
      (finishes_awaiting _ _ _ _ Hfinishes), (finishes_index _ _ _ _ Hfinishes).
    simpl. rewrite last_snoc. split; [done|]. split; [done|]. split; [done|].
    assert (fu = None) as ->.
    { destruct fu as [fq|]; [|done]. simpl in Htruthy.
      destruct (allowFollowUps s); [|done]. symmetry in Hfu.
      pose proof (generateInterviewerReply_followUp host q t reply fq Hreply Hfu)
        as [Hne _].
      apply nonEmpty_true in Hne. congruence. }
    split; [done|]. split; [done|]. by destruct (isCompleted _).
  - congruence.
Qed.

Lemma follow_up_is_asked_as_recorded_witness :
  let host := sampleHost "{}"
                (Some (JsObject [("replyText", JsString "I see.");
                                 ("followUpQuestion", JsString " Why? ")]))
                JsNull in
  let run := SubmitAnswerUseCase.execute (openAIEnv host list_byte_of_string)
               (textAnswer "s-1" "I build payment APIs." (Some 2.5%float))
               createdStore in
  run.1 = askedStore ∧ run.2 = inr askedResponse
  ∧ ∃ s' turn,
      askedStore !! "s-1" = Some s' ∧ last (turns s') = Some turn
      ∧ followUpQuestion turn = Some "Why?" ∧ awaitingFollowUp s' = true.
Proof.
  cbv zeta. split; [by vm_compute|]. split; [by vm_compute|].
  destruct (follow_up_is_asked_as_recorded
              (sampleHost "{}"
                 (Some (JsObject [("replyText", JsString "I see.");
                                  ("followUpQuestion", JsString " Why? ")]))
                 JsNull)
              list_byte_of_string
              (textAnswer "s-1" "I build payment APIs." (Some 2.5%float))
              createdStore askedStore askedResponse createdSession)
    as (s' & turn & Hs' & Hlast & _ & Hturn).
  - by vm_compute.
  - reflexivity.
  - by vm_compute.
  - exists s', turn. change (id createdSession) with "s-1" in Hs'.
    assert (s' = askedSession) as ->.
    { assert (askedStore !! "s-1" = Some askedSession) as Hlook by (by vm_compute).
      congruence. }
    assert (turn = mainTurn "Tell me about yourself and your current backend focus."
                     "I build payment APIs." (Some "Why?") 2.5%float) as ->.
    { simpl in Hlast. congruence. }
    split; [exact Hs'|]. split; [exact Hlast|]. split; reflexivity.
Defined.

(** X16: the feedback of [generateFeedback] carries the timing summary it
    was given, at most eight corrections and at most three tips, each not
    empty and with nothing left to trim, and an improved answer with nothing
    left to trim; content that does not parse gives the empty feedback. *)
Theorem feedback_is_normalized host timing transcript fb :
  OpenAIInterviewCoachService.generateFeedback host timing transcript = inr fb →
  timingSummary fb = timing
  ∧ length (corrections fb) ≤ 8
  ∧ length (interviewTips fb) ≤ 3
  ∧ (∀ item, item ∈ corrections fb →
       clean (original item) ∧ clean (corrected item) ∧ clean (reason item))
  ∧ (∀ tip, tip ∈ interviewTips fb → clean tip)
  ∧ Str.trim (improvedQuestion (improvedBestAnswer fb))
    = improvedQuestion (improvedBestAnswer fb)
  ∧ Str.trim (improvedAnswer (improvedBestAnswer fb))
    = improvedAnswer (improvedBestAnswer fb)
  ∧ (∀ text,
       chatCompletionsCreate host (feedbackRequest host timing transcript)
       = inr (Some text) →
       text ≠ "" → jsonParse host text = None → fb = emptyFeedback timing).
Proof.
  intros Hfb.
  destruct (generateFeedback_spec _ _ _ _ Hfb)
    as (Htiming & Hcs & Htips & Hitem & Htip & Hq & Ha).
  refine (conj Htiming (conj Hcs (conj Htips (conj Hitem (conj Htip
            (conj Hq (conj Ha _))))))).
  intros text Hchat Htext Hparse. revert Hfb.
  unfold OpenAIInterviewCoachService.generateFeedback.
  change (chatCompletionsCreate host _)
    with (chatCompletionsCreate host (feedbackRequest host timing transcript)).
  rewrite Hchat. apply nonEmpty_true in Htext. rewrite Htext. cbv zeta.
  unfold OpenAIInterviewCoachService.safeJson. rewrite Hparse. simpl.
  by intros [= <-].
Qed.

Lemma feedback_is_normalized_witness :
  ∃ fb,
    OpenAIInterviewCoachService.generateFeedback
      (sampleHost "{}" (Some sampleFeedbackJson) JsNull)
      (computeTimingSummary timedTurns) (transcriptOf timedTurns) = inr fb
    ∧ timingSummary fb = computeTimingSummary timedTurns
    ∧ length (corrections fb) = 8 ∧ length (interviewTips fb) = 3
    ∧ (∀ tip, tip ∈ interviewTips fb → clean tip).
Proof.
  eexists.
  match goal with |- ?run = ?out ∧ _ =>
    assert (run = out) as Hrun by (vm_compute; reflexivity) end.
  split; [exact Hrun|].
  split; [by vm_compute|]. split; [reflexivity|]. split; [reflexivity|].
  intros tip Htip.
  by apply (feedback_is_normalized
              (sampleHost "{}" (Some sampleFeedbackJson) JsNull)
              (computeTimingSummary timedTurns) (transcriptOf timedTurns) _ Hrun).
Defined.

(** X17: content that parses to JSON [null] is not caught by [safeJson],
    which guards the parsing only: [generateInterviewerReply] throws the
    [TypeError] of reading [replyText] of null and [generateFeedback] that
    of reading [corrections]. A main answer served by such a coach fails,
    nothing is stored, and the error handler answers 500 with its fixed
    body. *)
Theorem null_content_is_a_type_error host decode input st s q text :
  text ≠ "" → jsonParse host text = Some JsNull →
  (∀ request, chatCompletionsCreate host request = inr (Some text)) →
  st !! SubmitAnswerInput.sessionId input = Some s →
  status s = in_progress → awaitingFollowUp s = false →
  questions s !! questionIndex s = Some q → q ≠ "" →
  textGiven input → ¬ badDelay input →
  (∀ question answer,
     OpenAIInterviewCoachService.generateInterviewerReply host question answer
     = inl "Cannot read properties of null (reading 'replyText')")
  ∧ (∀ timing transcript,
       OpenAIInterviewCoachService.generateFeedback host timing transcript
       = inl "Cannot read properties of null (reading 'corrections')")
  ∧ SubmitAnswerUseCase.execute (openAIEnv host decode) input st
    = (st, inl (ServiceError
                  "Cannot read properties of null (reading 'replyText')"))
  ∧ Http.errorHandler
      (ServiceError "Cannot read properties of null (reading 'replyText')")
    = {| Http.statusCode := 500; Http.errorBody := "Internal server error" |}.
Proof.
  intros Htext Hparse Hchat Hs Hstatus Hawaiting Hq Hne
    (given & Hgiven & Htrim) Hdelay.
  apply nonEmpty_true in Htext, Hne.
  assert (∀ question answer,
            OpenAIInterviewCoachService.generateInterviewerReply host question answer
            = inl "Cannot read properties of null (reading 'replyText')")
    as Hreply.
  { intros question answer.
    unfold OpenAIInterviewCoachService.generateInterviewerReply.
    rewrite Hchat, Htext. cbv zeta.
    unfold OpenAIInterviewCoachService.safeJson. by rewrite Hparse. }
  split; [exact Hreply|]. split.
  { intros timing transcript. unfold OpenAIInterviewCoachService.generateFeedback.
    rewrite Hchat, Htext. cbv zeta.
    unfold OpenAIInterviewCoachService.safeJson. by rewrite Hparse. }
  split; [|reflexivity].
  rewrite (execute_in_progress _ input st s Hs Hstatus).
  destruct (SubmitAnswerUseCase.normalizeDelay _) as [e|d] eqn:Hnormal.
  { exfalso. apply Hdelay. apply normalizeDelay_invalid. eauto. }
  rewrite (textGiven_resolves _ input given st Hgiven Htrim). simpl.
  rewrite Hawaiting.
  apply (reply_failure (openAIEnv host decode) s (Str.trim given) d q);
    [done|done|apply Hreply].
Qed.

Lemma null_content_is_a_type_error_witness :
  SubmitAnswerUseCase.execute
    (openAIEnv (sampleHost "null" (Some JsNull) JsNull) list_byte_of_string)
    (textAnswer "s-1" "I build payment APIs." None) createdStore
  = (createdStore,
     inl (ServiceError
            "Cannot read properties of null (reading 'replyText')")).
Proof.
  assert (createdStore !! "s-1" = Some createdSession) as Hs by (by vm_compute).
  apply (null_content_is_a_type_error
           (sampleHost "null" (Some JsNull) JsNull) list_byte_of_string
           (textAnswer "s-1" "I build payment APIs." None) createdStore
           createdSession "Tell me about yourself and your current backend focus."
           "null"); try done.
  - exists "I build payment APIs.". split; [reflexivity|]. by vm_compute.
  - intros (value & Hvalue & _). discriminate Hvalue.
Defined.

(** X18: with the OpenAI coach, the feedback a submission returns is the one
    stored with the completed session, and it holds at most eight corrections
    and at most three tips, none of them blank. *)
Theorem returned_feedback_is_capped host decode input st st' res fb :
  SubmitAnswerUseCase.execute (openAIEnv host decode) input st = (st', inr res) →
  SubmitAnswerResult.result res = Some fb →
  length (corrections fb) ≤ 8
  ∧ length (interviewTips fb) ≤ 3
  ∧ (∀ item, item ∈ corrections fb →
       clean (original item) ∧ clean (corrected item) ∧ clean (reason item))
  ∧ (∀ tip, tip ∈ interviewTips fb → clean tip)
  ∧ SubmitAnswerResult.status res = completed
  ∧ ∃ s s',
      st !! SubmitAnswerInput.sessionId input = Some s
      ∧ st' !! id s = Some s'
      ∧ status s' = completed ∧ result s' = Some fb
      ∧ timingSummary fb = computeTimingSummary (turns s').
Proof.
  intros Hrun Hfb.
  destruct (execute_accepts _ _ _ _ _ Hrun)
    as (s & t & d & s' & Hs & _ & _ & _ & -> & Haccepts).
  assert (∃ p c message,
            finishes (openAIEnv host decode) p s' c
            ∧ res = movedOn s' t message c)
    as (p & c & message & Hfinishes & ->).
  { destruct Haccepts as [| |]; [done|by eauto|by eauto]. }
  simpl in Hfb. subst c.
  destruct (finishes_feedback _ _ _ _ _ Hfinishes eq_refl)
    as (Hstatus & Hresult & given & Hgiven & ->).
  destruct (generateFeedback_spec _ _ _ _ Hgiven)
    as (_ & Hcs & Htips & Hitem & Htip & _).
  simpl. rewrite Hstatus.
  refine (conj Hcs (conj Htips (conj Hitem (conj Htip (conj eq_refl _))))).
  exists s, s'. rewrite lookup_insert_eq.
  by rewrite (finishes_turns _ _ _ _ Hfinishes).
Qed.

Lemma returned_feedback_is_capped_witness :
  ∃ st' res fb,
    SubmitAnswerUseCase.execute
      (openAIEnv (sampleHost "{}" (Some sampleFeedbackJson) JsNull)
         list_byte_of_string)
      (textAnswer "s-1" "I build payment APIs." (Some 2.5%float)) createdStore
    = (st', inr res)
    ∧ SubmitAnswerResult.result res = Some fb
    ∧ length (corrections fb) = 8 ∧ length (interviewTips fb) = 3
    ∧ SubmitAnswerResult.status res = completed.
Proof.
  eexists _, _, _.
  match goal with |- ?run = ?out ∧ _ =>
    assert (run = out) as Hrun by (vm_compute; reflexivity) end.
  split; [exact Hrun|]. split; [reflexivity|].
  split; [reflexivity|]. split; [reflexivity|].
  by apply (returned_feedback_is_capped
              (sampleHost "{}" (Some sampleFeedbackJson) JsNull)
              list_byte_of_string
              (textAnswer "s-1" "I build payment APIs." (Some 2.5%float))
              createdStore _ _ _ Hrun eq_refl).
Defined.

(** X19: with the OpenAI coach, the interviewer's message returned for a
    follow-up answer is never blank: it is the text the model sent for the
    recorded exchange, trimmed, or "Thanks for clarifying." when nothing is
    left of it or none was sent; and the prompt returned is never another
    follow-up. *)
Theorem follow_up_acknowledgement_is_never_blank host decode input st st' res s :
  st !! SubmitAnswerInput.sessionId input = Some s →
  awaitingFollowUp s = true →
  SubmitAnswerUseCase.execute (openAIEnv host decode) input st = (st', inr res) →
  clean (SubmitAnswerResult.interviewerMessage res)
  ∧ SubmitAnswerResult.promptType res ≠ PromptType.follow_up
  ∧ ∃ turn fq completion,
      last (turns s) = Some turn
      ∧ followUpQuestion turn = Some fq
      ∧ chatCompletionsCreate host
          (closeRequest host (question turn) (answer turn) fq
             (SubmitAnswerResult.usedTranscript res))
        = inr completion
      ∧ SubmitAnswerResult.interviewerMessage res
        = match completion with
          | Some text =>
              if Str.nonEmpty (Str.trim text) then Str.trim text
              else "Thanks for clarifying."
          | None => "Thanks for clarifying."
          end.
Proof.
  intros Hs Hawaiting Hrun.
  destruct (execute_accepts _ _ _ _ _ Hrun)
    as (s0 & t & d & s' & Hs0 & _ & _ & _ & -> & Haccepts).
  rewrite Hs in Hs0. injection Hs0 as <-.
  destruct Haccepts
    as [q reply fq Hfalse|q reply fu s1 c Hfalse
       |turn fq closeText s1 c _ Hlast Hfq _ Hclose _]; try congruence.
  simpl. split; [by apply (generateFollowUpClose_clean _ _ _ _ _ _ Hclose)|].
  split; [by destruct (isCompleted _)|].
  exists turn, fq. revert Hclose. simpl.
  unfold OpenAIInterviewCoachService.generateFollowUpClose.
  change (chatCompletionsCreate host _)
    with (chatCompletionsCreate host
            (closeRequest host (question turn) (answer turn) fq t)).
  destruct (chatCompletionsCreate host _) as [message|completion]; [done|].
  intros Hclose. exists completion. do 3 (split; [done|]).
  destruct completion as [text|]; [|by injection Hclose].
  destruct (Str.nonEmpty (Str.trim text)); by injection Hclose.
Qed.

Lemma follow_up_acknowledgement_is_never_blank_witness :
  ∃ st' res,
    SubmitAnswerUseCase.execute
      (openAIEnv (sampleHost " Good point. " None JsNull) list_byte_of_string)
      (textAnswer "s-1" "Because it scales." None) askedStore
    = (st', inr res)
    ∧ SubmitAnswerResult.interviewerMessage res = "Good point."
    ∧ clean (SubmitAnswerResult.interviewerMessage res).
Proof.
  eexists _, _.
  match goal with |- ?run = ?out ∧ _ =>
    assert (run = out) as Hrun by (vm_compute; reflexivity) end.
  assert (askedStore !! "s-1" = Some askedSession) as Hs by (by vm_compute).
  split; [exact Hrun|]. split; [reflexivity|].
  by apply (follow_up_acknowledgement_is_never_blank
              (sampleHost " Good point. " None JsNull) list_byte_of_string
              (textAnswer "s-1" "Because it scales." None) askedStore _ _
              askedSession Hs eq_refl Hrun).
Defined.

(** ** What the error handler answers *)

Section Answered.
Import SubmitAnswerUseCase.
Context (env : Env).

(** An error of the application that is no [NotFoundError]. *)
Lemma resolveTranscript_found input st e :
  (resolveTranscript env input st).2 = inl e →
  ∃ message, e = ValidationError message ∨ e = ServiceError message.
Proof.
  destruct (textGiven_dec input) as [(text & Htext & Htrim)|Hno].
  - by rewrite (textGiven_resolves env input text st Htext Htrim).
  - rewrite (not_textGiven_resolves env input st Hno).
    destruct (transcribeAudio_cases env input st)
      as [[_ ->]
         |[(audio & _ & _ & ->)
          |[(audio & message & _ & _ & _ & ->)
           |[(audio & transcript & _ & _ & _ & _ & ->)
            |(audio & transcript & _ & _ & _ & _ & ->)]]]];
      simpl; intros [= <-]; eauto.
Qed.

Lemma submitMainAnswer_found s t d st e :
  (submitMainAnswer env s t d st).2 = inl e →
  ∃ message, e = ValidationError message ∨ e = ServiceError message.
Proof.
  unfold submitMainAnswer.
  destruct (questions s !! questionIndex s) as [q|]; [|intros [= <-]; eauto].
  destruct (Str.nonEmpty q); [|intros [= <-]; eauto].
  unfold_M.
  destruct (generateInterviewerReply env q t) as [message|reply];
    [intros [= <-]; eauto|].
  destruct (Str.truthy _); [done|].
  match goal with |- context [completeIfFinished env ?p st] =>
    destruct (completeIfFinished_run env p st) as [[message ->]|(s' & c & -> & _)] end.
  - intros [= <-]. eauto.
  - done.
Qed.

Lemma submitFollowUpAnswer_found s t d st e :
  (submitFollowUpAnswer env s t d st).2 = inl e →
  ∃ message, e = ValidationError message ∨ e = ServiceError message.
Proof.
  unfold submitFollowUpAnswer.
  destruct (last (turns s)) as [turn|]; [|intros [= <-]; eauto].
  destruct (followUpQuestion turn) as [fq|]; [|intros [= <-]; eauto].
  destruct (Str.nonEmpty fq); [|intros [= <-]; eauto].
  unfold_M.
  destruct (generateFollowUpClose env _ _ _ _) as [message|closeText];
    [intros [= <-]; eauto|].
  match goal with |- context [completeIfFinished env ?p st] =>
    destruct (completeIfFinished_run env p st) as [[message ->]|(s' & c & -> & _)] end.
  - intros [= <-]. eauto.
  - done.
Qed.

Lemma execute_found input st s e :
  st !! SubmitAnswerInput.sessionId input = Some s →
  (execute env input st).2 = inl e →
  ∃ message, e = ValidationError message ∨ e = ServiceError message.
Proof.
  intros Hs. destruct (status s) eqn:Hstatus.
  - rewrite (execute_in_progress env input st s Hs Hstatus).
    destruct (normalizeDelay _) as [e'|d] eqn:Hdelay.
    + intros [= <-]. revert Hdelay. unfold normalizeDelay.
      repeat case_match; intros [= <-]; eauto.
    + destruct (resolveTranscript env input st).2 as [e'|t] eqn:Ht.
      * intros [= <-]. by apply (resolveTranscript_found input st).
      * destruct (awaitingFollowUp s).
        -- apply submitFollowUpAnswer_found.
        -- apply submitMainAnswer_found.
  - rewrite (execute_completed env input st s Hs Hstatus). intros [= <-]. eauto.
Qed.

End Answered.

(** X20: a submission that fails is answered 404 exactly when the session
    does not exist, 500 with the fixed body "Internal server error" exactly
    when a service threw, whose message is not sent, and 400 with the
    message of the [ValidationError] otherwise; the two reading use cases
    fail only for a missing session, answered 404. *)
Theorem failed_submission_is_answered env input st e :
  (SubmitAnswerUseCase.execute env input st).2 = inl e →
  (Http.statusCode (Http.errorHandler e) = 404
   ↔ st !! SubmitAnswerInput.sessionId input = None)
  ∧ (Http.statusCode (Http.errorHandler e) = 404 →
     Http.errorBody (Http.errorHandler e) = "Session not found.")
  ∧ (Http.statusCode (Http.errorHandler e) = 500
     ↔ ∃ message, e = ServiceError message)
  ∧ (Http.statusCode (Http.errorHandler e) = 500 →
     Http.errorBody (Http.errorHandler e) = "Internal server error")
  ∧ (Http.statusCode (Http.errorHandler e) ≠ 404 →
     Http.statusCode (Http.errorHandler e) ≠ 500 →
     Http.statusCode (Http.errorHandler e) = 400
     ∧ e = ValidationError (Http.errorBody (Http.errorHandler e)))
  ∧ (∀ sessionId store e',
       (GetCurrentPromptUseCase.execute sessionId store).2 = inl e'
       ∨ (GetSessionResultUseCase.execute sessionId store).2 = inl e' →
       store !! sessionId = None
       ∧ Http.errorHandler e'
         = {| Http.statusCode := 404; Http.errorBody := "Session not found." |}).
Proof.
  intros Hrun.
  assert (∀ sessionId store e',
            (GetCurrentPromptUseCase.execute sessionId store).2 = inl e'
            ∨ (GetSessionResultUseCase.execute sessionId store).2 = inl e' →
            store !! sessionId = None
            ∧ Http.errorHandler e'
              = {| Http.statusCode := 404; Http.errorBody := "Session not found." |})
    as Hreads.
  { intros sessionId store e'.
    unfold GetCurrentPromptUseCase.execute, GetSessionResultUseCase.execute.
    unfold_M. destruct (store !! sessionId) as [s|]; simpl.
    - repeat case_match; by intros [[=]|[=]].
    - by intros [[= <-]|[= <-]]. }
  destruct (st !! SubmitAnswerInput.sessionId input) as [s|] eqn:Hs.
  - destruct (execute_found env input st s e Hs Hrun) as [message [-> | ->]];
      simpl; repeat apply conj; try exact Hreads; try done;
      try (by intros [? [=]]); eauto.
  - rewrite (execute_missing env input st Hs) in Hrun. injection Hrun as <-.
    simpl. repeat apply conj; try exact Hreads; try done; by intros [? [=]].
Qed.

Lemma failed_submission_is_answered_witness :
  (SubmitAnswerUseCase.execute failingEnv
     (textAnswer "s-1" "I build payment APIs." None) createdStore).2
  = inl (ServiceError "coach unavailable")
  ∧ Http.errorHandler (ServiceError "coach unavailable")
    = {| Http.statusCode := 500; Http.errorBody := "Internal server error" |}
  ∧ createdStore !! "s-1" ≠ None.
Proof.
  split; [by vm_compute|]. split; [reflexivity|].
  destruct (failed_submission_is_answered failingEnv
              (textAnswer "s-1" "I build payment APIs." None) createdStore
              (ServiceError "coach unavailable") ltac:(by vm_compute))
    as [Hmissing _].
  intros Hnone. by apply Hmissing in Hnone.
Defined.

(** ** Completion and the result *)

(** C5: in every state of the system a stored session is completed exactly
    when it has a result. A step leaves a session that has a result as it
    is, and gives a result only to a session that it completes. An accepted
    submission finds its session in progress with no result, and leaves it
    completed exactly when the cursor has reached the end; the session then
    stores the feedback the coach has just generated for its turns, with
    the timing computed here, and the submission returns that result.
    The result use case returns the status and the result of the stored
    session, so no result unless the session is completed. *)
Theorem completed_iff_result st :
  reachable st →
  (∀ k s, st !! k = Some s → (status s = completed ↔ result s ≠ None))
  ∧ (∀ st' k s s', step st st' → st !! k = Some s → st' !! k = Some s' →
       (result s ≠ None → s' = s)
       ∧ (result s = None → result s' ≠ None →
            status s = in_progress ∧ status s' = completed))
  ∧ (∀ env input st' res,
       SubmitAnswerUseCase.execute env input st = (st', inr res) →
       ∃ s s',
         st !! SubmitAnswerInput.sessionId input = Some s
         ∧ st' !! SubmitAnswerInput.sessionId input = Some s'
         ∧ status s = in_progress ∧ result s = None
         ∧ (status s' = completed ↔ questionIndex s' = length (questions s'))
         ∧ SubmitAnswerResult.status res = status s'
         ∧ SubmitAnswerResult.result res = result s'
         ∧ (status s' = completed →
            ∃ fb,
              generateFeedback env (computeTimingSummary (turns s'))
                (transcriptOf (turns s')) = inr fb
              ∧ result s'
                = Some (storedFeedback (computeTimingSummary (turns s')) fb)))
  ∧ (∀ k s, st !! k = Some s →
       GetSessionResultUseCase.execute k st
       = (st, inr {| SessionResultView.sessionId := k;
                     SessionResultView.status := status s;
                     SessionResultView.result := result s |}))
  ∧ (∀ k view, (GetSessionResultUseCase.execute k st).2 = inr view →
       (SessionResultView.status view = completed
        ↔ SessionResultView.result view ≠ None)
       ∧ (SessionResultView.status view ≠ completed →
          SessionResultView.result view = None)).
Proof.
  intros Hreach. pose proof (reachable_ok st Hreach) as Hst.
  split; [|split; [|split; [|split]]].
  - intros k s Hk. apply (Hst k s Hk).
  - intros st' k s s' Hstep Hk Hk'.
    pose proof (reachable_ok st' (reachable_step st st' Hreach Hstep)) as Hst'.
    destruct (Hst k s Hk) as [_ Hok]. destruct (Hst' k s' Hk') as [_ Hok'].
    destruct (step_cases st st' k s Hst Hstep Hk) as [Hsame|(s2 & c & Hk2 & Hin & Ht)].
    + assert (s' = s) as -> by congruence. split; [done|]. by intros ->.
    + assert (s2 = s') as -> by congruence. split.
      * intros Hres. apply Hok in Hres. congruence.
      * intros _ Hres. split; [done|]. by apply Hok'.
  - intros env input st' res Hrun.
    destruct (execute_accepts _ _ _ _ _ Hrun)
      as (s & t & d & s' & Hs & Hstatus & _ & _ & -> & Hacc).
    destruct (Hst _ _ Hs) as [Hid Hok].
    assert (result s = None) as Hnone.
    { destruct (result s) eqn:Hresult; [|done].
      assert (status s = completed) by (apply Hok; by rewrite Hresult).
      congruence. }
    pose proof (transition_ok s s' _ Hok Hstatus (accepts_transition _ _ _ _ _ _ Hacc))
      as Hok'.
    exists s, s'. rewrite Hid, lookup_insert_eq.
    do 4 (split; [done|]). split.
    { split; [apply Hok'|]. intros Hend.
      destruct (status s') eqn:Hstatus'; [|done].
      pose proof (ok_in_progress s' Hok' Hstatus'). lia. }
    destruct Hacc as [q reply fq Hw Hq Hne Hreply Ha Hfq Hfqne
                     | q reply fu s1 c Hw Hq Hne Hreply Hfu Hfalsy Hfin
                     | turn fq closeText s1 c Hw Hlast Hfq Hne Hclose Hfin].
    + simpl. rewrite Hstatus, Hnone. by repeat split.
    + simpl. destruct Hfin as [Hlt|fb Hge Hfb]; simpl.
      * rewrite Hstatus, Hnone. by repeat split.
      * repeat split. intros _. by exists fb.
    + simpl. destruct Hfin as [Hlt|fb Hge Hfb]; simpl.
      * rewrite Hstatus, Hnone. by repeat split.
      * repeat split. intros _. by exists fb.
  - intros k s Hk. unfold GetSessionResultUseCase.execute. unfold_M.
    rewrite Hk. simpl. destruct (Hst k s Hk) as [-> _]. done.
  - intros k view. unfold GetSessionResultUseCase.execute. unfold_M.
    destruct (st !! k) as [s|] eqn:Hk; simpl; [|done].
    intros [= <-]. simpl. destruct (Hst k s Hk) as [_ Hok].
    split; [apply Hok|].
    intros Hnot. destruct (result s) eqn:Hres; [|done].
    exfalso. apply Hnot. apply Hok. by rewrite Hres.
Qed.

Lemma completed_iff_result_witness :
  (status askedSession = completed ↔ result askedSession ≠ None)
  ∧ (status askedSession = in_progress ∧ status completedSession = completed)
  ∧ (∃ s', completedStore !! "s-1" = Some s'
           ∧ status s' = completed
           ∧ questionIndex s' = length (questions s')
           ∧ result s'
             = Some (emptyFeedback (computeTimingSummary (turns s')))).
Proof.
  destruct (completed_iff_result askedStore askedStore_reachable)
    as (Hstate & Hstep & Hsubmit & _).
  split; [|split].
  - apply (Hstate "s-1"). vm_compute. reflexivity.
  - apply (Hstep completedStore "s-1" askedSession completedSession).
    + apply step_submit.
    + vm_compute. reflexivity.
    + vm_compute. reflexivity.
    + reflexivity.
    + discriminate.
  - eassert (SubmitAnswerUseCase.execute askingEnv
               (textAnswer "s-1" "Because I like them." (Some 5%float)) askedStore
             = (completedStore, inr _)) as Hrun by (vm_compute; reflexivity).
    destruct (Hsubmit _ _ _ _ Hrun)
      as (s & s' & _ & Hs' & _ & _ & Hend & _ & _ & Hfeedback).
    assert (completedStore !! "s-1" = Some completedSession) as Hlook
      by (by vm_compute).
    change (SubmitAnswerInput.sessionId
              (textAnswer "s-1" "Because I like them." (Some 5%float)))
      with "s-1" in Hs'.
    assert (s' = completedSession) as -> by congruence.
    exists completedSession. split; [exact Hlook|]. split; [reflexivity|].
    split; [by apply Hend|].
    destruct (Hfeedback eq_refl) as (fb & Hfb & Hresult).
    simpl in Hfb. injection Hfb as <-. exact Hresult.
Defined.
